(** * Social-Graph-Crawler: crawl engine and graph traversal layer

    A shallow embedding of
      - [backend/app/crawlers/base.py]           (RateLimiter, BaseCrawler)
      - [backend/app/crawlers/reddit_crawler.py] (RedditCrawler)
      - [backend/app/api/graph.py]               (query_graph, get_graph_stats,
                                                  get_neighbors,
                                                  find_shortest_path)
      - [backend/app/api/crawl.py]               (start_crawl, run_crawler_task,
                                                  get_crawl_job,
                                                  cancel_crawl_job)
      - [backend/app/models/*.py]                (Node, Edge, CrawlJob)

    Conventions of the embedding.
      - A SQL table is the list of its rows, in the order the database
        returns them; [select ... where] is [filter].
      - UUIDs are numbers; [uuid4()] draws the next value of a supply kept
        with the database session.
      - A Python [float] is a binary64 value, one of Rocq's primitive
        floats, with the operations of IEEE 754 in the default rounding;
        an [int] becomes a [float] by [float_of_Z] (integers are taken to
        be below 2^63 in absolute value).  The token bucket alone, whose
        only inputs are readings of a clock, is kept in exact rationals.
      - A Python [dict] with string keys is a [gmap string _]; a Python
        [set] is a [gset _].
      - A coroutine that can raise is a state transformer returning
        [Exn + A]; the state reached before the exception is kept, as the
        mutations of the Python objects are.
      - A handler of the graph API is given in two steps: the function
        that bears its name runs it up to its [return] statement and
        yields the arguments of the response model; the function with
        the suffix [_response] adds the construction of the model, which
        can raise.
      - Server-side timestamps of Node and Edge rows are left out. *)

From Stdlib Require Import QArith Qminmax Lqa Ascii String Floats.
From stdpp Require Import gmap strings list.

Set Warnings "-inexact-float".

Set Default Proof Using "Type".

(* ===================================================================== *)
(** ** Data model *)
(* ===================================================================== *)

Abbreviation UUID := N (only parsing).

(** [float(z)] for a Python [int]. *)
Definition float_of_Z (z : Z) : float :=
  if (z <? 0)%Z then (- PrimFloat.of_uint63 (Uint63.of_Z (- z)))%float
  else PrimFloat.of_uint63 (Uint63.of_Z z).

(** JSON scalars, as [json] parses them: [null], a [bool], an [int], a
    [float], a [str]. *)
Inductive JValue : Type :=
| JNull
| JBool (b : bool)
| JInt (z : Z)
| JNum (x : float)
| JStr (s : string).

Abbreviation Dict := (gmap string JValue) (only parsing).

(** models/node.py *)
Record Node : Type := mkNode {
  node_id : UUID;
  entity_type : string;
  entity_id : string;
  source : string;
  display_name : string;
  node_metadata : Dict
}.

(** models/edge.py *)
Record Edge : Type := mkEdge {
  edge_id : UUID;
  source_node_id : UUID;
  target_node_id : UUID;
  relationship_type : string;
  weight : float;
  edge_metadata : Dict
}.

(** models/crawl_job.py *)
Inductive CrawlStatus : Type :=
| PENDING | RUNNING | COMPLETED | FAILED | CANCELLED.

#[global] Instance CrawlStatus_eq_dec : EqDecision CrawlStatus.
Proof. solve_decision. Defined.

Abbreviation datetime := N (only parsing).

Record CrawlJob : Type := mkCrawlJob {
  job_id : UUID;
  job_source : string;
  status : CrawlStatus;
  entity_count : Z;
  edge_count : Z;
  error_message : option string;
  started_at : option datetime;
  completed_at : option datetime
}.

(** [CrawlJob.is_finished] *)
Definition is_finished (job : CrawlJob) : bool :=
  bool_decide (status job ∈ [COMPLETED; FAILED; CANCELLED]).

(** [CrawlJob.duration_seconds]; timestamps count seconds, [utcnow] is
    the reading of [datetime.utcnow()]. *)
Definition duration_seconds (job : CrawlJob) (utcnow : datetime) : Z :=
  match started_at job, completed_at job with
  | Some started, Some completed => Z.of_N completed - Z.of_N started
  | Some started, None => Z.of_N utcnow - Z.of_N started
  | None, _ => 0
  end.

(** The database behind an [AsyncSession]: the three tables and the
    supply of fresh UUIDs. *)
Record Store : Type := mkStore {
  nodes : list Node;
  edges : list Edge;
  jobs : gmap N CrawlJob;
  next_uuid : UUID
}.

(** Exceptions that the modelled code can see. *)
Inductive Exn : Type :=
| NoResultFound
| MultipleResultsFound
| KeyError
| TypeError (description : string)
| AttributeError (description : string)
| MissingGreenlet
| ValidationError
| ClientResponseError (http_status : nat)
| ClientError (description : string).

(** [str(e)] *)
Definition str_exn (e : Exn) : string :=
  match e with
  | NoResultFound => "No row was found when one was required"
  | MultipleResultsFound => "Multiple rows were found when one or none was required"
  | KeyError => "key"
  | TypeError description => description
  | AttributeError description => description
  | MissingGreenlet =>
      "greenlet_spawn has not been called; can't call await_only() here"
  | ValidationError => "validation error"
  | ClientResponseError st => "client response error"
  | ClientError d => d
  end.

(** [Result.scalar_one_or_none()] and [Result.scalar_one()] *)
Definition scalar_one_or_none {A} (rows : list A) : Exn + option A :=
  match rows with
  | [] => inr None
  | [x] => inr (Some x)
  | _ => inl MultipleResultsFound
  end.

Definition scalar_one {A} (rows : list A) : Exn + A :=
  match rows with
  | [] => inl NoResultFound
  | [x] => inr x
  | _ => inl MultipleResultsFound
  end.

(** Python truthiness of an [Optional[Dict]], and [metadata or {}]. *)
Definition dict_truthy (metadata : option Dict) : bool :=
  match metadata with
  | None => false
  | Some m => negb (bool_decide (m = ∅))
  end.

Definition dict_or_empty (metadata : option Dict) : Dict :=
  match metadata with
  | None => ∅
  | Some m => m
  end.

(** [{**old, **new}]: keys of both, the value of [new] where both have one. *)
Definition dict_merge (old new : Dict) : Dict := new ∪ old.

(* ===================================================================== *)
(** ** crawlers/base.py: RateLimiter *)
(* ===================================================================== *)

Module RateLimiter.

Record RateLimiter : Type := mkRateLimiter {
  requests_per_second : Q;
  tokens : Q;
  updated_at : Q
}.

(** [RateLimiter.__init__], [now] being the reading of [loop.time()]. *)
Definition init (requests_per_second now : Q) : RateLimiter :=
  mkRateLimiter requests_per_second requests_per_second now.

(** [RateLimiter.acquire], for one caller.  [clock n] is what the [n]-th
    call of [loop.time()] returns, [reading] counts the calls made so
    far and [sleeps] the calls of [asyncio.sleep(0.1)].  [fuel] bounds
    the iterations of the [while] loop: [None] means that the loop has
    not ended within it. *)
Fixpoint acquire (fuel : nat) (clock : nat → Q) (reading sleeps : nat)
    (r : RateLimiter) : option (RateLimiter * nat) :=
  if Qlt_le_dec (tokens r) 1 then
    match fuel with
    | O => None
    | S fuel' =>
        let now := clock reading in
        let elapsed := (now - updated_at r)%Q in
        let tokens' :=
          Qmin (requests_per_second r)
               (tokens r + elapsed * requests_per_second r)%Q in
        acquire fuel' clock (S reading)
                (if Qlt_le_dec tokens' 1 then S sleeps else sleeps)
                (mkRateLimiter (requests_per_second r) tokens' now)
    end
  else
    Some (mkRateLimiter (requests_per_second r) (tokens r - 1)%Q (updated_at r),
          sleeps).

End RateLimiter.

(* ===================================================================== *)
(** ** crawlers/base.py: BaseCrawler *)
(* ===================================================================== *)

Module BaseCrawler.

(** The fields of a crawler instance that the modelled methods touch.
    [source_name] is what the subclass returns from [get_source_name];
    [utcnow] is the reading of [datetime.utcnow()]. *)
Record Crawler : Type := mkCrawler {
  db : Store;
  discovered_nodes : gset string;
  discovered_edges : gset (N * N * string);
  source_name : string;
  utcnow : datetime
}.

(** [BaseCrawler.__init__]: empty discovered sets. *)
Definition init (session : Store) (name : string) (now : datetime) : Crawler :=
  mkCrawler session ∅ ∅ name now.

Definition with_db (c : Crawler) (d : Store) : Crawler :=
  mkCrawler d (discovered_nodes c) (discovered_edges c) (source_name c) (utcnow c).

(** Coroutines of a crawler: state transformers that may raise. *)
Definition M (A : Type) : Type := Crawler → (Exn + A) * Crawler.

Definition ret {A} (a : A) : M A := λ c, (inr a, c).
Definition raise {A} (e : Exn) : M A := λ c, (inl e, c).
Definition bind {A B} (m : M A) (k : A → M B) : M B :=
  λ c, match m c with
       | (inl e, c') => (inl e, c')
       | (inr a, c') => k a c'
       end.
Definition get : M Crawler := λ c, (inr c, c).
Definition put (c' : Crawler) : M unit := λ _, (inr tt, c').
Definition lift {A} (r : Exn + A) : M A := λ c, (r, c).

(** [try: body except Exception as e: handler(e)] *)
Definition try_except {A} (body : M A) (handler : Exn → M A) : M A :=
  λ c, match body c with
       | (inl e, c') => handler e c'
       | (inr a, c') => (inr a, c')
       end.

Declare Scope crawl_scope.
Delimit Scope crawl_scope with crawl.
Notation "'let*' x ':=' m 'in' k" := (bind m (λ x, k))
  (at level 10, x pattern, m at level 100, k at level 200) : crawl_scope.
Notation "m ';;' k" := (bind m (λ _, k))
  (at level 100, k at level 200, right associativity) : crawl_scope.
Local Open Scope crawl_scope.

(** [select(Node).where(source ==, entity_type ==, entity_id ==)] *)
Definition select_node (d : Store) (src etype eid : string) : list Node :=
  filter (λ n, source n = src ∧ entity_type n = etype ∧ entity_id n = eid)
         (nodes d).

(** [select(Edge).where(source_node_id ==, target_node_id ==,
    relationship_type ==)] *)
Definition select_edge (d : Store) (s t : N) (rel : string) : list Edge :=
  filter (λ e, source_node_id e = s ∧ target_node_id e = t
               ∧ relationship_type e = rel)
         (edges d).

(** [db.add(node)] followed by [flush]: the row gets its [uuid4] default. *)
Definition add_node (d : Store) (etype eid src name : string) (md : Dict)
  : Node * Store :=
  let n := mkNode (next_uuid d) etype eid src name md in
  (n, mkStore (nodes d ++ [n]) (edges d) (jobs d) (N.succ (next_uuid d))).

Definition add_edge (d : Store) (s t : N) (rel : string) (w : float) (md : Dict)
  : Edge * Store :=
  let e := mkEdge (next_uuid d) s t rel w md in
  (e, mkStore (nodes d) (edges d ++ [e]) (jobs d) (N.succ (next_uuid d))).

(** An attribute assignment on a loaded row followed by [flush]: the row
    with that primary key is rewritten. *)
Definition flush_node (d : Store) (n' : Node) : Store :=
  mkStore (map (λ n, if bool_decide (node_id n = node_id n') then n' else n)
               (nodes d))
          (edges d) (jobs d) (next_uuid d).

Definition flush_edge (d : Store) (e' : Edge) : Store :=
  mkStore (nodes d)
          (map (λ e, if bool_decide (edge_id e = edge_id e') then e' else e)
               (edges d))
          (jobs d) (next_uuid d).

Definition unique_key (src etype eid : string) : string :=
  src +:+ ":" +:+ etype +:+ ":" +:+ eid.

(** [BaseCrawler.create_or_update_node] *)
Definition create_or_update_node
    (etype eid name : string) (metadata : option Dict) : M Node :=
  let* c := get in
  let src := source_name c in
  let key := unique_key src etype eid in
  if bool_decide (key ∈ discovered_nodes c) then
    (* Already processed in this session *)
    lift (scalar_one (select_node (db c) src etype eid))
  else
    let* found := lift (scalar_one_or_none (select_node (db c) src etype eid)) in
    let* node :=
      match found with
      | Some node =>
          let node' :=
            mkNode (node_id node) (entity_type node) (entity_id node)
                   (source node) name
                   (if dict_truthy metadata
                    then dict_merge (node_metadata node) (dict_or_empty metadata)
                    else node_metadata node) in
          put (with_db c (flush_node (db c) node'));;
          ret node'
      | None =>
          let '(node, d') :=
            add_node (db c) etype eid src name (dict_or_empty metadata) in
          put (with_db c d');;
          ret node
      end in
    let* c := get in
    put (mkCrawler (db c) ({[key]} ∪ discovered_nodes c) (discovered_edges c)
                   (source_name c) (utcnow c));;
    ret node.

(** [BaseCrawler.create_edge] *)
Definition create_edge
    (source_node target_node : Node) (rel : string) (w : float)
    (metadata : option Dict) : M (option Edge) :=
  let* c := get in
  let edge_key := (node_id source_node, node_id target_node, rel) in
  if bool_decide (edge_key ∈ discovered_edges c) then
    ret None
  else
    let* found :=
      lift (scalar_one_or_none
              (select_edge (db c) (node_id source_node) (node_id target_node) rel)) in
    let* edge :=
      match found with
      | Some edge =>
          (* Update weight (average with existing) *)
          let edge' :=
            mkEdge (edge_id edge) (source_node_id edge) (target_node_id edge)
                   (relationship_type edge)
                   ((weight edge + w) / 2)%float
                   (if dict_truthy metadata
                    then dict_merge (edge_metadata edge) (dict_or_empty metadata)
                    else edge_metadata edge) in
          put (with_db c (flush_edge (db c) edge'));;
          ret edge'
      | None =>
          let '(edge, d') :=
            add_edge (db c) (node_id source_node) (node_id target_node) rel w
                     (dict_or_empty metadata) in
          put (with_db c d');;
          ret edge
      end in
    let* c := get in
    put (mkCrawler (db c) (discovered_nodes c) ({[edge_key]} ∪ discovered_edges c)
                   (source_name c) (utcnow c));;
    ret (Some edge).

(** A [CrawlJob] object is referred to by its primary key: the methods
    below mutate the row of the job table that the reference names, so
    every holder of the reference sees the mutation. *)

(** [BaseCrawler.create_crawl_job] *)
Definition create_crawl_job : M UUID :=
  let* c := get in
  let d := db c in
  let job := mkCrawlJob (next_uuid d) (source_name c) PENDING 0 0 None None None in
  put (with_db c (mkStore (nodes d) (edges d)
                          (<[next_uuid d := job]> (jobs d))
                          (N.succ (next_uuid d))));;
  ret (next_uuid d).

(** Python truthiness of an [Optional[str]]. *)
Definition str_truthy (s : option string) : bool :=
  match s with
  | None => false
  | Some s => negb (bool_decide (s = ""))
  end.

Definition set_job_fields (now : datetime) (st : CrawlStatus)
    (entities edges_n : option Z) (err : option string) (job : CrawlJob)
  : CrawlJob :=
  mkCrawlJob (job_id job) (job_source job) st
    (default (entity_count job) entities)
    (default (edge_count job) edges_n)
    (if str_truthy err then err else error_message job)
    (if bool_decide (st = RUNNING) && negb (bool_decide (is_Some (started_at job)))
     then Some now else started_at job)
    (if bool_decide (st ∈ [COMPLETED; FAILED])
     then Some now else completed_at job).

(** [BaseCrawler.update_crawl_job] *)
Definition update_crawl_job (job : UUID) (st : CrawlStatus)
    (entities edges_n : option Z) (err : option string) : M unit :=
  let* c := get in
  let d := db c in
  put (with_db c (mkStore (nodes d) (edges d)
                          (alter (set_job_fields (utcnow c) st entities edges_n err)
                                 job (jobs d))
                          (next_uuid d))).

(** *** fetch_with_rate_limit

    The remote end is the sequence of answers it gives to the successive
    GET requests for one URL.  What the coroutine does is recorded as a
    trace of the calls it makes. *)

Inductive Answer (Body : Type) : Type :=
| Json (body : Body)                 (* 2xx, body parsed *)
| HttpError (http_status : nat)      (* raise_for_status() raises *)
| Failure (e : Exn).                 (* any other exception *)
Arguments Json {Body} body.
Arguments HttpError {Body} http_status.
Arguments Failure {Body} e.

Inductive Call : Type :=
| Acquire                            (* rate_limiter.acquire() *)
| Get                                (* session.get(url, ...) *)
| Sleep (seconds : nat).             (* asyncio.sleep(seconds) *)

(** [BaseCrawler.fetch_with_rate_limit]; [attempt] counts the requests
    already sent, [fuel] bounds the depth of the recursion that is
    unfolded: [None] means that the call has not returned within it (at
    the depth that the interpreter allows, the next call raises
    RecursionError instead; the method itself sets no bound). *)
Fixpoint fetch_with_rate_limit {Body} (fuel : nat) (server : nat → Answer Body)
    (attempt : nat) (trace : list Call)
  : option ((Exn + Body) * list Call) :=
  match fuel with
  | O => None
  | S fuel' =>
      let trace := trace ++ [Acquire; Get] in
      match server attempt with
      | Json body => Some (inr body, trace)
      | HttpError st =>
          if bool_decide (st = 429) then
            fetch_with_rate_limit fuel' server (S attempt) (trace ++ [Sleep 60])
          else Some (inl (ClientResponseError st), trace)
      | Failure e => Some (inl e, trace)
      end
  end.

End BaseCrawler.

(* ===================================================================== *)
(** ** crawlers/reddit_crawler.py: RedditCrawler *)
(* ===================================================================== *)

Module RedditCrawler.
Import BaseCrawler.
Local Open Scope crawl_scope.

(** A post of a listing: the keys that the crawler reads, each absent or
    present ([post.get(key)]).  The keys read as text hold strings, as
    Reddit sends them; the score is used in arithmetic, and its JSON
    value is kept as it is. *)
Record Post : Type := mkPost {
  author : option string;
  score : option JValue;
  title : option string;
  id : option string;
  created_utc : option JValue;
  subreddit : option string
}.

(** Reddit as the crawler sees it: for each name, what
    [fetch_with_rate_limit] on the corresponding URL ends with, the body
    already walked down to the part that the helper returns
    ([data.get("data", {})], resp. the [data] of each child). *)
Record Reddit : Type := mkReddit {
  about_json : string → Exn + Dict;            (* /r/<name>/about.json *)
  top_json : string → Exn + list Post;         (* /r/<name>/top.json *)
  submitted_json : string → Exn + list Post    (* /user/<name>/submitted.json *)
}.

(** [get_source_name] *)
Definition get_source_name : string := "reddit".

(** [str.lower()], on ASCII letters. *)
Definition lower_ascii (a : ascii) : ascii :=
  let n := nat_of_ascii a in
  if (65 <=? n)%nat && (n <=? 90)%nat then ascii_of_nat (n + 32) else a.

Fixpoint lower (s : string) : string :=
  match s with
  | EmptyString => EmptyString
  | String a s' => String (lower_ascii a) (lower s')
  end.

(** [_fetch_subreddit_info]: every exception is logged and turned into
    [None]. *)
Definition _fetch_subreddit_info (w : Reddit) (subreddit_name : string)
  : option Dict :=
  match about_json w subreddit_name with
  | inr data => Some data
  | inl _ => None
  end.

(** [_fetch_subreddit_posts]: every exception is logged and turned into
    the empty list. *)
Definition _fetch_subreddit_posts (w : Reddit) (subreddit_name : string)
  : list Post :=
  match top_json w subreddit_name with
  | inr posts => posts
  | inl _ => []
  end.

(** [_fetch_user_posts]: likewise. *)
Definition _fetch_user_posts (w : Reddit) (username : string) : list Post :=
  match submitted_json w username with
  | inr posts => posts
  | inl _ => []
  end.

(** [subreddit_counts[subreddit] = subreddit_counts.get(subreddit, 0) + 1]
    on a dict kept in insertion order. *)
Fixpoint count_up (counts : list (string * Z)) (name : string)
  : list (string * Z) :=
  match counts with
  | [] => [(name, 1%Z)]
  | (k, n) :: rest =>
      if bool_decide (k = name) then (k, (n + 1)%Z) :: rest
      else (k, n) :: count_up rest name
  end.

Definition subreddit_counts (posts : list Post) : list (string * Z) :=
  fold_left (λ counts post,
               match subreddit post with
               | Some name => if bool_decide (name = "") then counts
                              else count_up counts name
               | None => counts
               end)
            posts [].

(** [sorted(items, key=lambda x: x[1], reverse=True)]: by decreasing
    count, items of equal count in their original order. *)
Fixpoint insert_desc (x : string * Z) (l : list (string * Z))
  : list (string * Z) :=
  match l with
  | [] => [x]
  | y :: l' => if bool_decide (x.2 < y.2)%Z then y :: insert_desc x l'
               else x :: l
  end.

Definition sorted_desc (l : list (string * Z)) : list (string * Z) :=
  foldr insert_desc [] l.

(** [for x in xs: body(x)] *)
Fixpoint for_each {A} (xs : list A) (body : A → M unit) : M unit :=
  match xs with
  | [] => ret tt
  | x :: xs' => body x;; for_each xs' body
  end.

(** [len(self.discovered_nodes) >= max_entities] *)
Definition budget_exhausted (c : Crawler) (max_entities : Z) : bool :=
  bool_decide (max_entities ≤ Z.of_nat (size (discovered_nodes c)))%Z.

(** [min(count / 10.0, 1.0)]: the second argument when it is less than
    the first, else the first. *)
Definition subreddit_weight (count : Z) : float :=
  let x := (float_of_Z count / 10)%float in
  if (1 <? x)%float then 1%float else x.

(** [post.get("score", 1) / 100.0]: the division is defined for numbers
    ([bool] among them) and raises TypeError for [None] and for a
    [str]. *)
Definition score_weight (score : option JValue) : Exn + float :=
  match score with
  | None => inr (float_of_Z 1 / 100)%float
  | Some (JInt z) => inr (float_of_Z z / 100)%float
  | Some (JBool b) => inr (float_of_Z (if b then 1 else 0) / 100)%float
  | Some (JNum x) => inr (x / 100)%float
  | Some JNull =>
      inl (TypeError "unsupported operand type(s) for /: 'NoneType' and 'float'")
  | Some (JStr _) =>
      inl (TypeError "unsupported operand type(s) for /: 'str' and 'float'")
  end.

(** [RedditCrawler._crawl_user] *)
Definition _crawl_user (w : Reddit) (username : string) (max_subreddits : nat)
  : M unit :=
  let posts := _fetch_user_posts w username in
  let counts := subreddit_counts posts in
  let* user_node :=
    create_or_update_node "user" (lower username) ("u/" +:+ username) (Some ∅) in
  for_each (take max_subreddits (sorted_desc counts))
    (λ '(name, count),
       let* subreddit_node :=
         create_or_update_node "subreddit" (lower name) ("r/" +:+ name) (Some ∅) in
       create_edge user_node subreddit_node "posts_in"
                   (subreddit_weight count)
                   (Some {["post_count" := JInt count]});;
       ret tt).

(** The [for post in posts] loop of [_crawl_subreddit], with its [break]
    and [continue]. *)
Fixpoint posts_loop (w : Reddit) (depth max_entities : Z)
    (subreddit_node : Node) (posts : list Post) : M unit :=
  match posts with
  | [] => ret tt
  | post :: rest =>
      let* c := get in
      if budget_exhausted c max_entities then ret tt
      else
        match author post with
        | None => posts_loop w depth max_entities subreddit_node rest
        | Some name =>
            if bool_decide (name = "") || bool_decide (name = "[deleted]")
            then posts_loop w depth max_entities subreddit_node rest
            else
              let* user_node :=
                create_or_update_node "user" (lower name) ("u/" +:+ name)
                  (Some {["post_karma" := JInt 0; "comment_karma" := JInt 0]}) in
              let* weight := lift (score_weight (score post)) in
              create_edge user_node subreddit_node "posts_in" weight
                (Some {["post_title" := JStr (default "" (title post));
                        "post_id" := JStr (default "" (id post));
                        "created_utc" := default (JInt 0) (created_utc post)]});;
              (if bool_decide (3 ≤ depth)%Z then _crawl_user w name 5
               else ret tt);;
              posts_loop w depth max_entities subreddit_node rest
        end
  end.

(** [RedditCrawler._crawl_subreddit] *)
Definition _crawl_subreddit (w : Reddit) (subreddit_name : string)
    (depth max_entities : Z) : M unit :=
  let* c := get in
  if budget_exhausted c max_entities then ret tt
  else
    match _fetch_subreddit_info w subreddit_name with
    | None => ret tt
    | Some subreddit_data =>
        if bool_decide (subreddit_data = ∅) then ret tt
        else
          let* subreddit_node :=
            create_or_update_node "subreddit" (lower subreddit_name)
              ("r/" +:+ subreddit_name)
              (Some {["subscribers" :=
                        default (JInt 0) (subreddit_data !! "subscribers");
                      "description" :=
                        default (JStr "") (subreddit_data !! "public_description");
                      "created_utc" :=
                        default (JInt 0) (subreddit_data !! "created_utc");
                      "over18" :=
                        default (JBool false) (subreddit_data !! "over18")]}) in
          if bool_decide (depth < 2)%Z then ret tt
          else
            posts_loop w depth max_entities subreddit_node
                       (_fetch_subreddit_posts w subreddit_name)
    end.

(** [RedditCrawler.crawl]; the result is the reference to the job. *)
Definition crawl (w : Reddit) (start_entity : string) (depth max_entities : Z)
  : M UUID :=
  let* job := create_crawl_job in
  try_except
    (update_crawl_job job RUNNING None None None;;
     _crawl_subreddit w start_entity depth max_entities;;
     let* c := get in
     update_crawl_job job COMPLETED
       (Some (Z.of_nat (size (discovered_nodes c))))
       (Some (Z.of_nat (size (discovered_edges c))))
       None;;
     ret job)
    (λ e,
       update_crawl_job job FAILED None None (Some (str_exn e));;
       raise e).

(** What [run_crawler_task] of api/crawl.py does for the source reddit,
    [async with RedditCrawler(db, rate_limit=1.0) as crawler:
       await crawler.crawl(start_entity, depth, max_entities)]:
    [crawl] on a new crawler over the session.  The result is what
    [crawl] returns or raises, and the crawler as it is then. *)
Definition run_reddit_crawler (w : Reddit) (session : Store) (now : datetime)
    (start_entity : string) (depth max_entities : Z)
  : (Exn + UUID) * Crawler :=
  crawl w start_entity depth max_entities (init session get_source_name now).

End RedditCrawler.

(* ===================================================================== *)
(** ** api/crawl.py: cancel_crawl_job, and the results of API routes *)
(* ===================================================================== *)

(** What a route handler ends with: the response, an [HTTPException]
    with its status code, or an exception that nothing handles. *)
Inductive APIResult (A : Type) : Type :=
| Ok (response : A)
| HTTPException (status_code : nat)
| Unhandled (e : Exn).
Arguments Ok {A} response.
Arguments HTTPException {A} status_code.
Arguments Unhandled {A} e.

Module CrawlAPI.

(** [start_crawl]: the job record that is returned to the client, and the
    database with it.  The background task scheduled here is
    [run_crawler_task] below. *)
Definition start_crawl (d : Store) (source : string) : UUID * Store :=
  let job := mkCrawlJob (next_uuid d) source PENDING 0 0 None None None in
  (next_uuid d,
   mkStore (nodes d) (edges d) (<[next_uuid d := job]> (jobs d))
           (N.succ (next_uuid d))).

(** [run_crawler_task]: a crawler for the source reddit, a [ValueError]
    for any other source; [except Exception: pass] ends either, so that
    the task returns nothing and raises nothing.  What is left of it is
    the database. *)
Definition run_crawler_task (w : RedditCrawler.Reddit) (source : string)
    (start_entity : string) (depth max_entities : Z)
    (session : Store) (now : datetime) : Store :=
  if bool_decide (source = "reddit") then
    BaseCrawler.db
      (RedditCrawler.run_reddit_crawler w session now start_entity depth
         max_entities).2
  else session.

(** [get_crawl_job] *)
Definition get_crawl_job (d : Store) (job : UUID) : APIResult CrawlJob :=
  match jobs d !! job with
  | None => HTTPException 404
  | Some j => Ok j
  end.

(** [cancel_crawl_job]: the result and the job table afterwards. *)
Definition cancel_crawl_job (d : Store) (job : UUID) (now : datetime)
  : APIResult unit * Store :=
  match jobs d !! job with
  | None => (HTTPException 404, d)
  | Some j =>
      if is_finished j then (HTTPException 400, d)
      else
        let j' :=
          mkCrawlJob (job_id j) (job_source j) CANCELLED
                     (entity_count j) (edge_count j) (error_message j)
                     (started_at j)
                     (if bool_decide (is_Some (completed_at j))
                      then completed_at j else Some now) in
        (Ok tt, mkStore (nodes d) (edges d) (<[job := j']> (jobs d))
                        (next_uuid d))
  end.

End CrawlAPI.

(* ===================================================================== *)
(** ** api/graph.py: query_graph, get_graph_stats, find_shortest_path *)
(* ===================================================================== *)

Module GraphAPI.

Inductive Direction : Type := outgoing | incoming | both.

#[global] Instance Direction_eq_dec : EqDecision Direction.
Proof. solve_decision. Defined.

(** schemas/graph.py *)
Record GraphQuery : Type := mkGraphQuery {
  start_node_id : UUID;
  depth : Z;
  max_nodes : Z;
  relationship_types : option (list string);
  direction : Direction
}.

(** The arguments of [GraphResponse(nodes=..., edges=...)], rows of the
    store as the handler collected them; the model that Pydantic builds
    of them is [GraphBody] below. *)
Record GraphResponse : Type := mkGraphResponse {
  resp_nodes : list Node;
  resp_edges : list Edge
}.

Record PathQuery : Type := mkPathQuery {
  path_source_node_id : UUID;
  path_target_node_id : UUID;
  max_depth : Z
}.

(** The arguments of [PathResponse(path=..., edges=..., length=...,
    total_weight=...)]. *)
Record PathResponse : Type := mkPathResponse {
  path : list Node;
  path_edges : list Edge;
  length : Z;
  total_weight : float
}.

Record GraphStats : Type := mkGraphStats {
  total_nodes : Z;
  total_edges : Z;
  nodes_by_type : gmap string Z;
  edges_by_type : gmap string Z;
  nodes_by_source : gmap string Z;
  average_degree : float;
  density : float;
  connected_components : Z
}.

(** [select(Node).where(Node.id == i)] *)
Definition select_node_by_id (d : Store) (i : UUID) : list Node :=
  filter (λ n, node_id n = i) (nodes d).

(** [if query.relationship_types: q = q.where(type.in_(types))] *)
Definition type_allowed (types : option (list string)) (e : Edge) : Prop :=
  match types with
  | None | Some [] => True
  | Some ts => relationship_type e ∈ ts
  end.

#[global] Instance type_allowed_dec types e : Decision (type_allowed types e).
Proof. destruct types as [[|? ?]|]; simpl; apply _. Defined.

Definition outgoing_query (d : Store) (q : GraphQuery) (current_id : UUID)
  : list Edge :=
  filter (λ e, source_node_id e = current_id
               ∧ type_allowed (relationship_types q) e) (edges d).

Definition incoming_query (d : Store) (q : GraphQuery) (current_id : UUID)
  : list Edge :=
  filter (λ e, target_node_id e = current_id
               ∧ type_allowed (relationship_types q) e) (edges d).

(** What [edges_data.scalars().all()] holds.  A [select(Edge)] yields the
    mapped rows; the compound select that [union] builds yields plain
    rows of columns, of which [scalars()] keeps the first, the id. *)
Inductive Scalars : Type :=
| Entities (rows : list Edge)
| FirstColumn (ids : list UUID).

(** [edge_query]; for [both] the SQL UNION of the two selects, each row
    once. *)
Definition edge_query (d : Store) (q : GraphQuery) (current_id : UUID)
  : Scalars :=
  match direction q with
  | outgoing => Entities (outgoing_query d q current_id)
  | incoming => Entities (incoming_query d q current_id)
  | both =>
      let out := outgoing_query d q current_id in
      FirstColumn
        (edge_id <$> (out ++ filter (λ e, edge_id e ∉ edge_id <$> out)
                                    (incoming_query d q current_id)))
  end.

(** The local variables of the traversal in [query_graph]. *)
Record Walk : Type := mkWalk {
  visited_nodes : gset N;
  visited_edges : gset N;
  queue : list (N * Z);
  nodes_result : list Node;
  edges_result : list Edge
}.

(** The body of [for edge in edges]. *)
Definition visit_edge (q : GraphQuery) (current_id : UUID) (current_depth : Z)
    (w : Walk) (edge : Edge) : Walk :=
  if bool_decide (edge_id edge ∈ visited_edges w) then w
  else
    let next_node_id :=
      if bool_decide (direction q = outgoing ∨ source_node_id edge = current_id)
      then target_node_id edge else source_node_id edge in
    let ve := {[edge_id edge]} ∪ visited_edges w in
    let er := edges_result w ++ [edge] in
    if bool_decide (next_node_id ∈ visited_nodes w) then
      mkWalk (visited_nodes w) ve (queue w) (nodes_result w) er
    else
      mkWalk ({[next_node_id]} ∪ visited_nodes w) ve
             (queue w ++ [(next_node_id, (current_depth + 1)%Z)])
             (nodes_result w) er.

(** [for edge in edges]: over mapped rows the body above; over ids the
    first [edge.id] raises. *)
Definition visit_edges (q : GraphQuery) (current_id : UUID) (current_depth : Z)
    (w : Walk) (edges : Scalars) : Exn + Walk :=
  match edges with
  | Entities rows => inr (fold_left (visit_edge q current_id current_depth) rows w)
  | FirstColumn [] => inr w
  | FirstColumn (_ :: _) =>
      inl (AttributeError "'UUID' object has no attribute 'id'")
  end.

(** [while queue and len(visited_nodes) < query.max_nodes]; [fuel] bounds
    the number of iterations, [None] means that it did not suffice. *)
Fixpoint bfs_loop (fuel : nat) (d : Store) (q : GraphQuery) (w : Walk)
  : option (Exn + Walk) :=
  match queue w with
  | [] => Some (inr w)
  | (current_id, current_depth) :: rest =>
      if bool_decide (Z.of_nat (size (visited_nodes w)) < max_nodes q)%Z then
        match fuel with
        | O => None
        | S fuel' =>
            match scalar_one (select_node_by_id d current_id) with
            | inl e => Some (inl e)
            | inr current_node =>
                let w1 := mkWalk (visited_nodes w) (visited_edges w) rest
                                 (nodes_result w ++ [current_node])
                                 (edges_result w) in
                if bool_decide (depth q ≤ current_depth)%Z then
                  bfs_loop fuel' d q w1
                else
                  match visit_edges q current_id current_depth w1
                                    (edge_query d q current_id) with
                  | inl e => Some (inl e)
                  | inr w2 => bfs_loop fuel' d q w2
                  end
            end
        end
      else Some (inr w)
  end.

Definition initial_walk (q : GraphQuery) : Walk :=
  mkWalk {[start_node_id q]} ∅ [(start_node_id q, 0%Z)] [] [].

(** [query_graph] up to its [return] statement, with a given bound on
    the iterations of its loop: [Ok r] says that the statement
    [return GraphResponse(...)] is reached, with the arguments [r]. *)
Definition query_graph_fuel (fuel : nat) (d : Store) (q : GraphQuery)
  : option (APIResult GraphResponse) :=
  match scalar_one_or_none (select_node_by_id d (start_node_id q)) with
  | inl e => Some (Unhandled e)
  | inr None => Some (HTTPException 404)
  | inr (Some _) =>
      match bfs_loop fuel d q (initial_walk q) with
      | None => None
      | Some (inl e) => Some (Unhandled e)
      | Some (inr w) =>
          Some (Ok (mkGraphResponse (nodes_result w) (edges_result w)))
      end
  end.

(** [query_graph] up to its [return] statement: [max_nodes] iterations
    of the loop always suffice (theorem [query_graph_total] below). *)
Definition query_graph (d : Store) (q : GraphQuery)
  : option (APIResult GraphResponse) :=
  query_graph_fuel (Z.to_nat (max_nodes q)) d q.

(** [{row[0]: row[1] for row in select(key, count(id)).group_by(key)}] *)
Definition count_by {A} (key : A → string) (rows : list A) : gmap string Z :=
  foldr (λ r m, <[key r := (default 0 (m !! key r) + 1)%Z]> m) ∅ rows.

(** [get_graph_stats] *)
Definition get_graph_stats (d : Store) : GraphStats :=
  let total_nodes := Z.of_nat (List.length (nodes d)) in
  let total_edges := Z.of_nat (List.length (edges d)) in
  let avg_degree :=
    if bool_decide (0 < total_nodes)%Z
    then (float_of_Z (2 * total_edges) / float_of_Z total_nodes)%float
    else 0%float in
  let max_possible_edges :=
    (float_of_Z (total_nodes * (total_nodes - 1)) / 2)%float in
  let density :=
    if (0 <? max_possible_edges)%float
    then (float_of_Z total_edges / max_possible_edges)%float else 0%float in
  (* Connected components (simplified - just counting isolated nodes) *)
  let connected_components := total_nodes in
  mkGraphStats total_nodes total_edges
    (count_by entity_type (nodes d))
    (count_by relationship_type (edges d))
    (count_by source (nodes d))
    avg_degree density connected_components.

(** schemas/graph.py *)
Record NeighborsQuery : Type := mkNeighborsQuery {
  neighbors_node_id : UUID;
  neighbors_relationship_types : option (list string);
  neighbors_direction : Direction;
  max_neighbors : Z
}.

Record NeighborsResponse : Type := mkNeighborsResponse {
  neighbors_node : Node;
  neighbors : list Node;
  neighbors_edges : list Edge;
  count : Z
}.

(** [get_neighbors] up to its [return] statement, [Ok r] holding the
    arguments of [NeighborsResponse(...)]; [.limit(n)] keeps the first
    [n] rows. *)
Definition get_neighbors (d : Store) (q : NeighborsQuery)
  : APIResult NeighborsResponse :=
  match scalar_one_or_none (select_node_by_id d (neighbors_node_id q)) with
  | inl e => Unhandled e
  | inr None => HTTPException 404
  | inr (Some node) =>
      let outgoing_edges :=
        if bool_decide (neighbors_direction q ∈ [outgoing; both]) then
          take (Z.to_nat (max_neighbors q))
               (filter (λ e, source_node_id e = neighbors_node_id q
                             ∧ type_allowed (neighbors_relationship_types q) e)
                       (edges d))
        else [] in
      let incoming_edges :=
        if bool_decide (neighbors_direction q ∈ [incoming; both]) then
          take (Z.to_nat (max_neighbors q))
               (filter (λ e, target_node_id e = neighbors_node_id q
                             ∧ type_allowed (neighbors_relationship_types q) e)
                       (edges d))
        else [] in
      let neighbor_ids : gset N :=
        list_to_set (source_node_id <$> incoming_edges)
        ∪ list_to_set (target_node_id <$> outgoing_edges) in
      let neighbors := filter (λ n, node_id n ∈ neighbor_ids) (nodes d) in
      Ok (mkNeighborsResponse node neighbors
            (outgoing_edges ++ incoming_edges)
            (Z.of_nat (List.length neighbors)))
  end.

(** An entry of the queue of [find_shortest_path]:
    [(current_id, path, path_edges, total_weight, depth)]. *)
Definition Entry : Type := (N * list N * list Edge * float * Z)%type.

(** [ordered_nodes = [path_nodes[node_id] for node_id in path]] with
    [path_nodes = {n.id: n for n in select(Node).where(id.in_(path))}]:
    the last row of each id, [KeyError] when there is none. *)
Definition ordered_nodes (d : Store) (ids : list N) : Exn + list Node :=
  let rows := filter (λ n, node_id n ∈ ids) (nodes d) in
  let path_nodes : gmap N Node :=
    fold_left (λ m n, <[node_id n := n]> m) rows ∅ in
  foldr (λ i acc,
           match acc, path_nodes !! i with
           | inl e, _ => inl e
           | inr _, None => inl KeyError
           | inr ns, Some n => inr (n :: ns)
           end)
        (inr []) ids.

(** What the handler does when the target is dequeued, up to its
    [return] statement: [Ok r] holds the arguments of
    [PathResponse(...)].  The edge rows come from a select without ORDER
    BY; they are taken in the order of the table, and statements about
    them are made up to that order. *)
Definition found (d : Store) (ids : list N) (es : list Edge) (w : float)
  : APIResult PathResponse :=
  match ordered_nodes d ids with
  | inl e => Unhandled e
  | inr ns =>
      Ok (mkPathResponse ns
            (filter (λ e, edge_id e ∈ edge_id <$> es) (edges d))
            (Z.of_nat (List.length ids) - 1)
            w)
  end.

(** The body of [for edge in edges] in [find_shortest_path]. *)
Definition path_step (ids : list N) (es : list Edge) (w : float) (dep : Z)
    (st : gset N * list Entry) (edge : Edge) : gset N * list Entry :=
  let next_id := target_node_id edge in
  if bool_decide (next_id ∈ st.1) then st
  else ({[next_id]} ∪ st.1,
        st.2 ++ [(next_id, ids ++ [next_id], es ++ [edge],
                  (w + weight edge)%float, (dep + 1)%Z)]).

(** [while queue:] of [find_shortest_path]. *)
Fixpoint path_loop (fuel : nat) (d : Store) (q : PathQuery)
    (visited : gset N) (queue : list Entry)
  : option (APIResult PathResponse) :=
  match queue with
  | [] => Some (HTTPException 404)
  | (current_id, ids, es, w, dep) :: rest =>
      match fuel with
      | O => None
      | S fuel' =>
          if bool_decide (current_id = path_target_node_id q) then
            Some (found d ids es w)
          else if bool_decide (max_depth q ≤ dep)%Z then
            path_loop fuel' d q visited rest
          else
            let '(visited', queue') :=
              fold_left (path_step ids es w dep)
                        (filter (λ e, source_node_id e = current_id) (edges d))
                        (visited, rest) in
            path_loop fuel' d q visited' queue'
      end
  end.

Definition find_shortest_path_fuel (fuel : nat) (d : Store) (q : PathQuery)
  : option (APIResult PathResponse) :=
  match scalar_one_or_none (select_node_by_id d (path_source_node_id q)) with
  | inl e => Some (Unhandled e)
  | inr source_node =>
      match scalar_one_or_none (select_node_by_id d (path_target_node_id q)) with
      | inl e => Some (Unhandled e)
      | inr target_node =>
          match source_node, target_node with
          | None, _ => Some (HTTPException 404)
          | _, None => Some (HTTPException 404)
          | Some _, Some _ =>
              path_loop fuel d q {[path_source_node_id q]}
                [(path_source_node_id q, [path_source_node_id q], [], 0%float, 0%Z)]
          end
      end
  end.

(** [find_shortest_path] up to its [return] statement: each id is enqueued once, the source or the
    target of an edge, so the loop runs at most [1 + len(edges)] times
    (theorem [find_shortest_path_total] below). *)
Definition find_shortest_path (d : Store) (q : PathQuery)
  : option (APIResult PathResponse) :=
  find_shortest_path_fuel (S (List.length (edges d))) d q.

(** *** The response models

    [GraphResponse], [PathResponse] and [NeighborsResponse] are Pydantic
    models: the constructor validates its arguments, turning each node
    into a [NodeResponse] and each edge into an [EdgeResponse], both read
    from the attributes of the mapped row ([from_attributes=True]). *)

(** A relationship of a mapped row: loaded with its rows, or not yet. *)
Inductive Relationship : Type :=
| NotLoaded
| Loaded (rows : list Edge).

(** A [Node] instance of the session. *)
Record NodeInstance : Type := mkNodeInstance {
  instance_row : Node;
  incoming_edges : Relationship;
  outgoing_edges : Relationship
}.

(** An instance that [select(Node)] yields: the handlers give no loader
    option, so neither relationship is loaded. *)
Definition selected (n : Node) : NodeInstance :=
  mkNodeInstance n NotLoaded NotLoaded.

(** Reading a relationship.  One that is not loaded is loaded on access,
    which an [AsyncSession] cannot do from synchronous code. *)
Definition lazy_load (r : Relationship) : Exn + list Edge :=
  match r with
  | NotLoaded => inl MissingGreenlet
  | Loaded rows => inr rows
  end.

(** models/node.py: [Node.in_degree] and [Node.out_degree]. *)
Definition in_degree (n : NodeInstance) : Exn + Z :=
  match lazy_load (incoming_edges n) with
  | inl e => inl e
  | inr rows => inr (Z.of_nat (List.length rows))
  end.

Definition out_degree (n : NodeInstance) : Exn + Z :=
  match lazy_load (outgoing_edges n) with
  | inl e => inl e
  | inr rows => inr (Z.of_nat (List.length rows))
  end.

(** schemas/node.py *)
Record NodeResponse : Type := mkNodeResponse {
  response_row : Node;
  response_in_degree : Z;
  response_out_degree : Z
}.

(** [NodeResponse] from the attributes of an instance: the columns, then
    [in_degree] and [out_degree]; an attribute that raises makes the
    validation fail. *)
Definition node_response (n : NodeInstance) : Exn + NodeResponse :=
  match in_degree n, out_degree n with
  | inr i, inr o => inr (mkNodeResponse (instance_row n) i o)
  | _, _ => inl ValidationError
  end.

(** schemas/edge.py: [EdgeResponse] from the columns of an edge row;
    [weight] has [ge=0.0]. *)
Definition edge_response (e : Edge) : Exn + Edge :=
  if (0 <=? weight e)%float then inr e else inl ValidationError.

(** A field of type [List[...]]: every item is validated, and the errors
    are raised together. *)
Definition validate_list {A B} (item : A → Exn + B) (l : list A)
  : Exn + list B :=
  foldr (λ a acc,
           match item a, acc with
           | inr b, inr bs => inr (b :: bs)
           | _, _ => inl ValidationError
           end)
        (inr []) l.

Record GraphBody : Type := mkGraphBody {
  body_nodes : list NodeResponse;
  body_edges : list Edge
}.

(** [GraphResponse(nodes=..., edges=..., metadata=...)] *)
Definition graph_response (r : GraphResponse) : Exn + GraphBody :=
  match validate_list node_response (selected <$> resp_nodes r),
        validate_list edge_response (resp_edges r) with
  | inr ns, inr es => inr (mkGraphBody ns es)
  | _, _ => inl ValidationError
  end.

Record PathBody : Type := mkPathBody {
  body_path : list NodeResponse;
  body_path_edges : list Edge;
  body_length : Z;
  body_total_weight : float
}.

(** [PathResponse(path=..., edges=..., length=..., total_weight=...)] *)
Definition path_response (r : PathResponse) : Exn + PathBody :=
  match validate_list node_response (selected <$> path r),
        validate_list edge_response (path_edges r) with
  | inr ns, inr es => inr (mkPathBody ns es (length r) (total_weight r))
  | _, _ => inl ValidationError
  end.

Record NeighborsBody : Type := mkNeighborsBody {
  body_node : NodeResponse;
  body_neighbors : list NodeResponse;
  body_neighbors_edges : list Edge;
  body_count : Z
}.

(** [NeighborsResponse(node=..., neighbors=..., edges=..., count=...)] *)
Definition neighbors_response (r : NeighborsResponse) : Exn + NeighborsBody :=
  match node_response (selected (neighbors_node r)),
        validate_list node_response (selected <$> neighbors r),
        validate_list edge_response (neighbors_edges r) with
  | inr n, inr ns, inr es => inr (mkNeighborsBody n ns es (count r))
  | _, _, _ => inl ValidationError
  end.

(** A handler that has reached its [return] statement answers with the
    model, or ends with the exception of the constructor. *)
Definition returned {A B} (model : A → Exn + B) (r : APIResult A)
  : APIResult B :=
  match r with
  | Ok a => match model a with
            | inl e => Unhandled e
            | inr b => Ok b
            end
  | HTTPException code => HTTPException code
  | Unhandled e => Unhandled e
  end.

(** The three handlers as a whole. *)
Definition query_graph_response (d : Store) (q : GraphQuery)
  : option (APIResult GraphBody) :=
  returned graph_response <$> query_graph d q.

Definition find_shortest_path_response (d : Store) (q : PathQuery)
  : option (APIResult PathBody) :=
  returned path_response <$> find_shortest_path d q.

Definition get_neighbors_response (d : Store) (q : NeighborsQuery)
  : APIResult NeighborsBody :=
  returned neighbors_response (get_neighbors d q).

End GraphAPI.

(* ===================================================================== *)
(** ** Comparison definitions and sample data *)
(* ===================================================================== *)

(** Connected components the way the comment in [get_graph_stats] says a
    proper implementation would count them: union-find over the edge
    set.  A partition of the node ids in which every edge merges the
    classes of its two endpoints. *)
Definition union_classes (classes : list (gset N)) (a b : N) : list (gset N) :=
  let touching := filter (λ s, a ∈ s ∨ b ∈ s) classes in
  let others := filter (λ s, ¬ (a ∈ s ∨ b ∈ s)) classes in
  match touching with
  | [] => others
  | _ => ⋃ touching :: others
  end.

Definition component_count (d : Store) : Z :=
  Z.of_nat
    (List.length
       (fold_left (λ classes e,
                     union_classes classes (source_node_id e) (target_node_id e))
                  (edges d)
                  ((λ n, {[node_id n]} : gset N) <$> nodes d))).

(** What [fetch_with_rate_limit] ends with when the answer is not a 429. *)
Definition outcome {Body} (a : BaseCrawler.Answer Body) : Exn + Body :=
  match a with
  | BaseCrawler.Json body => inr body
  | BaseCrawler.HttpError st => inl (ClientResponseError st)
  | BaseCrawler.Failure e => inl e
  end.

(** The calls of one refused attempt: acquire, request, cool down. *)
Definition refused : list BaseCrawler.Call :=
  [BaseCrawler.Acquire; BaseCrawler.Get; BaseCrawler.Sleep 60].

Definition refusals (n : nat) : list BaseCrawler.Call :=
  concat (replicate n refused).

(** The ids that can ever be in [visited] of [find_shortest_path]: the source and the targets of
    the stored edges. *)
Definition reachable_ids (d : Store) (src : N) : gset N :=
  {[src]} ∪ list_to_set (target_node_id <$> edges d).

(** The exceptions of the store: [scalar_one] and [scalar_one_or_none]
    raise nothing else. *)
Definition store_error (e : Exn) : Prop :=
  e = NoResultFound ∨ e = MultipleResultsFound.

(** The exceptions of a fetch: what [aiohttp] raises for a response with
    an error status and for a failed connection or an unreadable body. *)
Definition transport_failure (e : Exn) : Prop :=
  match e with
  | ClientResponseError _ | ClientError _ => True
  | _ => False
  end.

(** The exceptions that leave a traversal: those of the store, and the
    TypeError of a score that is not a number. *)
Definition traversal_error (e : Exn) : Prop :=
  store_error e ∨ ∃ score, RedditCrawler.score_weight score = inl e.

(** A coroutine of a crawler that leaves the job table, the clock and the
    source name as they are and raises nothing but errors of a
    traversal. *)
Definition keeps_jobs {A} (m : BaseCrawler.M A) : Prop :=
  ∀ c, jobs (BaseCrawler.db (m c).2) = jobs (BaseCrawler.db c)
       ∧ BaseCrawler.utcnow (m c).2 = BaseCrawler.utcnow c
       ∧ BaseCrawler.source_name (m c).2 = BaseCrawler.source_name c
       ∧ ∀ e, (m c).1 = inl e → traversal_error e.

(** The crawler of [run_reddit_crawler] when [crawl] enters its traversal:
    the job is created and marked as running. *)
Definition entered (session : Store) (now : datetime) : BaseCrawler.Crawler :=
  (BaseCrawler.update_crawl_job (next_uuid session) RUNNING None None None
     (BaseCrawler.create_crawl_job
        (BaseCrawler.init session RedditCrawler.get_source_name now)).2).2.

(** The two ways in which a run of [run_reddit_crawler] ends, as the caller
    and the job row [job] show them. *)
Definition completed_run (r : (Exn + UUID) * BaseCrawler.Crawler)
    (job : UUID) (now : datetime) : Prop :=
  ∃ row, r.1 = inr job
         ∧ jobs (BaseCrawler.db r.2) !! job = Some row
         ∧ status row = COMPLETED
         ∧ error_message row = None
         ∧ completed_at row = Some now.

Definition failed_run (r : (Exn + UUID) * BaseCrawler.Crawler)
    (job : UUID) (now : datetime) (e : Exn) : Prop :=
  ∃ row, r.1 = inl e
         ∧ jobs (BaseCrawler.db r.2) !! job = Some row
         ∧ status row = FAILED
         ∧ error_message row = Some (str_exn e)
         ∧ completed_at row = Some now.

(** A relation between the crawler before and after a coroutine that
    every coroutine of a traversal keeps. *)
Definition preserves (R : relation BaseCrawler.Crawler) {A}
    (m : BaseCrawler.M A) : Prop :=
  ∀ c, R c (m c).2.

(** The node rows after a coroutine: rows that were there before, or rows
    of the crawler's own source. *)
Definition own_source : relation BaseCrawler.Crawler :=
  λ c c', BaseCrawler.source_name c' = BaseCrawler.source_name c
          ∧ ∀ n, n ∈ nodes (BaseCrawler.db c') →
                 n ∈ nodes (BaseCrawler.db c)
                 ∨ source n = BaseCrawler.source_name c.

(** The rows after a coroutine and what it has discovered: no row is
    removed, and each row added is matched by a new key in
    [discovered_nodes], resp. [discovered_edges]. *)
Definition accounted : relation BaseCrawler.Crawler :=
  λ c c',
    (List.length (nodes (BaseCrawler.db c))
     ≤ List.length (nodes (BaseCrawler.db c'))
     ∧ List.length (nodes (BaseCrawler.db c'))
       + size (BaseCrawler.discovered_nodes c)
       ≤ List.length (nodes (BaseCrawler.db c))
         + size (BaseCrawler.discovered_nodes c'))
    ∧ (List.length (edges (BaseCrawler.db c))
       ≤ List.length (edges (BaseCrawler.db c'))
       ∧ List.length (edges (BaseCrawler.db c'))
         + size (BaseCrawler.discovered_edges c)
         ≤ List.length (edges (BaseCrawler.db c))
           + size (BaseCrawler.discovered_edges c')).

(** [len(self.discovered_nodes)], and by how much a traversal of the
    given depth can exceed [max_entities]: the subreddits that
    [_crawl_user] adds for the last user. *)
Definition entities (c : BaseCrawler.Crawler) : Z :=
  Z.of_nat (size (BaseCrawler.discovered_nodes c)).

Definition overshoot (depth : Z) : Z :=
  if bool_decide (3 ≤ depth)%Z then 5%Z else 0%Z.

(** [es] is a walk along edges that starts at [start]. *)
Fixpoint is_walk (start : N) (es : list Edge) : Prop :=
  match es with
  | [] => True
  | e :: es' => source_node_id e = start ∧ is_walk (target_node_id e) es'
  end.

(** The ids that a walk passes, and the sum of its weights, added from
    the left to [0.0]. *)
Definition walk_ids (start : N) (es : list Edge) : list N :=
  start :: (target_node_id <$> es).

Definition walk_weight (es : list Edge) : float :=
  fold_left (λ w e, (w + weight e)%float) es 0%float.

(** What holds of every entry of the queue of [find_shortest_path]: its
    edges are a walk along stored edges from the source to its node, its
    ids are the ids on that walk, all different and all visited, its
    weight is the sum of the weights and its depth the number of edges,
    within [max_depth]. *)
Definition path_entry (d : Store) (q : GraphAPI.PathQuery) (visited : gset N)
    (entry : GraphAPI.Entry) : Prop :=
  let '(current_id, ids, es, w, dep) := entry in
  is_walk (GraphAPI.path_source_node_id q) es
  ∧ (∀ e, e ∈ es → e ∈ edges d)
  ∧ ids = walk_ids (GraphAPI.path_source_node_id q) es
  ∧ last ids = Some current_id
  ∧ NoDup ids
  ∧ (∀ i, i ∈ ids → i ∈ visited)
  ∧ w = walk_weight es
  ∧ dep = Z.of_nat (List.length es)
  ∧ (dep ≤ GraphAPI.max_depth q)%Z.

(** [es] is a walk along stored edges from [src] to [v]. *)
Definition walk_to (d : Store) (src v : N) (es : list Edge) : Prop :=
  is_walk src es ∧ (∀ e, e ∈ es → e ∈ edges d)
  ∧ last (walk_ids src es) = Some v.

Definition entry_id (entry : GraphAPI.Entry) : N := entry.1.1.1.1.
Definition entry_depth (entry : GraphAPI.Entry) : Z := entry.2.

(** A node that the loop of [find_shortest_path] has taken from the
    queue at depth [k] and left behind: it is not the target, and, unless
    [k] has reached [max_depth], the targets of its edges have depths of
    their own, [k + 1] at most. *)
Definition expanded (d : Store) (q : GraphAPI.PathQuery) (lvl : gmap N Z)
    (v : N) (k : Z) : Prop :=
  v ≠ GraphAPI.path_target_node_id q
  ∧ ((k < GraphAPI.max_depth q)%Z →
     ∀ e, e ∈ edges d → source_node_id e = v →
          ∃ k', lvl !! target_node_id e = Some k' ∧ (k' ≤ k + 1)%Z).

(** The breadth-first invariant of [find_shortest_path].  [lvl] records
    the depth at which each visited id was put into the queue; the queue
    is [q1 ++ q2], with the entries of depth [D] before those of depth
    [D + 1]; a visited id is in the queue or left behind; and no walk
    from the source to an id is shorter than the depth of the id. *)
Definition bfs_invariant (d : Store) (q : GraphAPI.PathQuery) (D : Z)
    (lvl : gmap N Z) (visited : gset N) (q1 q2 : list GraphAPI.Entry) : Prop :=
  (∀ v, v ∈ visited ↔ is_Some (lvl !! v))
  ∧ lvl !! GraphAPI.path_source_node_id q = Some 0%Z
  ∧ Forall (λ entry, path_entry d q visited entry
                     ∧ lvl !! entry_id entry = Some (entry_depth entry)
                     ∧ entry_depth entry = D) q1
  ∧ Forall (λ entry, path_entry d q visited entry
                     ∧ lvl !! entry_id entry = Some (entry_depth entry)
                     ∧ entry_depth entry = (D + 1)%Z) q2
  ∧ (∀ v k, lvl !! v = Some k →
            (∃ entry, entry ∈ q1 ++ q2 ∧ entry_id entry = v)
            ∨ ((k ≤ D)%Z ∧ expanded d q lvl v k))
  ∧ (∀ v k, lvl !! v = Some k →
            (k ≤ D + 1)%Z
            ∧ ∀ es, walk_to d (GraphAPI.path_source_node_id q) v es →
                    (k ≤ Z.of_nat (List.length es))%Z).

(** What the loop of [find_shortest_path] can end with: 404, and then
    every walk from the source to the target has more than [max_depth]
    edges; or the answer built from an entry for the target, and then no
    walk from the source to the target has fewer edges than the entry. *)
Definition bfs_answer (d : Store) (q : GraphAPI.PathQuery)
    (r : APIResult GraphAPI.PathResponse) : Prop :=
  (r = HTTPException 404
   ∧ ∀ es, walk_to d (GraphAPI.path_source_node_id q)
                   (GraphAPI.path_target_node_id q) es →
           (GraphAPI.max_depth q < Z.of_nat (List.length es))%Z)
  ∨ (∃ es w,
       r = GraphAPI.found d (walk_ids (GraphAPI.path_source_node_id q) es) es w
       ∧ walk_to d (GraphAPI.path_source_node_id q)
                 (GraphAPI.path_target_node_id q) es
       ∧ ∀ es', walk_to d (GraphAPI.path_source_node_id q)
                        (GraphAPI.path_target_node_id q) es' →
                List.length es ≤ List.length es').

(** The sum of the counts of a [group by]. *)
Definition total_count (counts : gmap string Z) : Z :=
  map_fold (λ _ n acc, (n + acc)%Z) 0%Z counts.


(** Primary keys are unique and every edge joins two stored nodes (the
    constraints of the [nodes] and [edges] tables). *)
Definition consistent (d : Store) : Prop :=
  NoDup (node_id <$> nodes d)
  ∧ Forall (λ e, source_node_id e ∈ node_id <$> nodes d
                 ∧ target_node_id e ∈ node_id <$> nodes d) (edges d).

#[global] Instance consistent_dec (d : Store) : Decision (consistent d).
Proof. unfold consistent. apply _. Defined.

(** A crawler over consistent tables whose supply of ids is above the ids
    of the node rows, and in whose node table the ids of [known] are. *)
Definition sound (c : BaseCrawler.Crawler) : Prop :=
  consistent (BaseCrawler.db c)
  ∧ Forall (λ n, (node_id n < next_uuid (BaseCrawler.db c))%N)
           (nodes (BaseCrawler.db c)).

Definition sound_with (known : gset N) (c : BaseCrawler.Crawler) : Prop :=
  sound c ∧ ∀ i, i ∈ known → i ∈ node_id <$> nodes (BaseCrawler.db c).

(** From a state that satisfies [P], the coroutine [m] returns in a state
    that satisfies [Q] of the value, or raises in a state that satisfies
    [E]. *)
Definition triple {A} (P : BaseCrawler.Crawler → Prop) (m : BaseCrawler.M A)
    (Q : A → BaseCrawler.Crawler → Prop) (E : BaseCrawler.Crawler → Prop)
  : Prop :=
  ∀ c, P c → match m c with
             | (inr a, c') => Q a c'
             | (inl _, c') => E c'
             end.

(** What the loop of [query_graph] keeps true of its variables: the
    queued ids are stored, every visited id is either queued or already
    among the results, and every edge of the result touches a node of
    the result. *)
Definition walk_invariant (d : Store) (w : GraphAPI.Walk) : Prop :=
  (∀ i dep, (i, dep) ∈ GraphAPI.queue w → i ∈ node_id <$> nodes d)
  ∧ (List.length (GraphAPI.nodes_result w) + List.length (GraphAPI.queue w)
     = size (GraphAPI.visited_nodes w))%nat
  ∧ (∀ e, e ∈ GraphAPI.edges_result w →
          source_node_id e ∈ node_id <$> GraphAPI.nodes_result w
          ∨ target_node_id e ∈ node_id <$> GraphAPI.nodes_result w).

(** What the loop of [query_graph] keeps true on any store: each id is
    taken at most once, as a result or in the queue, and has been visited;
    each id other than the start was reached over an edge of the result;
    each edge is taken at most once; and results are stored rows. *)
Definition walk_distinct (d : Store) (q : GraphAPI.GraphQuery)
    (w : GraphAPI.Walk) : Prop :=
  let ids := (node_id <$> GraphAPI.nodes_result w) ++ (fst <$> GraphAPI.queue w) in
  NoDup ids
  ∧ (∀ i, i ∈ ids →
          i ∈ GraphAPI.visited_nodes w
          ∧ (i = GraphAPI.start_node_id q
             ∨ ∃ e, e ∈ GraphAPI.edges_result w
                    ∧ (source_node_id e = i ∨ target_node_id e = i)))
  ∧ NoDup (edge_id <$> GraphAPI.edges_result w)
  ∧ (∀ e, e ∈ GraphAPI.edges_result w →
          edge_id e ∈ GraphAPI.visited_edges w ∧ e ∈ edges d)
  ∧ (∀ n, n ∈ GraphAPI.nodes_result w → n ∈ nodes d).

(** Two ids joined by an edge of [es], in either direction; and the ids
    within [k] such hops of [start]. *)
Definition linked (es : list Edge) (a b : N) : Prop :=
  ∃ e, e ∈ es ∧ (source_node_id e = a ∧ target_node_id e = b
                 ∨ source_node_id e = b ∧ target_node_id e = a).

Fixpoint within (es : list Edge) (start : N) (k : nat) (v : N) : Prop :=
  match k with
  | O => v = start
  | S k' => within es start k' v ∨ ∃ u, within es start k' u ∧ linked es u v
  end.

(** What the loop of [query_graph] keeps true of the depths: a queued id
    is within its depth of the start node, over edges of the result, its
    depth is at most [depth], and the nodes of the result are within
    [depth]. *)
Definition walk_near (q : GraphAPI.GraphQuery) (w : GraphAPI.Walk) : Prop :=
  (∀ i dep, (i, dep) ∈ GraphAPI.queue w →
            (0 ≤ dep ≤ GraphAPI.depth q)%Z
            ∧ within (GraphAPI.edges_result w) (GraphAPI.start_node_id q)
                     (Z.to_nat dep) i)
  ∧ (∀ n, n ∈ GraphAPI.nodes_result w →
          within (GraphAPI.edges_result w) (GraphAPI.start_node_id q)
                 (Z.to_nat (GraphAPI.depth q)) (node_id n)).

Module Samples.
Import BaseCrawler RedditCrawler.

Definition node (i : N) (kind name : string) : Node :=
  mkNode i kind name "reddit" name ∅.

Definition edge (i s t : N) (w : float) : Edge :=
  mkEdge i s t "posts_in" w ∅.

(** Two nodes joined by one edge. *)
Definition linked_pair : Store :=
  mkStore [node 1 "user" "alice"; node 2 "subreddit" "rust"]
          [edge 3 1 2 1] ∅ 4.

(** u/alice and r/rust. *)
Definition alice : Node := node 1 "user" "alice".
Definition rust : Node := node 2 "subreddit" "rust".

(** Two nodes, no edge yet. *)
Definition two_nodes : Store := mkStore [alice; rust] [] ∅ 3.

(** A crawl run of the Reddit crawler over a store; the clock reads 100. *)
Definition run (d : Store) : Crawler := init d "reddit" 100.

(** A start node with two outgoing edges. *)
Definition fan : Store :=
  mkStore [node 1 "subreddit" "rust"; node 2 "user" "alice";
           node 3 "user" "bob"]
          [edge 4 2 1 1; edge 5 3 1 1; edge 6 1 2 1; edge 7 1 3 1] ∅ 8.

(** A -> B -> C -> D. *)
Definition chain : Store :=
  mkStore [node 1 "user" "a"; node 2 "user" "b"; node 3 "user" "c";
           node 4 "user" "d"]
          [edge 5 1 2 0.5; edge 6 2 3 0.25; edge 7 3 4 0.125] ∅ 8.

(** One running job, one completed job. *)
Definition job_table : Store :=
  mkStore [] []
    {[ 1%N := mkCrawlJob 1 "reddit" RUNNING 0 0 None (Some 10%N) None;
       2%N := mkCrawlJob 2 "reddit" COMPLETED 3 2 None (Some 10%N) (Some 20%N) ]}
    3.

(** The remote end answers 429 twice, then 200. *)
Definition busy_twice : nat → Answer string :=
  λ attempt, if (attempt <? 2)%nat then HttpError 429 else Json "body".

(** r/rust exists and has one post, by alice, who also posts in r/coq
    and r/ocaml. *)
Definition small_reddit : Reddit :=
  mkReddit
    (λ name, if bool_decide (name = "rust")
             then inr {["subscribers" := JInt 5]}
             else inl (ClientResponseError 404))
    (λ name, if bool_decide (name = "rust")
             then inr [mkPost (Some "alice") (Some (JInt 50)) (Some "hello")
                              (Some "p1") None (Some "rust")]
             else inr [])
    (λ name, if bool_decide (name = "alice")
             then inr [mkPost (Some "alice") None None None None (Some "coq");
                       mkPost (Some "alice") None None None None (Some "ocaml")]
             else inr []).

(** r/rust has one post whose score is [null]. *)
Definition null_score_reddit : Reddit :=
  mkReddit
    (λ name, inr {["subscribers" := JInt 5]})
    (λ name, inr [mkPost (Some "alice") (Some JNull) (Some "hello")
                         (Some "p1") None (Some "rust")])
    (λ name, inr []).

(** r/rust exists, but fetching its top posts fails. *)
Definition flaky_reddit : Reddit :=
  mkReddit
    (λ name, inr {["subscribers" := JInt 5]})
    (λ name, inl (ClientError "Cannot connect to host www.reddit.com"))
    (λ name, inr []).

Definition empty_store : Store := mkStore [] [] ∅ 1.

(** A node table that already holds r/rust twice. *)
Definition duplicated : Store :=
  mkStore [node 1 "subreddit" "rust"; node 2 "subreddit" "rust"] [] ∅ 3.


End Samples.

(** An id differs from every id visited so far. *)
Ltac not_visited :=
  rewrite ?not_elem_of_union, ?not_elem_of_singleton; repeat split; congruence.


(* ===================================================================== *)
(** * Properties *)
(* ===================================================================== *)

(** ** Job cancellation *)

Section Cancellation.
Import CrawlAPI.





(** [update_crawl_job] does not look at the status that the row has. *)
Lemma update_crawl_job_overwrites_status c job st entities edges_n err row :
  jobs (BaseCrawler.db c) !! job = Some row →
  status <$> jobs (BaseCrawler.db
                     (BaseCrawler.update_crawl_job job st entities edges_n err
                        c).2) !! job
  = Some st.
Proof.
  intros Hrow. unfold BaseCrawler.update_crawl_job, BaseCrawler.bind,
    BaseCrawler.get, BaseCrawler.put. simpl.
  by rewrite lookup_alter_eq, Hrow.
Qed.




End Cancellation.

(** ** Rate-limited fetch *)

Section Fetch.
Import BaseCrawler.
Context {Body : Type}.
Implicit Types (server : nat → Answer Body) (trace : list Call).

(** After [n] answers 429 in a row the call has slept [n] times and
    ends with the outcome of the next answer. *)
Lemma fetch_after_refusals server (n : nat) : ∀ fuel first trace,
  (∀ i, (i < n)%nat → server (first + i)%nat = HttpError 429) →
  server (first + n)%nat ≠ HttpError 429 →
  (n < fuel)%nat →
  fetch_with_rate_limit fuel server first trace
  = Some (outcome (server (first + n)%nat),
          trace ++ refusals n ++ [Acquire; Get]).
Proof.
  induction n as [|n IH]; intros fuel first trace Hbusy Hlast Hfuel.
  - destruct fuel as [|fuel]; [lia|]. simpl.
    rewrite Nat.add_0_r in *.
    destruct (server first) as [body|st|e] eqn:Hs; simpl; [done| |done].
    case_bool_decide; [congruence|done].
  - destruct fuel as [|fuel]; [lia|]. simpl.
    assert (H0 : server first = HttpError 429).
    { specialize (Hbusy 0%nat ltac:(lia)). by rewrite Nat.add_0_r in Hbusy. }
    rewrite H0. rewrite bool_decide_eq_true_2 by done.
    rewrite (IH fuel (S first)).
    + replace (S first + n)%nat with (first + S n)%nat by lia.
      f_equal. f_equal. unfold refusals, refused. simpl.
      rewrite <- !app_assoc. reflexivity.
    + intros i Hi. replace (S first + i)%nat with (first + S i)%nat by lia.
      apply Hbusy. lia.
    + by replace (S first + n)%nat with (first + S n)%nat by lia.
    + lia.
Qed.

(** While the answers are 429 the call keeps retrying: however many
    calls are unfolded, none of them has returned and none has given up
    (it is the interpreter that ends such a run, with RecursionError,
    when the calls are nested too deep). *)
Lemma fetch_keeps_retrying server : ∀ fuel first trace,
  (∀ i, server i = HttpError 429) →
  fetch_with_rate_limit fuel server first trace = None.
Proof.
  induction fuel as [|fuel IH]; intros first trace Hbusy; [done|].
  simpl. rewrite Hbusy. rewrite bool_decide_eq_true_2 by done. by apply IH.
Qed.

(** C4 (amended). Each rate-limit answer is followed by one sleep of the
    fixed 60 s cool-down and another attempt at the same request, and
    this repeats for as long as the answers are 429: after [n] such
    answers in a row the call has slept [n] times and sent [n + 1]
    requests, and it ends with the outcome of the first answer that is
    not a 429. *)
Theorem fetch_retries_every_429 server (n fuel : nat) :
  (∀ i, (i < n)%nat → server i = HttpError 429) →
  server n ≠ HttpError 429 →
  (n < fuel)%nat →
  fetch_with_rate_limit fuel server 0 []
  = Some (outcome (server n), refusals n ++ [Acquire; Get]).
Proof.
  intros Hbusy Hlast Hfuel.
  by rewrite (fetch_after_refusals server n fuel 0 []).
Qed.

End Fetch.

Section FetchExamples.
Import BaseCrawler.

(** The second 429 in a row is answered by a second sleep and a third
    request, whose body is returned: it is not raised to the caller. *)
Lemma fetch_second_429_retried :
  fetch_with_rate_limit 3 Samples.busy_twice 0 []
  = Some (inr "body",
          [Acquire; Get; Sleep 60; Acquire; Get; Sleep 60; Acquire; Get])
  ∧ fetch_with_rate_limit 3 Samples.busy_twice 0 []
    ≠ Some (inl (ClientResponseError 429),
            [Acquire; Get; Sleep 60; Acquire; Get]).
Proof. split; [reflexivity | discriminate]. Qed.

Lemma fetch_retries_every_429_witness :
  fetch_with_rate_limit 5 Samples.busy_twice 0 []
  = Some (outcome (Samples.busy_twice 2), refusals 2 ++ [Acquire; Get]).
Proof.
  apply (fetch_retries_every_429 Samples.busy_twice 2 5).
  - intros [|[|i]] Hi; [reflexivity | reflexivity | lia].
  - discriminate.
  - lia.
Defined.

End FetchExamples.

(** ** Graph statistics *)

Section Stats.
Import GraphAPI.

(** Whatever the edges are, the reported number of connected components
    is the number of nodes. *)
Lemma connected_components_is_node_count (d : Store) :
  connected_components (get_graph_stats d) = Z.of_nat (List.length (nodes d))
  ∧ connected_components (get_graph_stats d) = total_nodes (get_graph_stats d).
Proof. split; reflexivity. Qed.

(** C9. On two nodes joined by one edge the statistics report 2
    connected components, the node count, where union-find over the
    edge set counts 1. *)
Theorem connected_components_linked_pair :
  connected_components (get_graph_stats Samples.linked_pair) = 2%Z
  ∧ total_nodes (get_graph_stats Samples.linked_pair) = 2%Z
  ∧ total_edges (get_graph_stats Samples.linked_pair) = 1%Z
  ∧ component_count Samples.linked_pair = 1%Z.
Proof. repeat split; vm_compute; reflexivity. Qed.

(** GraphStats on an empty graph: no division error, degree and density
    are 0. *)
Lemma get_graph_stats_empty :
  average_degree (get_graph_stats Samples.empty_store) = 0%float
  ∧ density (get_graph_stats Samples.empty_store) = 0%float.
Proof. split; vm_compute; reflexivity. Qed.

End Stats.
(** ** The response models *)

Section Responses.
Import GraphAPI.

(** No node that a handler has selected can be turned into a
    [NodeResponse]: reading [in_degree] starts a lazy load. *)
Lemma node_response_raises (n : Node) :
  node_response (selected n) = inl ValidationError.
Proof. reflexivity. Qed.

Lemma validate_nodes_raises (ns : list Node) :
  ns ≠ [] →
  validate_list node_response (selected <$> ns) = inl ValidationError.
Proof. destruct ns as [|n ns]; [done|]. intros _. reflexivity. Qed.

Lemma graph_response_raises (r : GraphResponse) :
  resp_nodes r ≠ [] → graph_response r = inl ValidationError.
Proof.
  intros H. unfold graph_response. by rewrite validate_nodes_raises.
Qed.

Lemma path_response_raises (r : PathResponse) :
  path r ≠ [] → path_response r = inl ValidationError.
Proof.
  intros H. unfold path_response. by rewrite validate_nodes_raises.
Qed.

Lemma neighbors_response_raises (r : NeighborsResponse) :
  neighbors_response r = inl ValidationError.
Proof. reflexivity. Qed.

(** The one response with nodes that can be built is the one without
    any. *)
Lemma graph_response_no_nodes :
  graph_response (mkGraphResponse [] []) = inr (mkGraphBody [] []).
Proof. reflexivity. Qed.

(** [get_neighbors] never answers with neighbours: where it comes to its
    [return] statement, the constructor raises at the node itself. *)
Lemma get_neighbors_response_raises (d : Store) (q : NeighborsQuery)
    (r : NeighborsResponse) :
  get_neighbors d q = Ok r →
  get_neighbors_response d q = Unhandled ValidationError.
Proof. unfold get_neighbors_response. by intros ->. Qed.

(** [query_graph] answers only with a graph without nodes. *)
Lemma query_graph_response_ok (d : Store) (q : GraphQuery) (b : GraphBody) :
  query_graph_response d q = Some (Ok b) → body_nodes b = [].
Proof.
  unfold query_graph_response.
  destruct (query_graph d q) as [[r| |]|]; simpl; try done.
  destruct (resp_nodes r) as [|n ns] eqn:Hnodes.
  - unfold graph_response. rewrite Hnodes. simpl.
    destruct (validate_list edge_response _); [done|]. by intros [= <-].
  - rewrite graph_response_raises; [done|]. by rewrite Hnodes.
Qed.

End Responses.

(** ** Selecting rows by primary key *)

Section Rows.
Context {A : Type} (P : A → Prop) `{!∀ x, Decision (P x)}.

Lemma filter_none (l : list A) :
  (∀ x, x ∈ l → ¬ P x) → filter P l = [].
Proof.
  induction l as [|x l IH]; intros Hall; [done|].
  rewrite filter_cons_False by (apply Hall; left).
  apply IH. intros y Hy. apply Hall. by right.
Qed.

Lemma filter_all (l : list A) :
  (∀ x, x ∈ l → P x) → filter P l = l.
Proof.
  induction l as [|x l IH]; intros Hall; [done|].
  rewrite filter_cons_True by (apply Hall; left).
  f_equal. apply IH. intros y Hy. apply Hall. by right.
Qed.

Lemma filter_permutation_singleton (l k : list A) (x : A) :
  l ≡ₚ k → filter P k = [x] → filter P l = [x].
Proof.
  intros Hp Hk. apply Permutation_singleton_r. by rewrite Hp, Hk.
Qed.

End Rows.

Section Keys.
Context {A : Type} (f : A → N).

Lemma filter_key_absent (l : list A) (i : N) :
  i ∉ f <$> l → filter (λ y, f y = i) l = [].
Proof.
  intros Hi. apply filter_none. intros y Hy Heq. apply Hi.
  rewrite <- Heq. by apply list_elem_of_fmap_2.
Qed.

Lemma filter_key_unique (l : list A) (x : A) :
  NoDup (f <$> l) → x ∈ l → filter (λ y, f y = f x) l = [x].
Proof.
  induction l as [|a l IH]; intros Hnd Hin; [by apply elem_of_nil in Hin|].
  rewrite fmap_cons in Hnd. apply NoDup_cons in Hnd as [Hni Hnd].
  apply elem_of_cons in Hin as [->|Hin].
  - rewrite filter_cons_True by done. f_equal. by apply filter_key_absent.
  - rewrite filter_cons_False; [by apply IH|].
    intros Heq. apply Hni. rewrite Heq. by apply list_elem_of_fmap_2.
Qed.

(** With unique keys a select by key has at most one row. *)
Lemma filter_key_at_most_one (l : list A) (i : N) :
  NoDup (f <$> l) →
  ((i ∉ f <$> l) ∧ filter (λ y, f y = i) l = [])
  ∨ (∃ x, x ∈ l ∧ f x = i ∧ filter (λ y, f y = i) l = [x]).
Proof.
  intros Hnd. destruct (decide (i ∈ f <$> l)) as [Hi|Hi].
  - right. apply list_elem_of_fmap in Hi as (x & -> & Hx).
    exists x. split_and!; [done..|]. by apply filter_key_unique.
  - left. split; [done|]. by apply filter_key_absent.
Qed.

End Keys.

(** ** Shortest paths *)

Section ShortestPath.
Import GraphAPI.

Lemma select_node_by_id_unique (d : Store) (n : Node) :
  NoDup (node_id <$> nodes d) → n ∈ nodes d →
  select_node_by_id d (node_id n) = [n].
Proof. apply (filter_key_unique node_id). Qed.

Lemma select_node_by_id_absent (d : Store) (i : N) :
  i ∉ node_id <$> nodes d → select_node_by_id d i = [].
Proof. apply (filter_key_absent node_id). Qed.

Lemma select_node_by_id_elem (d : Store) (i : N) (n : Node) :
  select_node_by_id d i = [n] → n ∈ nodes d ∧ node_id n = i.
Proof.
  intros H. assert (Hn : n ∈ select_node_by_id d i) by (rewrite H; left).
  apply list_elem_of_filter in Hn. tauto.
Qed.

(** The dict comprehension [{n.id: n for n in rows}] keeps the last row
    of each id. *)
Lemma path_nodes_untouched (rows : list Node) (m : gmap N Node) (i : N) :
  i ∉ node_id <$> rows →
  fold_left (λ m n, <[node_id n := n]> m) rows m !! i = m !! i.
Proof.
  revert m. induction rows as [|x rows IH]; intros m Hi; [done|].
  rewrite fmap_cons, not_elem_of_cons in Hi. destruct Hi as [Hne Hi].
  simpl. rewrite IH by done. by rewrite lookup_insert_ne.
Qed.

Lemma path_nodes_lookup (P : Node → Prop) `{!∀ x, Decision (P x)}
    (l : list Node) (m : gmap N Node) (n : Node) :
  NoDup (node_id <$> l) → n ∈ l → P n →
  fold_left (λ m n, <[node_id n := n]> m) (filter P l) m !! node_id n = Some n.
Proof.
  revert m. induction l as [|x l IH]; intros m Hnd Hin HP;
    [by apply elem_of_nil in Hin|].
  rewrite fmap_cons in Hnd. apply NoDup_cons in Hnd as [Hni Hnd].
  apply elem_of_cons in Hin as [->|Hin].
  - rewrite filter_cons_True by done. simpl.
    rewrite path_nodes_untouched; [by rewrite lookup_insert_eq|].
    intros Hx. apply Hni. apply list_elem_of_fmap in Hx as (y & -> & Hy).
    apply list_elem_of_filter in Hy as [_ Hy]. by apply list_elem_of_fmap_2.
  - rewrite filter_cons. destruct (decide (P x)); simpl; by apply IH.
Qed.

Lemma ordered_nodes_lookup (d : Store) (ids : list N) (ns : list Node) :
  NoDup (node_id <$> nodes d) →
  (∀ n, n ∈ ns → n ∈ nodes d ∧ node_id n ∈ ids) →
  foldr (λ i acc,
           match acc,
                 fold_left (λ (m : gmap N Node) n, <[node_id n := n]> m)
                   (filter (λ n, node_id n ∈ ids) (nodes d)) ∅ !! i with
           | inl e, _ => inl e
           | inr _, None => inl KeyError
           | inr ns, Some n => inr (n :: ns)
           end)
        (inr []) (node_id <$> ns) = inr ns.
Proof.
  intros Hnd Hin. induction ns as [|n ns IH]; [done|].
  rewrite fmap_cons. simpl. rewrite IH.
  - rewrite (path_nodes_lookup (λ n, node_id n ∈ ids)); [done|done|..];
      apply Hin; left.
  - intros y Hy. apply Hin. by right.
Qed.

Lemma ordered_nodes_unique (d : Store) (ns : list Node) :
  NoDup (node_id <$> nodes d) → (∀ n, n ∈ ns → n ∈ nodes d) →
  ordered_nodes d (node_id <$> ns) = inr ns.
Proof.
  intros Hnd Hin. apply ordered_nodes_lookup; [done|].
  intros n Hn. split; [by apply Hin|by apply list_elem_of_fmap_2].
Qed.

(** One iteration of the loop of [find_shortest_path]. *)
Lemma path_loop_found fuel d q visited ids es w dep rest :
  path_loop (S fuel) d q visited
            ((path_target_node_id q, ids, es, w, dep) :: rest)
  = Some (found d ids es w).
Proof. simpl. by rewrite bool_decide_eq_true_2. Qed.

Lemma path_loop_too_deep fuel d q visited current_id ids es w dep rest :
  current_id ≠ path_target_node_id q → (max_depth q ≤ dep)%Z →
  path_loop (S fuel) d q visited ((current_id, ids, es, w, dep) :: rest)
  = path_loop fuel d q visited rest.
Proof.
  intros Hne Hle. simpl.
  by rewrite bool_decide_eq_false_2, bool_decide_eq_true_2.
Qed.

Lemma path_loop_expand fuel d q visited current_id ids es w dep rest :
  current_id ≠ path_target_node_id q → (dep < max_depth q)%Z →
  path_loop (S fuel) d q visited ((current_id, ids, es, w, dep) :: rest)
  = path_loop fuel d q
      (fold_left (path_step ids es w dep)
         (filter (λ e, source_node_id e = current_id) (edges d))
         (visited, rest)).1
      (fold_left (path_step ids es w dep)
         (filter (λ e, source_node_id e = current_id) (edges d))
         (visited, rest)).2.
Proof.
  intros Hne Hlt. simpl.
  rewrite bool_decide_eq_false_2 by done.
  rewrite bool_decide_eq_false_2 by lia.
  by destruct (fold_left _ _ _).
Qed.

Lemma path_step_fresh ids es w dep visited queue edge :
  target_node_id edge ∉ visited →
  path_step ids es w dep (visited, queue) edge
  = ({[target_node_id edge]} ∪ visited,
     queue ++ [(target_node_id edge, ids ++ [target_node_id edge],
                es ++ [edge], (w + weight edge)%float, (dep + 1)%Z)]).
Proof. intros H. unfold path_step. simpl. by rewrite bool_decide_eq_false_2. Qed.

(** The search for a path from a stored node to itself comes to the
    [return] statement with the node alone, no edges, length 0 and total
    weight 0. *)
Lemma path_to_itself_found (d : Store) (n : UUID) (node : Node)
    (depth_limit : Z) :
  select_node_by_id d n = [node] →
  find_shortest_path d (mkPathQuery n n depth_limit)
  = Some (Ok (mkPathResponse [node] [] 0 0)).
Proof.
  intros Hsel. destruct (select_node_by_id_elem _ _ _ Hsel) as [Hin Hid].
  unfold find_shortest_path, find_shortest_path_fuel. simpl.
  rewrite Hsel. simpl. rewrite bool_decide_eq_true_2 by done.
  unfold found, ordered_nodes.
  rewrite (list_filter_iff _ (λ x, node_id x = n))
    by (intros x; apply list_elem_of_singleton).
  fold (select_node_by_id d n). rewrite Hsel. simpl.
  rewrite Hid, lookup_insert_eq. do 2 f_equal.
  rewrite filter_none; [done|]. intros e _. apply not_elem_of_nil.
Qed.

(** C10. A stored node asked for the path to itself: the search comes to
    [return PathResponse(path=[node], edges=[], length=0,
    total_weight=0.0)], the answer that is claimed, but the constructor
    raises when it reads the degrees of the node, so the request ends
    with an unhandled exception and no path is returned. *)
Theorem find_shortest_path_to_itself (d : Store) (n : UUID) (node : Node)
    (depth_limit : Z) :
  select_node_by_id d n = [node] →
  find_shortest_path d (mkPathQuery n n depth_limit)
  = Some (Ok (mkPathResponse [node] [] 0 0))
  ∧ ∃ e, find_shortest_path_response d (mkPathQuery n n depth_limit)
         = Some (Unhandled e).
Proof.
  intros Hsel. split; [by apply path_to_itself_found|].
  exists ValidationError. unfold find_shortest_path_response.
  by rewrite (path_to_itself_found _ _ _ _ Hsel).
Qed.

Lemma find_shortest_path_to_itself_witness :
  find_shortest_path Samples.chain (mkPathQuery 2 2 5)
  = Some (Ok (mkPathResponse [Samples.node 2 "user" "b"] [] 0 0))
  ∧ ∃ e, find_shortest_path_response Samples.chain (mkPathQuery 2 2 5)
         = Some (Unhandled e).
Proof. apply find_shortest_path_to_itself. reflexivity. Defined.

End ShortestPath.

Section Chain.
Import GraphAPI.

(** With unique node ids neither endpoint check of [find_shortest_path]
    raises, and an absent endpoint is answered with 404. *)
Lemma find_shortest_path_absent (d : Store) (src tgt : UUID) (depth_limit : Z) :
  NoDup (node_id <$> nodes d) →
  src ∉ node_id <$> nodes d ∨ tgt ∉ node_id <$> nodes d →
  find_shortest_path d (mkPathQuery src tgt depth_limit)
  = Some (HTTPException 404).
Proof.
  intros Hnd Habs. unfold find_shortest_path, find_shortest_path_fuel. simpl.
  unfold select_node_by_id.
  destruct (filter_key_at_most_one node_id (nodes d) src Hnd)
    as [[Hs ->]|(x & Hx & Hsx & ->)];
  destruct (filter_key_at_most_one node_id (nodes d) tgt Hnd)
    as [[Ht ->]|(y & Hy & Hty & ->)]; simpl; try done.
  exfalso. destruct Habs as [Hs|Ht].
  - apply Hs. rewrite <- Hsx. by apply list_elem_of_fmap_2.
  - apply Ht. rewrite <- Hty. by apply list_elem_of_fmap_2.
Qed.

Section ThreeEdges.
Variables (d : Store) (na nb nc nd : Node) (eab ebc ecd : Edge).
Hypothesis unique_ids : NoDup (node_id <$> nodes d).
Hypothesis stored : ∀ n, n ∈ [na; nb; nc; nd] → n ∈ nodes d.
Hypothesis distinct : NoDup (node_id <$> [na; nb; nc; nd]).
Hypothesis only_edges : edges d ≡ₚ [eab; ebc; ecd].
Hypothesis from_a : source_node_id eab = node_id na.
Hypothesis to_b : target_node_id eab = node_id nb.
Hypothesis from_b : source_node_id ebc = node_id nb.
Hypothesis to_c : target_node_id ebc = node_id nc.
Hypothesis from_c : source_node_id ecd = node_id nc.
Hypothesis to_d : target_node_id ecd = node_id nd.

Lemma chain_ids_distinct :
  node_id na ≠ node_id nb ∧ node_id na ≠ node_id nc ∧ node_id na ≠ node_id nd
  ∧ node_id nb ≠ node_id nc ∧ node_id nb ≠ node_id nd
  ∧ node_id nc ≠ node_id nd.
Proof using All.
  clear -distinct. simpl in distinct.
  rewrite !NoDup_cons, !not_elem_of_cons in distinct. tauto.
Qed.

Lemma chain_out_a :
  filter (λ e, source_node_id e = node_id na) (edges d) = [eab].
Proof using All.
  destruct chain_ids_distinct as (? & ? & ? & ? & ? & ?).
  apply (filter_permutation_singleton _ _ _ _ only_edges).
  rewrite filter_cons_True by done.
  rewrite !filter_cons_False by congruence. done.
Qed.

Lemma chain_out_b :
  filter (λ e, source_node_id e = node_id nb) (edges d) = [ebc].
Proof using All.
  destruct chain_ids_distinct as (? & ? & ? & ? & ? & ?).
  apply (filter_permutation_singleton _ _ _ _ only_edges).
  rewrite filter_cons_False by congruence.
  rewrite filter_cons_True by done.
  rewrite filter_cons_False by congruence. done.
Qed.

Lemma chain_out_c :
  filter (λ e, source_node_id e = node_id nc) (edges d) = [ecd].
Proof using All.
  destruct chain_ids_distinct as (? & ? & ? & ? & ? & ?).
  apply (filter_permutation_singleton _ _ _ _ only_edges).
  rewrite !filter_cons_False by congruence.
  rewrite filter_cons_True by done. done.
Qed.

Lemma chain_endpoints_selected :
  select_node_by_id d (node_id na) = [na]
  ∧ select_node_by_id d (node_id nd) = [nd].
Proof using All.
  split; apply select_node_by_id_unique; try done; apply stored;
    rewrite !elem_of_cons; tauto.
Qed.

Lemma chain_found (w : float) :
  found d (node_id <$> [na; nb; nc; nd]) [eab; ebc; ecd] w
  = Ok (mkPathResponse [na; nb; nc; nd] (edges d) 3 w).
Proof using All.
  unfold found. rewrite ordered_nodes_unique by done.
  rewrite filter_all; [done|].
  intros e He. apply list_elem_of_fmap_2. by rewrite <- only_edges.
Qed.

Lemma chain_fuel : List.length (edges d) = 3%nat.
Proof using All. by rewrite only_edges. Qed.

(** The search along the chain, from A, with room for three hops. *)
Lemma chain_path_found (depth_limit : Z) :
  (3 ≤ depth_limit)%Z →
  find_shortest_path d (mkPathQuery (node_id na) (node_id nd) depth_limit)
  = Some (Ok (mkPathResponse [na; nb; nc; nd] (edges d) 3
                (0 + weight eab + weight ebc + weight ecd)%float)).
Proof using All.
  intros Hlimit.
  destruct chain_ids_distinct as (Hab & Hac & Had & Hbc & Hbd & Hcd).
  destruct chain_endpoints_selected as [Hsa Hsd].
  unfold find_shortest_path, find_shortest_path_fuel.
  rewrite chain_fuel. cbn [path_source_node_id path_target_node_id].
  rewrite Hsa, Hsd. cbn [scalar_one_or_none].
  rewrite path_loop_expand by (simpl; first [done|lia]).
  rewrite chain_out_a. cbn [fold_left].
  rewrite path_step_fresh by (rewrite to_b; not_visited).
  cbn [fst snd app]. rewrite to_b.
  rewrite path_loop_expand by (simpl; first [done|lia]).
  rewrite chain_out_b. cbn [fold_left].
  rewrite path_step_fresh by (rewrite to_c; not_visited).
  cbn [fst snd app]. rewrite to_c.
  rewrite path_loop_expand by (simpl; first [done|lia]).
  rewrite chain_out_c. cbn [fold_left].
  rewrite path_step_fresh by (rewrite to_d; not_visited).
  cbn [fst snd app]. rewrite to_d.
  rewrite (path_loop_found 0 d (mkPathQuery (node_id na) (node_id nd) depth_limit)).
  f_equal. apply chain_found.
Qed.

(** The same search with room for fewer than three hops. *)
Lemma chain_path_not_found (depth_limit : Z) :
  (depth_limit < 3)%Z →
  find_shortest_path d (mkPathQuery (node_id na) (node_id nd) depth_limit)
  = Some (HTTPException 404).
Proof using All.
  intros Hlimit.
  destruct chain_ids_distinct as (Hab & Hac & Had & Hbc & Hbd & Hcd).
  destruct chain_endpoints_selected as [Hsa Hsd].
  unfold find_shortest_path, find_shortest_path_fuel.
  rewrite chain_fuel. cbn [path_source_node_id path_target_node_id].
  rewrite Hsa, Hsd. cbn [scalar_one_or_none].
  destruct (decide (depth_limit ≤ 0)%Z);
    [by rewrite path_loop_too_deep by (simpl; first [done|lia])|].
  rewrite path_loop_expand by (simpl; first [done|lia]).
  rewrite chain_out_a. cbn [fold_left].
  rewrite path_step_fresh by (rewrite to_b; not_visited).
  cbn [fst snd app]. rewrite to_b.
  destruct (decide (depth_limit ≤ 1)%Z);
    [by rewrite path_loop_too_deep by (simpl; first [done|lia])|].
  rewrite path_loop_expand by (simpl; first [done|lia]).
  rewrite chain_out_b. cbn [fold_left].
  rewrite path_step_fresh by (rewrite to_c; not_visited).
  cbn [fst snd app]. rewrite to_c.
  by rewrite path_loop_too_deep by (simpl; first [done|lia]).
Qed.

End ThreeEdges.

(** C7. In a graph with unique node ids: when either endpoint is not
    stored the answer is 404; and when the edges are exactly A -> B,
    B -> C and C -> D between four distinct stored nodes, the search
    from A to D with a depth limit below three (2, say) answers 404,
    while with a limit of at least three (5, say) it comes to the
    [return] statement with the path A, B, C, D, the three edges, length 3
    and the three weights added in turn to 0.0: the answer that is
    claimed.  But the constructor of the response raises when it reads
    the degrees of the nodes, so that request ends with an unhandled
    exception and returns no path. *)
Theorem find_shortest_path_chain (d : Store) :
  NoDup (node_id <$> nodes d) →
  (∀ src tgt depth_limit,
     src ∉ node_id <$> nodes d ∨ tgt ∉ node_id <$> nodes d →
     find_shortest_path_response d (mkPathQuery src tgt depth_limit)
     = Some (HTTPException 404))
  ∧ (∀ na nb nc nd eab ebc ecd,
       (∀ n, n ∈ [na; nb; nc; nd] → n ∈ nodes d) →
       NoDup (node_id <$> [na; nb; nc; nd]) →
       edges d ≡ₚ [eab; ebc; ecd] →
       source_node_id eab = node_id na → target_node_id eab = node_id nb →
       source_node_id ebc = node_id nb → target_node_id ebc = node_id nc →
       source_node_id ecd = node_id nc → target_node_id ecd = node_id nd →
       (∀ depth_limit, (3 ≤ depth_limit)%Z →
          (∃ r, find_shortest_path d
                  (mkPathQuery (node_id na) (node_id nd) depth_limit)
                = Some (Ok r)
                ∧ path r = [na; nb; nc; nd]
                ∧ path_edges r ≡ₚ [eab; ebc; ecd]
                ∧ length r = 3%Z
                ∧ total_weight r
                  = (0 + weight eab + weight ebc + weight ecd)%float)
          ∧ ∃ e, find_shortest_path_response d
                   (mkPathQuery (node_id na) (node_id nd) depth_limit)
                 = Some (Unhandled e))
       ∧ (∀ depth_limit, (depth_limit < 3)%Z →
            find_shortest_path_response d
              (mkPathQuery (node_id na) (node_id nd) depth_limit)
            = Some (HTTPException 404))).
Proof.
  intros Hnd. split.
  - intros src tgt depth_limit H. unfold find_shortest_path_response.
    by rewrite find_shortest_path_absent.
  - intros na nb nc nd eab ebc ecd Hst Hdist Hperm Ha1 Ha2 Hb1 Hb2 Hc1 Hc2.
    split; intros depth_limit Hlimit.
    + pose proof (chain_path_found d na nb nc nd eab ebc ecd Hnd Hst Hdist
                    Hperm Ha1 Ha2 Hb1 Hb2 Hc1 Hc2 depth_limit Hlimit) as Hf.
      split.
      * eexists. split; [exact Hf|]. simpl. by split_and!.
      * exists ValidationError. unfold find_shortest_path_response.
        by rewrite Hf.
    + unfold find_shortest_path_response.
      by rewrite (chain_path_not_found d na nb nc nd eab ebc ecd).
Qed.

Lemma find_shortest_path_chain_witness :
  (find_shortest_path_response Samples.chain (mkPathQuery 1 9 5)
   = Some (HTTPException 404))
  ∧ ((∃ r, find_shortest_path Samples.chain (mkPathQuery 1 4 5) = Some (Ok r)
           ∧ path r = [Samples.node 1 "user" "a"; Samples.node 2 "user" "b";
                       Samples.node 3 "user" "c"; Samples.node 4 "user" "d"]
           ∧ path_edges r ≡ₚ [Samples.edge 5 1 2 0.5;
                              Samples.edge 6 2 3 0.25;
                              Samples.edge 7 3 4 0.125]
           ∧ length r = 3%Z
           ∧ total_weight r = 0.875%float)
     ∧ ∃ e, find_shortest_path_response Samples.chain (mkPathQuery 1 4 5)
            = Some (Unhandled e))
  ∧ (find_shortest_path_response Samples.chain (mkPathQuery 1 4 2)
     = Some (HTTPException 404)).
Proof.
  assert (Hnd : NoDup (node_id <$> nodes Samples.chain))
    by (apply (bool_decide_unpack _); vm_compute; reflexivity).
  destruct (find_shortest_path_chain Samples.chain Hnd) as [Habsent Hchain].
  split; [|].
  - apply Habsent. right. apply (bool_decide_unpack _). vm_compute. reflexivity.
  - destruct (Hchain (Samples.node 1 "user" "a") (Samples.node 2 "user" "b")
                (Samples.node 3 "user" "c") (Samples.node 4 "user" "d")
                (Samples.edge 5 1 2 0.5) (Samples.edge 6 2 3 0.25)
                (Samples.edge 7 3 4 0.125))
      as [Hfound Hmissing]; try reflexivity.
    + intros n Hn. exact Hn.
    + apply (bool_decide_unpack _). vm_compute. reflexivity.
    + split; [exact (Hfound 5%Z ltac:(lia)) | apply (Hmissing 2%Z); lia].
Defined.

End Chain.

Section PathTermination.
Import GraphAPI.

Lemma size_list_to_set_le (l : list N) :
  size (list_to_set l : gset N) ≤ List.length l.
Proof.
  induction l as [|x l IH].
  - rewrite list_to_set_nil, size_empty. done.
  - rewrite list_to_set_cons, size_union_alt, size_singleton. simpl.
    assert (size (list_to_set l ∖ {[x]} : gset N) ≤ size (list_to_set l : gset N))
      by (apply subseteq_size, subseteq_difference_l; reflexivity).
    lia.
Qed.

Lemma size_reachable_ids (d : Store) (src : N) :
  size (reachable_ids d src) ≤ S (List.length (edges d)).
Proof.
  unfold reachable_ids. rewrite size_union_alt, size_singleton.
  assert (size (list_to_set (target_node_id <$> edges d) ∖ {[src]} : gset N)
          ≤ size (list_to_set (target_node_id <$> edges d) : gset N))
    by (apply subseteq_size, subseteq_difference_l; reflexivity).
  pose proof (size_list_to_set_le (target_node_id <$> edges d)) as Hle.
  rewrite length_fmap in Hle. lia.
Qed.

(** Every id added to [visited] is appended to the queue once. *)
Lemma path_step_fold ids es w dep (T : gset N) (rows : list Edge) :
  ∀ (visited : gset N) (queue : list Entry),
    visited ⊆ T → (∀ e, e ∈ rows → target_node_id e ∈ T) →
    let st := fold_left (path_step ids es w dep) rows (visited, queue) in
    st.1 ⊆ T
    ∧ List.length st.2 + size visited = List.length queue + size st.1.
Proof.
  induction rows as [|e rows IH]; intros visited queue Hsub Hin; simpl.
  - done.
  - destruct (decide (target_node_id e ∈ visited)) as [Hvis|Hvis].
    + replace (path_step ids es w dep (visited, queue) e) with (visited, queue)
        by (unfold path_step; simpl; by rewrite bool_decide_eq_true_2).
      apply IH; [done|]. intros e' He'. apply Hin. by right.
    + rewrite path_step_fresh by done.
      edestruct (IH ({[target_node_id e]} ∪ visited)) as [Hsub' Hlen].
      * apply union_subseteq. split; [|done].
        apply singleton_subseteq_l. apply Hin. left.
      * intros e' He'. apply Hin. by right.
      * split; [exact Hsub'|]. simpl in Hlen.
        rewrite length_app in Hlen.
        rewrite size_union in Hlen by (by apply disjoint_singleton_l).
        rewrite size_singleton in Hlen. simpl in Hlen. lia.
Qed.

Lemma path_loop_returns (d : Store) (q : PathQuery) (T : gset N) :
  (∀ e, e ∈ edges d → target_node_id e ∈ T) →
  ∀ fuel (visited : gset N) (queue : list Entry),
    visited ⊆ T →
    List.length queue + size T ≤ fuel + size visited →
    ∃ r, path_loop fuel d q visited queue = Some r.
Proof.
  intros HT. induction fuel as [|fuel IH]; intros visited queue Hsub Hlen.
  - pose proof (subseteq_size _ _ Hsub).
    destruct queue as [|entry rest]; [by eexists|simpl in Hlen; lia].
  - destruct queue as [|[[[[current_id ids] es] w] dep] rest]; [by eexists|].
    simpl. case_bool_decide; [by eexists|].
    case_bool_decide.
    + apply IH; [done|]. simpl in Hlen. lia.
    + destruct (path_step_fold ids es w dep T
                  (filter (λ e, source_node_id e = current_id) (edges d))
                  visited rest Hsub) as [Hsub' Hlen'].
      { intros e He. apply HT. apply list_elem_of_filter in He. tauto. }
      destruct (fold_left _ _ _) as [visited' queue'].
      apply IH; [done|]. simpl in *. lia.
Qed.

(** [find_shortest_path] returns: the iterations allowed for are enough on
    every store and for every query. *)
Theorem find_shortest_path_total (d : Store) (q : PathQuery) :
  ∃ r, find_shortest_path d q = Some r.
Proof.
  unfold find_shortest_path, find_shortest_path_fuel.
  destruct (scalar_one_or_none (select_node_by_id d (path_source_node_id q)))
    as [e|source_node]; [by eexists|].
  destruct (scalar_one_or_none (select_node_by_id d (path_target_node_id q)))
    as [e|target_node]; [by eexists|].
  destruct source_node; [|by eexists].
  destruct target_node; [|by eexists].
  apply (path_loop_returns d q (reachable_ids d (path_source_node_id q))).
  - intros e He. unfold reachable_ids.
    apply elem_of_union_r, elem_of_list_to_set. by apply list_elem_of_fmap_2.
  - unfold reachable_ids. apply union_subseteq_l.
  - rewrite size_singleton. simpl.
    pose proof (size_reachable_ids d (path_source_node_id q)). lia.
Qed.

End PathTermination.

(** ** Storing edges *)

Section CreateEdge.
Import BaseCrawler.

Implicit Types (c : Crawler) (d : Store) (e : Edge) (rel : string) (w : float).

(** A key already in [discovered_edges]: nothing is read or written. *)
Lemma create_edge_discovered c source_node target_node rel w metadata :
  (node_id source_node, node_id target_node, rel) ∈ discovered_edges c →
  create_edge source_node target_node rel w metadata c = (inr None, c).
Proof.
  intros Hkey. unfold create_edge, bind, get, ret. simpl.
  by rewrite bool_decide_eq_true_2.
Qed.

(** No row for the key: a row is added. *)
Lemma create_edge_absent c source_node target_node rel w metadata :
  (node_id source_node, node_id target_node, rel) ∉ discovered_edges c →
  select_edge (db c) (node_id source_node) (node_id target_node) rel = [] →
  create_edge source_node target_node rel w metadata c
  = (inr (Some (mkEdge (next_uuid (db c)) (node_id source_node)
                       (node_id target_node) rel w (dict_or_empty metadata))),
     mkCrawler
       (add_edge (db c) (node_id source_node) (node_id target_node) rel w
                 (dict_or_empty metadata)).2
       (discovered_nodes c)
       ({[(node_id source_node, node_id target_node, rel)]} ∪ discovered_edges c)
       (source_name c) (utcnow c)).
Proof.
  intros Hkey Hsel. unfold create_edge, bind, get, ret, lift, put. simpl.
  rewrite bool_decide_eq_false_2 by done. by rewrite Hsel.
Qed.

(** One row for the key: its weight becomes the mean of its weight and
    the new one. *)
Lemma create_edge_present c source_node target_node rel w metadata e :
  (node_id source_node, node_id target_node, rel) ∉ discovered_edges c →
  select_edge (db c) (node_id source_node) (node_id target_node) rel = [e] →
  let e' := mkEdge (edge_id e) (source_node_id e) (target_node_id e)
                   (relationship_type e) ((weight e + w) / 2)%float
                   (if dict_truthy metadata
                    then dict_merge (edge_metadata e) (dict_or_empty metadata)
                    else edge_metadata e) in
  create_edge source_node target_node rel w metadata c
  = (inr (Some e'),
     mkCrawler (flush_edge (db c) e') (discovered_nodes c)
       ({[(node_id source_node, node_id target_node, rel)]} ∪ discovered_edges c)
       (source_name c) (utcnow c)).
Proof.
  intros Hkey Hsel. unfold create_edge, bind, get, ret, lift, put. simpl.
  rewrite bool_decide_eq_false_2 by done. by rewrite Hsel.
Qed.

Lemma select_edge_added d s t rel w md :
  select_edge d s t rel = [] →
  select_edge (add_edge d s t rel w md).2 s t rel
  = [mkEdge (next_uuid d) s t rel w md].
Proof.
  intros Hsel. unfold select_edge in *. simpl.
  rewrite filter_app, Hsel. by rewrite filter_cons_True.
Qed.

(** Rewriting the freshly added row: the other rows have other primary
    keys and stay as they are. *)
Lemma select_edge_flushed d s t rel w md e' :
  select_edge d s t rel = [] →
  Forall (λ e, edge_id e ≠ next_uuid d) (edges d) →
  edge_id e' = next_uuid d → source_node_id e' = s → target_node_id e' = t →
  relationship_type e' = rel →
  select_edge (flush_edge (add_edge d s t rel w md).2 e') s t rel = [e'].
Proof.
  intros Hsel Hfresh Hid Hs Ht Hrel. unfold select_edge in *. simpl.
  rewrite map_app. simpl. rewrite bool_decide_eq_true_2 by done.
  replace (map _ (edges d)) with (edges d).
  - rewrite filter_app, Hsel. by rewrite filter_cons_True.
  - clear Hsel. induction Hfresh as [|x l Hx Hl IH]; [done|]. simpl.
    rewrite bool_decide_eq_false_2 by congruence. by f_equal.
Qed.

(** The mean of the floats 0.4 and 0.8 as the code computes it: their
    sum is rounded to 1.2000000000000002, and half of it is
    0.6000000000000001, the float next above 0.6. *)
Lemma mean_of_floats_is_rounded :
  ((0.4 + 0.8) / 2)%float = 0.6000000000000001%float
  ∧ ((0.4 + 0.8) / 2)%float ≠ 0.6%float.
Proof.
  split; [vm_compute; reflexivity|].
  intros H. apply (f_equal (λ x, PrimFloat.eqb x 0.6)) in H.
  vm_compute in H. discriminate.
Qed.

(** Two calls with the same key, weights 0.4 and 0.8, in one run: the
    second call returns [None] without touching the store, and the stored
    weight is still 0.4, not a mean of the two. *)
Lemma create_edge_same_run_keeps_weight :
  create_edge Samples.alice Samples.rust "posts_in" 0.8 None
    (create_edge Samples.alice Samples.rust "posts_in" 0.4 None
       (Samples.run Samples.two_nodes)).2
  = (inr None,
     mkCrawler (mkStore [Samples.alice; Samples.rust]
                        [Samples.edge 3 1 2 0.4] ∅ 4)
               ∅ {[(1%N, 2%N, "posts_in")]} "reddit" 100)
  ∧ weight (Samples.edge 3 1 2 0.4) ≠ 0.6%float
  ∧ weight (Samples.edge 3 1 2 0.4) ≠ ((0.4 + 0.8) / 2)%float.
Proof.
  split_and!.
  - vm_compute. reflexivity.
  - intros H. apply (f_equal (λ x, PrimFloat.eqb x 0.6)) in H.
    vm_compute in H. discriminate.
  - intros H. apply (f_equal (λ x, PrimFloat.eqb x 0.4)) in H.
    vm_compute in H. discriminate.
Qed.

(** C1, amended. Two calls of [create_edge] with the same key, the first
    one creating the row with weight [w1] (0.4), the second one with
    weight [w2] (0.8): when the second call is made by another run (its
    [discovered_edges] does not hold the key) over the store the first
    one left, the stored weight afterwards is the mean as floating-point
    arithmetic gives it, [(w1 + w2) / 2] with the sum and the quotient
    each rounded (0.6000000000000001 for 0.4 and 0.8); when it is made in
    the same run it returns [None], the store is as it was and the
    stored weight is still [w1] (0.4).  In both cases there is one row
    for the key. *)
Theorem create_edge_twice c source_node target_node rel w1 w2 md1 md2 :
  (node_id source_node, node_id target_node, rel) ∉ discovered_edges c →
  select_edge (db c) (node_id source_node) (node_id target_node) rel = [] →
  Forall (λ e, edge_id e ≠ next_uuid (db c)) (edges (db c)) →
  (∃ e, create_edge source_node target_node rel w2 md2
          (create_edge source_node target_node rel w1 md1 c).2
        = (inr None, (create_edge source_node target_node rel w1 md1 c).2)
        ∧ select_edge (db (create_edge source_node target_node rel w1 md1 c).2)
            (node_id source_node) (node_id target_node) rel = [e]
        ∧ weight e = w1)
  ∧ (∀ c2,
       db c2 = db (create_edge source_node target_node rel w1 md1 c).2 →
       (node_id source_node, node_id target_node, rel) ∉ discovered_edges c2 →
       ∃ e, (create_edge source_node target_node rel w2 md2 c2).1
            = inr (Some e)
            ∧ select_edge
                (db (create_edge source_node target_node rel w2 md2 c2).2)
                (node_id source_node) (node_id target_node) rel = [e]
            ∧ weight e = ((w1 + w2) / 2)%float).
Proof.
  intros Hkey Hsel Hfresh.
  rewrite (create_edge_absent c _ _ _ w1 md1 Hkey Hsel). cbn [snd].
  split.
  - eexists. split_and!.
    + apply create_edge_discovered. cbn [discovered_edges].
      apply elem_of_union_l, elem_of_singleton. reflexivity.
    + cbn [db]. by apply select_edge_added.
    + reflexivity.
  - intros c2 Hdb Hkey2. cbn [db] in Hdb.
    pose proof (select_edge_added _ _ _ _ w1 (dict_or_empty md1) Hsel) as Hone.
    rewrite <- Hdb in Hone.
    rewrite (create_edge_present c2 _ _ _ w2 md2 _ Hkey2 Hone).
    cbn [fst snd db edge_id source_node_id target_node_id relationship_type
         weight]. rewrite Hdb.
    eexists. split_and!; [reflexivity| |reflexivity].
    by apply select_edge_flushed.
Qed.

Lemma create_edge_twice_witness :
  (∃ e, create_edge Samples.alice Samples.rust "posts_in" 0.8 None
          (create_edge Samples.alice Samples.rust "posts_in" 0.4 None
             (Samples.run Samples.two_nodes)).2
        = (inr None,
           (create_edge Samples.alice Samples.rust "posts_in" 0.4 None
              (Samples.run Samples.two_nodes)).2)
        ∧ select_edge
            (db (create_edge Samples.alice Samples.rust "posts_in" 0.4 None
                   (Samples.run Samples.two_nodes)).2)
            1 2 "posts_in" = [e]
        ∧ weight e = 0.4%float)
  ∧ (∃ e, (create_edge Samples.alice Samples.rust "posts_in" 0.8 None
             (Samples.run
                (db (create_edge Samples.alice Samples.rust "posts_in" 0.4
                       None (Samples.run Samples.two_nodes)).2))).1
          = inr (Some e)
          ∧ select_edge
              (db (create_edge Samples.alice Samples.rust "posts_in" 0.8
                     None
                     (Samples.run
                        (db (create_edge Samples.alice Samples.rust "posts_in"
                               0.4 None
                               (Samples.run Samples.two_nodes)).2))).2)
              1 2 "posts_in" = [e]
          ∧ weight e = ((0.4 + 0.8) / 2)%float
          ∧ weight e = 0.6000000000000001%float
          ∧ weight e ≠ 0.6%float).
Proof.
  destruct (create_edge_twice (Samples.run Samples.two_nodes)
              Samples.alice Samples.rust "posts_in" 0.4 0.8 None None)
    as [Hsame Hlater].
  - apply not_elem_of_empty.
  - reflexivity.
  - apply Forall_nil_2.
  - split; [exact Hsame|].
    destruct (Hlater (Samples.run
                (db (create_edge Samples.alice Samples.rust "posts_in" 0.4
                       None (Samples.run Samples.two_nodes)).2)))
      as (e & Hret & Hrow & Hweight).
    + reflexivity.
    + apply not_elem_of_empty.
    + exists e. split_and!; [exact Hret|exact Hrow|exact Hweight| |].
      * rewrite Hweight. apply mean_of_floats_is_rounded.
      * rewrite Hweight. apply mean_of_floats_is_rounded.
Defined.

End CreateEdge.

(** ** Storing nodes *)

Section CreateOrUpdateNode.
Import BaseCrawler.

Implicit Types (c : Crawler) (d : Store) (n : Node) (metadata : option Dict).

(** [{**old, **new}] key by key: the value of [new] where it has one. *)
Lemma dict_merge_lookup (old new : Dict) (k : string) :
  dict_merge old new !! k
  = match new !! k with Some v => Some v | None => old !! k end.
Proof.
  unfold dict_merge. rewrite lookup_union.
  destruct (new !! k), (old !! k); reflexivity.
Qed.

(** [if metadata: ... = {**old, **metadata}] is the merge also when
    [metadata] is falsy: merging nothing changes nothing. *)
Lemma dict_merge_if_truthy (old : Dict) metadata :
  (if dict_truthy metadata then dict_merge old (dict_or_empty metadata) else old)
  = dict_merge old (dict_or_empty metadata).
Proof.
  unfold dict_merge. destruct metadata as [m|]; simpl.
  - case_bool_decide as Hm; simpl; [|done]. subst m.
    symmetry. apply (left_id_L ∅ (∪)).
  - symmetry. apply (left_id_L ∅ (∪)).
Qed.

(** A key already in [discovered_nodes]: the stored row is returned, the
    arguments [name] and [metadata] are not read. *)
Lemma create_or_update_node_discovered c etype eid name metadata :
  unique_key (source_name c) etype eid ∈ discovered_nodes c →
  create_or_update_node etype eid name metadata c
  = (scalar_one (select_node (db c) (source_name c) etype eid), c).
Proof.
  intros Hkey. unfold create_or_update_node, bind, get, lift. simpl.
  by rewrite bool_decide_eq_true_2.
Qed.

(** No row for the triple: a row is added. *)
Lemma create_or_update_node_absent c etype eid name metadata :
  unique_key (source_name c) etype eid ∉ discovered_nodes c →
  select_node (db c) (source_name c) etype eid = [] →
  create_or_update_node etype eid name metadata c
  = (inr (mkNode (next_uuid (db c)) etype eid (source_name c) name
                 (dict_or_empty metadata)),
     mkCrawler
       (add_node (db c) etype eid (source_name c) name
                 (dict_or_empty metadata)).2
       ({[unique_key (source_name c) etype eid]} ∪ discovered_nodes c)
       (discovered_edges c) (source_name c) (utcnow c)).
Proof.
  intros Hkey Hsel. unfold create_or_update_node, bind, get, ret, lift, put.
  simpl. rewrite bool_decide_eq_false_2 by done. by rewrite Hsel.
Qed.

(** One row for the triple: its name is replaced and the metadata merged
    into its metadata. *)
Lemma create_or_update_node_present c etype eid name metadata n :
  unique_key (source_name c) etype eid ∉ discovered_nodes c →
  select_node (db c) (source_name c) etype eid = [n] →
  let n' := mkNode (node_id n) (entity_type n) (entity_id n) (source n) name
                   (dict_merge (node_metadata n) (dict_or_empty metadata)) in
  create_or_update_node etype eid name metadata c
  = (inr n',
     mkCrawler (flush_node (db c) n')
       ({[unique_key (source_name c) etype eid]} ∪ discovered_nodes c)
       (discovered_edges c) (source_name c) (utcnow c)).
Proof.
  intros Hkey Hsel. unfold create_or_update_node, bind, get, ret, lift, put.
  simpl. rewrite bool_decide_eq_false_2 by done. rewrite Hsel. simpl.
  by rewrite dict_merge_if_truthy.
Qed.

Lemma select_node_added d etype eid src name md :
  select_node d src etype eid = [] →
  select_node (add_node d etype eid src name md).2 src etype eid
  = [mkNode (next_uuid d) etype eid src name md].
Proof.
  intros Hsel. unfold select_node in *. simpl.
  rewrite filter_app, Hsel. by rewrite filter_cons_True.
Qed.

(** Rewriting the freshly added row: the other rows have other primary
    keys and stay as they are. *)
Lemma select_node_flushed d etype eid src name md n' :
  select_node d src etype eid = [] →
  Forall (λ n, node_id n ≠ next_uuid d) (nodes d) →
  node_id n' = next_uuid d → source n' = src → entity_type n' = etype →
  entity_id n' = eid →
  select_node (flush_node (add_node d etype eid src name md).2 n') src etype eid
  = [n'].
Proof.
  intros Hsel Hfresh Hid Hs Ht He. unfold select_node in *. simpl.
  rewrite map_app. simpl. rewrite bool_decide_eq_true_2 by done.
  replace (map _ (nodes d)) with (nodes d).
  - rewrite filter_app, Hsel. by rewrite filter_cons_True.
  - clear Hsel. induction Hfresh as [|x l Hx Hl IH]; [done|]. simpl.
    rewrite bool_decide_eq_false_2 by congruence. by f_equal.
Qed.

(** Two calls for r/rust in one run, with metadata [{"a": 1}] and then
    [{"b": 2}] and another name: the second call returns the stored row
    and writes nothing, so the record has the metadata of the first call
    only, without the key ["b"]. *)
Lemma create_or_update_node_same_run_keeps_metadata :
  create_or_update_node "subreddit" "rust" "r/Rust" (Some {["b" := JInt 2]})
    (create_or_update_node "subreddit" "rust" "r/rust" (Some {["a" := JInt 1]})
       (Samples.run Samples.empty_store)).2
  = (inr (mkNode 1 "subreddit" "rust" "reddit" "r/rust" {["a" := JInt 1]}),
     mkCrawler
       (mkStore [mkNode 1 "subreddit" "rust" "reddit" "r/rust" {["a" := JInt 1]}]
                [] ∅ 2)
       {["reddit:subreddit:rust"]} ∅ "reddit" 100)
  ∧ ({["a" := JInt 1]} : Dict) !! "b" = None
  ∧ dict_merge {["a" := JInt 1]} {["b" := JInt 2]} !! "b" = Some (JInt 2).
Proof. split_and!; vm_compute; reflexivity. Qed.

(** C2, amended. Two calls of [create_or_update_node] with the same
    identity triple, the first one creating the record: afterwards the
    store holds one record for the triple in either case.  When the
    second call is made by another run (its [discovered_nodes] does not
    hold the key) over the store the first one left, the record has the
    name of the second call and the metadata of both calls, the keys of
    the second call overriding; when it is made in the same run, the
    record is returned as the first call stored it, with the name and
    the metadata of the first call only. *)
Theorem create_or_update_node_twice c etype eid name1 name2 md1 md2 :
  unique_key (source_name c) etype eid ∉ discovered_nodes c →
  select_node (db c) (source_name c) etype eid = [] →
  Forall (λ n, node_id n ≠ next_uuid (db c)) (nodes (db c)) →
  (∃ n, create_or_update_node etype eid name2 md2
          (create_or_update_node etype eid name1 md1 c).2
        = (inr n, (create_or_update_node etype eid name1 md1 c).2)
        ∧ select_node (db (create_or_update_node etype eid name1 md1 c).2)
            (source_name c) etype eid = [n]
        ∧ display_name n = name1
        ∧ node_metadata n = dict_or_empty md1)
  ∧ (∀ c2,
       db c2 = db (create_or_update_node etype eid name1 md1 c).2 →
       source_name c2 = source_name c →
       unique_key (source_name c) etype eid ∉ discovered_nodes c2 →
       ∃ n, (create_or_update_node etype eid name2 md2 c2).1 = inr n
            ∧ select_node (db (create_or_update_node etype eid name2 md2 c2).2)
                (source_name c) etype eid = [n]
            ∧ display_name n = name2
            ∧ node_metadata n = dict_or_empty md2 ∪ dict_or_empty md1).
Proof.
  intros Hkey Hsel Hfresh.
  rewrite (create_or_update_node_absent c _ _ name1 md1 Hkey Hsel). cbn [snd].
  pose proof (select_node_added _ _ _ _ name1 (dict_or_empty md1) Hsel) as Hone.
  split.
  - eexists. split_and!.
    + rewrite create_or_update_node_discovered.
      * cbn [db source_name]. rewrite Hone. reflexivity.
      * cbn [discovered_nodes source_name].
        apply elem_of_union_l, elem_of_singleton. reflexivity.
    + cbn [db]. exact Hone.
    + reflexivity.
    + reflexivity.
  - intros c2 Hdb Hsrc Hkey2. cbn [db] in Hdb.
    rewrite <- Hdb, <- Hsrc in Hone. rewrite <- Hsrc in Hkey2.
    rewrite (create_or_update_node_present c2 _ _ name2 md2 _ Hkey2 Hone).
    cbn [fst snd db node_id source entity_type entity_id node_metadata].
    rewrite Hdb, Hsrc.
    eexists. split_and!; [reflexivity| |reflexivity|reflexivity].
    by apply select_node_flushed.
Qed.

Lemma create_or_update_node_twice_witness :
  (∃ n, create_or_update_node "subreddit" "rust" "r/Rust"
          (Some {["b" := JInt 2]})
          (create_or_update_node "subreddit" "rust" "r/rust"
             (Some {["a" := JInt 1]}) (Samples.run Samples.empty_store)).2
        = (inr n,
           (create_or_update_node "subreddit" "rust" "r/rust"
              (Some {["a" := JInt 1]}) (Samples.run Samples.empty_store)).2)
        ∧ select_node
            (db (create_or_update_node "subreddit" "rust" "r/rust"
                   (Some {["a" := JInt 1]}) (Samples.run Samples.empty_store)).2)
            "reddit" "subreddit" "rust" = [n]
        ∧ display_name n = "r/rust"
        ∧ node_metadata n = {["a" := JInt 1]})
  ∧ (∃ n, (create_or_update_node "subreddit" "rust" "r/Rust"
             (Some {["b" := JInt 2]})
             (Samples.run
                (db (create_or_update_node "subreddit" "rust" "r/rust"
                       (Some {["a" := JInt 1]})
                       (Samples.run Samples.empty_store)).2))).1 = inr n
          ∧ select_node
              (db (create_or_update_node "subreddit" "rust" "r/Rust"
                     (Some {["b" := JInt 2]})
                     (Samples.run
                        (db (create_or_update_node "subreddit" "rust" "r/rust"
                               (Some {["a" := JInt 1]})
                               (Samples.run Samples.empty_store)).2))).2)
              "reddit" "subreddit" "rust" = [n]
          ∧ display_name n = "r/Rust"
          ∧ node_metadata n = {["b" := JInt 2]} ∪ {["a" := JInt 1]}).
Proof.
  destruct (create_or_update_node_twice (Samples.run Samples.empty_store)
              "subreddit" "rust" "r/rust" "r/Rust"
              (Some {["a" := JInt 1]}) (Some {["b" := JInt 2]}))
    as [Hsame Hlater].
  - apply not_elem_of_empty.
  - reflexivity.
  - apply Forall_nil_2.
  - split; [exact Hsame|].
    apply (Hlater (Samples.run
             (db (create_or_update_node "subreddit" "rust" "r/rust"
                    (Some {["a" := JInt 1]})
                    (Samples.run Samples.empty_store)).2))).
    + reflexivity.
    + reflexivity.
    + apply not_elem_of_empty.
Defined.

End CreateOrUpdateNode.

(** ** Crawl runs *)

Section Crawl.
Import BaseCrawler RedditCrawler.

Implicit Types (c : Crawler) (w : Reddit) (e : Exn).

(** The job row as [create_crawl_job] adds it and [update_crawl_job]
    rewrites it. *)
Lemma create_crawl_job_row c :
  create_crawl_job c
  = (inr (next_uuid (db c)),
     with_db c
       (mkStore (nodes (db c)) (edges (db c))
          (<[next_uuid (db c) :=
               mkCrawlJob (next_uuid (db c)) (source_name c) PENDING 0 0
                          None None None]> (jobs (db c)))
          (N.succ (next_uuid (db c))))).
Proof. reflexivity. Qed.

Lemma update_crawl_job_row c job st entities edges_n err :
  update_crawl_job job st entities edges_n err c
  = (inr tt,
     with_db c
       (mkStore (nodes (db c)) (edges (db c))
          (alter (set_job_fields (utcnow c) st entities edges_n err) job
                 (jobs (db c)))
          (next_uuid (db c)))).
Proof. reflexivity. Qed.

(** The state in which [_crawl_subreddit] is entered by [crawl]. *)
Lemma crawl_traversal w start_entity depth max_entities c :
  crawl w start_entity depth max_entities c
  = match _crawl_subreddit w start_entity depth max_entities
            (update_crawl_job (next_uuid (db c)) RUNNING None None None
               (create_crawl_job c).2).2 with
    | (inr _, c') =>
        (inr (next_uuid (db c)),
         (update_crawl_job (next_uuid (db c)) COMPLETED
            (Some (Z.of_nat (size (discovered_nodes c'))))
            (Some (Z.of_nat (size (discovered_edges c'))))
            None c').2)
    | (inl e, c') =>
        (inl e,
         (update_crawl_job (next_uuid (db c)) FAILED None None
            (Some (str_exn e)) c').2)
    end.
Proof.
  unfold crawl, try_except, bind. rewrite create_crawl_job_row.
  cbn [fst snd]. rewrite update_crawl_job_row. cbn [fst snd].
  destruct (_crawl_subreddit _ _ _ _ _) as [[e|[]] c']; reflexivity.
Qed.

(** The traversal leaves the job table alone, and no exception of a
    fetch leaves it. *)
Lemma scalar_one_store_error {A} (rows : list A) e :
  scalar_one rows = inl e → traversal_error e.
Proof.
  unfold traversal_error, store_error.
  destruct rows as [|x [|y rows]]; simpl; naive_solver.
Qed.

Lemma scalar_one_or_none_store_error {A} (rows : list A) e :
  scalar_one_or_none rows = inl e → traversal_error e.
Proof.
  unfold traversal_error, store_error.
  destruct rows as [|x [|y rows]]; simpl; naive_solver.
Qed.

Lemma score_weight_keeps_jobs score : keeps_jobs (lift (score_weight score)).
Proof.
  intros c. unfold lift. destruct (score_weight score) as [e|x] eqn:H; simpl;
    split_and!; try done.
  intros e' [= <-]. right. by exists score.
Qed.

Lemma traversal_error_not_transport e :
  traversal_error e → ¬ transport_failure e.
Proof.
  intros [[-> | ->] | [[[| | | |]|] H]]; simplify_eq/=; intros [].
Qed.

Lemma keeps_jobs_ret {A} (a : A) : keeps_jobs (ret a).
Proof. by intros c. Qed.

Lemma keeps_jobs_bind {A B} (m : M A) (k : A → M B) :
  keeps_jobs m → (∀ a, keeps_jobs (k a)) → keeps_jobs (bind m k).
Proof.
  intros Hm Hk c. unfold bind. specialize (Hm c).
  destruct (m c) as [[e|a] c'].
  { destruct Hm as (? & ? & ? & Hraise). split_and!; [done..|].
    intros e' [= <-]. by apply Hraise. }
  destruct (Hk a c') as (-> & -> & -> & Hraise).
  simpl in Hm. destruct Hm as (-> & -> & -> & _). done.
Qed.

Lemma keeps_jobs_get_then {B} (k : Crawler → M B) :
  (∀ c, keeps_jobs (k c)) → keeps_jobs (bind get k).
Proof. intros Hk. apply keeps_jobs_bind; [by intros c|exact Hk]. Qed.

Lemma create_or_update_node_keeps_jobs etype eid name metadata :
  keeps_jobs (create_or_update_node etype eid name metadata).
Proof.
  intros c. unfold create_or_update_node, bind, get, lift, put, ret. simpl.
  case_bool_decide.
  { split_and!; [done..|]. apply scalar_one_store_error. }
  destruct (scalar_one_or_none _) as [e|[n|]] eqn:Hrows; simpl;
    split_and!; try done.
  intros e' [= <-]. by apply scalar_one_or_none_store_error in Hrows.
Qed.

Lemma create_edge_keeps_jobs source_node target_node rel weight metadata :
  keeps_jobs (create_edge source_node target_node rel weight metadata).
Proof.
  intros c. unfold create_edge, bind, get, lift, put, ret. simpl.
  case_bool_decide; [done|].
  destruct (scalar_one_or_none _) as [e|[n|]] eqn:Hrows; simpl;
    split_and!; try done.
  intros e' [= <-]. by apply scalar_one_or_none_store_error in Hrows.
Qed.

Lemma for_each_keeps_jobs {A} (xs : list A) (body : A → M unit) :
  (∀ x, keeps_jobs (body x)) → keeps_jobs (for_each xs body).
Proof.
  intros Hbody. induction xs as [|x xs IH]; simpl.
  - apply keeps_jobs_ret.
  - apply keeps_jobs_bind; [apply Hbody|]. intros _. exact IH.
Qed.

Lemma _crawl_user_keeps_jobs w username max_subreddits :
  keeps_jobs (_crawl_user w username max_subreddits).
Proof.
  unfold _crawl_user. apply keeps_jobs_bind.
  - apply create_or_update_node_keeps_jobs.
  - intros user_node. apply for_each_keeps_jobs. intros [name count].
    apply keeps_jobs_bind; [apply create_or_update_node_keeps_jobs|].
    intros subreddit_node.
    apply keeps_jobs_bind; [apply create_edge_keeps_jobs|].
    intros _. apply keeps_jobs_ret.
Qed.

Lemma posts_loop_keeps_jobs w depth max_entities subreddit_node posts :
  keeps_jobs (posts_loop w depth max_entities subreddit_node posts).
Proof.
  induction posts as [|post rest IH]; simpl.
  - apply keeps_jobs_ret.
  - apply keeps_jobs_get_then. intros c.
    destruct (budget_exhausted c max_entities); [apply keeps_jobs_ret|].
    destruct (author post) as [name|]; [|exact IH].
    destruct (_ || _); [exact IH|].
    apply keeps_jobs_bind; [apply create_or_update_node_keeps_jobs|].
    intros user_node.
    apply keeps_jobs_bind; [apply score_weight_keeps_jobs|]. intros weight.
    apply keeps_jobs_bind; [apply create_edge_keeps_jobs|]. intros _.
    apply keeps_jobs_bind; [|intros _; exact IH].
    case_bool_decide; [apply _crawl_user_keeps_jobs|apply keeps_jobs_ret].
Qed.

Lemma _crawl_subreddit_keeps_jobs w subreddit_name depth max_entities :
  keeps_jobs (_crawl_subreddit w subreddit_name depth max_entities).
Proof.
  unfold _crawl_subreddit. apply keeps_jobs_get_then. intros c.
  destruct (budget_exhausted c max_entities); [apply keeps_jobs_ret|].
  destruct (_fetch_subreddit_info w subreddit_name) as [data|];
    [|apply keeps_jobs_ret].
  case_bool_decide; [apply keeps_jobs_ret|].
  apply keeps_jobs_bind; [apply create_or_update_node_keeps_jobs|].
  intros subreddit_node.
  case_bool_decide; [apply keeps_jobs_ret|apply posts_loop_keeps_jobs].
Qed.

(** The job row when the traversal is entered. *)
Lemma entered_job session now :
  jobs (db (entered session now)) !! next_uuid session
  = Some (mkCrawlJob (next_uuid session) "reddit" RUNNING 0 0 None
                     (Some now) None).
Proof.
  unfold entered. rewrite create_crawl_job_row, update_crawl_job_row. simpl.
  by rewrite lookup_alter_eq, lookup_insert_eq.
Qed.

Lemma run_reddit_crawler_traversal w session now start_entity depth max_entities :
  run_reddit_crawler w session now start_entity depth max_entities
  = match _crawl_subreddit w start_entity depth max_entities
            (entered session now) with
    | (inr _, c') =>
        (inr (next_uuid session),
         (update_crawl_job (next_uuid session) COMPLETED
            (Some (Z.of_nat (size (discovered_nodes c'))))
            (Some (Z.of_nat (size (discovered_edges c'))))
            None c').2)
    | (inl e, c') =>
        (inl e,
         (update_crawl_job (next_uuid session) FAILED None None
            (Some (str_exn e)) c').2)
    end.
Proof. unfold run_reddit_crawler. by rewrite crawl_traversal. Qed.

(** What [crawl] makes of the two ways in which the traversal ends. *)
Lemma run_reddit_crawler_returned w session now start_entity depth max_entities c' :
  _crawl_subreddit w start_entity depth max_entities (entered session now)
  = (inr tt, c') →
  ∃ c job,
    run_reddit_crawler w session now start_entity depth max_entities
    = (inr (next_uuid session), c)
    ∧ jobs (db c) !! next_uuid session = Some job
    ∧ status job = COMPLETED
    ∧ entity_count job = Z.of_nat (size (discovered_nodes c'))
    ∧ error_message job = None
    ∧ completed_at job = Some now.
Proof.
  intros Hrun. rewrite run_reddit_crawler_traversal, Hrun.
  destruct (_crawl_subreddit_keeps_jobs w start_entity depth max_entities
              (entered session now)) as (Hjobs & Hnow & _).
  rewrite Hrun in Hjobs, Hnow. cbn [snd] in Hjobs, Hnow.
  eexists _, _. split; [reflexivity|].
  rewrite update_crawl_job_row. cbn [snd with_db db jobs].
  rewrite lookup_alter_eq, Hjobs, entered_job. simpl.
  split_and!; try reflexivity. by rewrite Hnow.
Qed.

Lemma run_reddit_crawler_raised w session now start_entity depth max_entities
    e c' :
  _crawl_subreddit w start_entity depth max_entities (entered session now)
  = (inl e, c') →
  ∃ c job,
    run_reddit_crawler w session now start_entity depth max_entities = (inl e, c)
    ∧ traversal_error e
    ∧ jobs (db c) !! next_uuid session = Some job
    ∧ status job = FAILED
    ∧ error_message job = Some (str_exn e)
    ∧ completed_at job = Some now.
Proof.
  intros Hrun. rewrite run_reddit_crawler_traversal, Hrun.
  destruct (_crawl_subreddit_keeps_jobs w start_entity depth max_entities
              (entered session now)) as (Hjobs & Hnow & _ & Hstore).
  rewrite Hrun in Hjobs, Hnow, Hstore. cbn [fst snd] in Hjobs, Hnow, Hstore.
  specialize (Hstore e eq_refl).
  eexists _, _. split; [reflexivity|]. split; [exact Hstore|].
  rewrite update_crawl_job_row. cbn [snd with_db db jobs].
  rewrite lookup_alter_eq, Hjobs, entered_job. simpl.
  split_and!; try reflexivity; [|by rewrite Hnow].
  by destruct Hstore as [[-> | ->] | [[[| | | |]|] H]]; simplify_eq/=.
Qed.

(** A listing of top posts that cannot be fetched is an empty listing
    to the traversal, which then ends after the node of the subreddit. *)
Lemma _crawl_subreddit_posts_unavailable w session now start_entity depth
    max_entities e :
  top_json w start_entity = inl e →
  List.length (select_node session "reddit" "subreddit" (lower start_entity)) ≤ 1 →
  ∃ c', _crawl_subreddit w start_entity depth max_entities (entered session now)
        = (inr tt, c').
Proof.
  intros Htop Hrows. unfold _crawl_subreddit, _fetch_subreddit_posts.
  rewrite Htop. unfold bind at 1. cbn [get].
  destruct (budget_exhausted _ _); [by eexists|].
  destruct (_fetch_subreddit_info w start_entity) as [data|]; [|by eexists].
  case_bool_decide; [by eexists|].
  unfold bind.
  destruct (select_node session "reddit" "subreddit" (lower start_entity))
    as [|n [|n' rows]] eqn:Hsel; [| |simpl in Hrows; lia].
  - rewrite create_or_update_node_absent;
      [|apply not_elem_of_empty|exact Hsel].
    case_bool_decide; by eexists.
  - erewrite create_or_update_node_present;
      [|apply not_elem_of_empty|exact Hsel].
    case_bool_decide; by eexists.
Qed.

(** C3. A run from r/rust with depth 3 and a budget of 2 entities, over
    an empty store: r/rust has one post, by u/alice, who also posts in
    r/coq and r/ocaml.  [_crawl_user] adds both subreddits without a look
    at the budget; the job is COMPLETED with an [entity_count] of 4. *)
Theorem crawl_exceeds_max_entities :
  ∃ c job,
    run_reddit_crawler Samples.small_reddit Samples.empty_store 100 "rust" 3 2
    = (inr 1%N, c)
    ∧ jobs (db c) !! 1%N = Some job
    ∧ status job = COMPLETED
    ∧ entity_count job = 4%Z
    ∧ (2 < entity_count job)%Z
    ∧ display_name <$> nodes (db c) = ["r/rust"; "u/alice"; "r/coq"; "r/ocaml"]
    ∧ discovered_nodes c
      = list_to_set ["reddit:subreddit:rust"; "reddit:user:alice";
                     "reddit:subreddit:coq"; "reddit:subreddit:ocaml"].
Proof.
  exists (run_reddit_crawler Samples.small_reddit Samples.empty_store 100
            "rust" 3 2).2,
         (mkCrawlJob 1 "reddit" COMPLETED 4 3 None (Some 100%N) (Some 100%N)).
  assert (Hjob : (run_reddit_crawler Samples.small_reddit Samples.empty_store
                    100 "rust" 3 2).1 = inr 1%N) by (vm_compute; reflexivity).
  split_and!.
  - rewrite (surjective_pairing (run_reddit_crawler _ _ _ _ _ _)) at 1.
    rewrite Hjob. reflexivity.
  - vm_compute. reflexivity.
  - reflexivity.
  - reflexivity.
  - reflexivity.
  - vm_compute. reflexivity.
  - apply (bool_decide_unpack _). vm_compute. reflexivity.
Qed.

(** The listing of the top posts of r/rust cannot be fetched; the run
    ends with the job COMPLETED, one entity and no error message, and the
    caller gets the job. *)
Lemma crawl_transport_failure_completed :
  top_json Samples.flaky_reddit "rust"
  = inl (ClientError "Cannot connect to host www.reddit.com")
  ∧ (run_reddit_crawler Samples.flaky_reddit Samples.empty_store 100 "rust" 2 10).1
    = inr 1%N
  ∧ jobs (db (run_reddit_crawler Samples.flaky_reddit Samples.empty_store 100
                "rust" 2 10).2) !! 1%N
    = Some (mkCrawlJob 1 "reddit" COMPLETED 1 0 None (Some 100%N) (Some 100%N)).
Proof. split_and!; vm_compute; reflexivity. Qed.

(** C5, amended. A run ends in one of two ways: the job is COMPLETED
    without an error message and the caller gets the job, or the job is
    FAILED with the description of the exception as its error message
    and the exception reaches the caller; and the exception is then not
    the failure of a fetch, which never leaves the traversal.  In
    particular, when the listing of the top posts of the seed cannot be
    fetched (and the store holds at most one row for the seed), the run
    ends COMPLETED. *)
Theorem crawl_never_fails_on_fetch w session now start_entity depth
    max_entities :
  (completed_run
     (run_reddit_crawler w session now start_entity depth max_entities)
     (next_uuid session) now
   ∨ ∃ e, ¬ transport_failure e
          ∧ failed_run
              (run_reddit_crawler w session now start_entity depth max_entities)
              (next_uuid session) now e)
  ∧ (∀ e, top_json w start_entity = inl e →
          List.length (select_node session "reddit" "subreddit"
                         (lower start_entity)) ≤ 1 →
          completed_run
            (run_reddit_crawler w session now start_entity depth max_entities)
            (next_uuid session) now).
Proof.
  split.
  - destruct (_crawl_subreddit w start_entity depth max_entities
                (entered session now)) as [[e|[]] c'] eqn:Hrun.
    + right. exists e.
      destruct (run_reddit_crawler_raised _ _ _ _ _ _ _ _ Hrun)
        as (c & job & -> & Hstore & Hjob & Hst & Hmsg & Hat).
      split; [by apply traversal_error_not_transport|]. by exists job.
    + left.
      destruct (run_reddit_crawler_returned _ _ _ _ _ _ _ Hrun)
        as (c & job & -> & Hjob & Hst & _ & Hmsg & Hat).
      by exists job.
  - intros e Htop Hrows.
    destruct (_crawl_subreddit_posts_unavailable w session now start_entity
                depth max_entities e Htop Hrows) as [c' Hrun].
    destruct (run_reddit_crawler_returned _ _ _ _ _ _ _ Hrun)
      as (c & job & -> & Hjob & Hst & _ & Hmsg & Hat).
    by exists job.
Qed.

Lemma crawl_never_fails_on_fetch_witness :
  top_json Samples.flaky_reddit "rust"
  = inl (ClientError "Cannot connect to host www.reddit.com")
  ∧ List.length (select_node Samples.empty_store "reddit" "subreddit"
                   (lower "rust")) ≤ 1
  ∧ completed_run
      (run_reddit_crawler Samples.flaky_reddit Samples.empty_store 100 "rust" 2 10)
      1 100.
Proof.
  split; [reflexivity|]. split; [simpl; lia|].
  apply (proj2 (crawl_never_fails_on_fetch Samples.flaky_reddit
                  Samples.empty_store 100 "rust" 2 10)
           (ClientError "Cannot connect to host www.reddit.com")).
  - reflexivity.
  - simpl. lia.
Defined.

(** A store that holds the seed twice: the exception of the store leaves
    the traversal, the job is FAILED and the caller gets the exception. *)
Lemma crawl_store_error_failed :
  failed_run
    (run_reddit_crawler Samples.flaky_reddit Samples.duplicated 100 "rust" 2 10)
    3 100 MultipleResultsFound.
Proof. eexists. split_and!; vm_compute; reflexivity. Qed.

(** A post whose score is [null]: the division that normalises the
    score raises TypeError after the node of the author is stored, the job
    is FAILED and the caller gets the exception. *)
Lemma crawl_null_score_failed :
  failed_run
    (run_reddit_crawler Samples.null_score_reddit Samples.empty_store 100
       "rust" 2 10)
    1 100
    (TypeError "unsupported operand type(s) for /: 'NoneType' and 'float'")
  ∧ display_name
      <$> nodes (db (run_reddit_crawler Samples.null_score_reddit
                       Samples.empty_store 100 "rust" 2 10).2)
    = ["r/rust"; "u/alice"].
Proof. split; [eexists; split_and!|]; vm_compute; reflexivity. Qed.

End Crawl.

(** ** Subgraph queries *)

Section QueryGraph.
Import GraphAPI.

Implicit Types (d : Store) (q : GraphQuery) (w : Walk).

Lemma consistent_endpoints d e :
  consistent d → e ∈ edges d →
  source_node_id e ∈ node_id <$> nodes d
  ∧ target_node_id e ∈ node_id <$> nodes d.
Proof.
  intros [_ Hends] He. by apply (proj1 (list.Forall_forall _ _) Hends).
Qed.

(** The edges over which the body of [for edge in edges] runs when the
    loop ends without an exception: stored edges of an allowed type, all
    leaving or all entering the current node as the direction says, and
    none at all for [both]. *)
Lemma visit_edges_rows d q current_id current_depth w w' :
  visit_edges q current_id current_depth w (edge_query d q current_id)
  = inr w' →
  ∃ rows, w' = fold_left (visit_edge q current_id current_depth) rows w
          ∧ ∀ e, e ∈ rows →
                 e ∈ edges d
                 ∧ type_allowed (relationship_types q) e
                 ∧ match direction q with
                   | outgoing => source_node_id e = current_id
                   | incoming => target_node_id e = current_id
                   | both => False
                   end.
Proof.
  unfold edge_query, outgoing_query, incoming_query.
  destruct (direction q) eqn:Hdir; simpl.
  - intros [= <-]. eexists. split; [done|].
    intros e. rewrite list_elem_of_filter. tauto.
  - intros [= <-]. eexists. split; [done|].
    intros e. rewrite list_elem_of_filter. tauto.
  - destruct (_ <$> _); [|done]. intros [= <-]. exists []. split; [done|].
    intros e He. by apply elem_of_nil in He.
Qed.

(** For [outgoing] and [incoming] the loop over the edges raises
    nothing. *)
Lemma visit_edges_one_way d q current_id current_depth w :
  direction q ≠ both →
  ∃ w', visit_edges q current_id current_depth w (edge_query d q current_id)
        = inr w'.
Proof.
  intros Hdir. unfold edge_query.
  destruct (direction q); [by eexists..|done].
Qed.

Lemma rows_incident (q : GraphQuery) (current_id : UUID) (e : Edge) :
  match direction q with
  | outgoing => source_node_id e = current_id
  | incoming => target_node_id e = current_id
  | both => False
  end →
  source_node_id e = current_id ∨ target_node_id e = current_id.
Proof. destruct (direction q); tauto. Qed.

(** The body of [for edge in edges] keeps the invariant, and leaves the
    nodes of the result alone. *)
Lemma visit_edge_invariant d q current_id current_depth w edge :
  consistent d → edge ∈ edges d →
  (source_node_id edge = current_id ∨ target_node_id edge = current_id) →
  current_id ∈ node_id <$> nodes_result w →
  walk_invariant d w →
  walk_invariant d (visit_edge q current_id current_depth w edge)
  ∧ nodes_result (visit_edge q current_id current_depth w edge)
    = nodes_result w.
Proof.
  intros Hd Hedge Hinc Hcur (Hq & Hcount & Hres).
  destruct (consistent_endpoints d edge Hd Hedge) as [Hs Ht].
  assert (Hnew : ∀ e, e ∈ edges_result w ++ [edge] →
            source_node_id e ∈ node_id <$> nodes_result w
            ∨ target_node_id e ∈ node_id <$> nodes_result w).
  { intros e [He|He%list_elem_of_singleton]%elem_of_app; [by apply Hres|].
    subst e. destruct Hinc as [-> | ->]; [by left|by right]. }
  unfold visit_edge. case_bool_decide; [done|].
  case_bool_decide as Hvis; (split; [|done]); split_and!; simpl; try done.
  - intros i dep [Hi|Hi%list_elem_of_singleton]%elem_of_app; [by eapply Hq|].
    injection Hi as -> _. by case_bool_decide.
  - rewrite length_app. simpl.
    rewrite size_union by (by apply disjoint_singleton_l).
    rewrite size_singleton. lia.
Qed.

Lemma visit_edges_invariant d q current_id current_depth rows :
  consistent d →
  (∀ e, e ∈ rows → e ∈ edges d
        ∧ (source_node_id e = current_id ∨ target_node_id e = current_id)) →
  ∀ w, current_id ∈ node_id <$> nodes_result w →
       walk_invariant d w →
       walk_invariant d (fold_left (visit_edge q current_id current_depth) rows w)
       ∧ nodes_result (fold_left (visit_edge q current_id current_depth) rows w)
         = nodes_result w.
Proof.
  intros Hd. induction rows as [|e rows IH]; intros Hrows w Hcur Hw; [done|].
  simpl. destruct (Hrows e) as [He Hinc]; [left|].
  destruct (visit_edge_invariant d q current_id current_depth w e)
    as [Hw' Hsame]; [done..|].
  destruct (IH (λ e' He', Hrows e' (list_elem_of_further _ _ _ He'))
              (visit_edge q current_id current_depth w e)) as [Hw'' Hsame''].
  - by rewrite Hsame.
  - done.
  - split; [done|]. by rewrite Hsame'', Hsame.
Qed.

(** The loop of [query_graph] on a consistent store, for [outgoing] and
    [incoming]: it ends within the iterations allowed for, raises
    nothing, and keeps the invariant; as soon as it has returned a node,
    the nodes of the result are fewer than [max_nodes]. *)
Lemma bfs_loop_returns d q :
  consistent d →
  direction q ≠ both →
  ∀ fuel w,
    walk_invariant d w →
    (nodes_result w = []
     ∨ (Z.of_nat (List.length (nodes_result w)) < max_nodes q)%Z) →
    Z.to_nat (max_nodes q) ≤ fuel + List.length (nodes_result w) →
    ∃ w', bfs_loop fuel d q w = Some (inr w')
          ∧ walk_invariant d w'
          ∧ (nodes_result w' = []
             ∨ (Z.of_nat (List.length (nodes_result w')) < max_nodes q)%Z).
Proof.
  intros Hd Hdir. induction fuel as [|fuel IH]; intros w Hw Hfew Hfuel.
  - destruct (queue w) as [|[current_id current_depth] rest] eqn:Hqueue.
    { exists w. simpl. by rewrite Hqueue. }
    simpl. rewrite Hqueue. case_bool_decide as Hcap; [|by exists w].
    exfalso. destruct Hw as (_ & Hcount & _). rewrite Hqueue in Hcount.
    simpl in Hcount. lia.
  - destruct (queue w) as [|[current_id current_depth] rest] eqn:Hqueue.
    { exists w. simpl. by rewrite Hqueue. }
    simpl. rewrite Hqueue. case_bool_decide as Hcap; [|by exists w].
    pose proof Hw as (Hq & Hcount & Hres).
    rewrite Hqueue in Hcount. simpl in Hcount.
    assert (Hstored : current_id ∈ node_id <$> nodes d).
    { apply (Hq current_id current_depth). rewrite Hqueue. left. }
    apply list_elem_of_fmap in Hstored as (current_node & Hid & Hnode).
    unfold select_node_by_id. rewrite Hid.
    rewrite (filter_key_unique node_id) by (done || apply Hd). simpl.
    set (w1 := mkWalk (visited_nodes w) (visited_edges w) rest
                      (nodes_result w ++ [current_node]) (edges_result w)).
    assert (Hw1 : walk_invariant d w1).
    { split_and!; simpl.
      - intros i dep Hi. apply (Hq i dep). rewrite Hqueue. by right.
      - rewrite length_app. simpl. lia.
      - intros e He. rewrite fmap_app, !elem_of_app.
        destruct (Hres e He); tauto. }
    assert (Hfew1 : (Z.of_nat (List.length (nodes_result w1)) < max_nodes q)%Z).
    { simpl. rewrite length_app. simpl. lia. }
    assert (Hcur : node_id current_node ∈ node_id <$> nodes_result w1).
    { simpl. rewrite fmap_app, elem_of_app. right. simpl. left. }
    assert (Hfuel1 : Z.to_nat (max_nodes q) ≤ fuel + List.length (nodes_result w1)).
    { simpl. rewrite length_app. simpl. lia. }
    case_bool_decide.
    + apply IH; [done|by right|done].
    + destruct (visit_edges_one_way d q (node_id current_node) current_depth
                  w1 Hdir) as [w2 Hvisit].
      rewrite Hvisit.
      destruct (visit_edges_rows _ _ _ _ _ _ Hvisit) as (rows & -> & Hrows).
      destruct (visit_edges_invariant d q (node_id current_node) current_depth
                  rows Hd) with (w := w1) as [Hw2 Hsame]; [|done..|].
      { intros e He. destruct (Hrows e He) as (? & _ & ?).
        split; [done|]. by eapply rows_incident. }
      apply IH; [done|right; by rewrite Hsame|by rewrite Hsame].
Qed.

Lemma initial_walk_invariant d q :
  start_node_id q ∈ node_id <$> nodes d → walk_invariant d (initial_walk q).
Proof.
  intros Hstart. split_and!.
  - intros i dep Hi%list_elem_of_singleton. by injection Hi as -> _.
  - change (0 + 1 = size ({[start_node_id q]} : gset N)).
    by rewrite size_singleton.
  - intros e He. by apply elem_of_nil in He.
Qed.

(** On a consistent store, an [outgoing] or [incoming] query with a
    stored start node and [max_nodes >= 1] comes to its [return]
    statement; the nodes collected are fewer than [max_nodes]; and every
    edge collected has one of its endpoints among them, the node at which
    it was found. *)
Lemma query_graph_collects d q :
  consistent d →
  direction q ≠ both →
  start_node_id q ∈ node_id <$> nodes d →
  (1 ≤ max_nodes q)%Z →
  ∃ r, query_graph d q = Some (Ok r)
       ∧ (Z.of_nat (List.length (resp_nodes r)) < max_nodes q)%Z
       ∧ ∀ e, e ∈ resp_edges r →
              source_node_id e ∈ node_id <$> resp_nodes r
              ∨ target_node_id e ∈ node_id <$> resp_nodes r.
Proof.
  intros Hd Hdir Hstart Hmax. unfold query_graph, query_graph_fuel.
  pose proof Hstart as Hstart'.
  apply list_elem_of_fmap in Hstart' as (start_node & Hid & Hnode).
  unfold select_node_by_id at 1. rewrite Hid.
  rewrite (filter_key_unique node_id) by (done || apply Hd). simpl.
  destruct (bfs_loop_returns d q Hd Hdir (Z.to_nat (max_nodes q))
              (initial_walk q))
    as (w' & -> & (_ & _ & Hres) & Hfew).
  - by apply initial_walk_invariant.
  - by left.
  - simpl. lia.
  - eexists. split; [reflexivity|]. simpl. split; [|exact Hres].
    destruct Hfew as [-> | Hfew]; [simpl; lia|exact Hfew].
Qed.

(** C6. r/rust with an edge to each of two users, asked for the
    subgraph around r/rust over outgoing edges with depth 1 and
    [max_nodes = 3].  The cutoff counts the ids that are visited, those
    still in the queue among them, so the loop stops after the start
    node: the handler comes to its [return] statement with one node,
    where three are allowed for, and with the two edges, whose targets
    are left out by nothing but the cutoff (with [max_nodes = 4] both
    are collected).  The response is never built: its constructor raises
    when it reads the degrees of the node; and for the direction [both]
    the traversal itself raises, at the first row of the union, which is
    an id and not an edge. *)
Theorem query_graph_cutoff_counts_queued :
  query_graph Samples.fan (mkGraphQuery 1 1 3 None outgoing)
  = Some (Ok (mkGraphResponse
                [Samples.node 1 "subreddit" "rust"]
                [Samples.edge 6 1 2 1; Samples.edge 7 1 3 1]))
  ∧ query_graph Samples.fan (mkGraphQuery 1 1 4 None outgoing)
    = Some (Ok (mkGraphResponse
                  [Samples.node 1 "subreddit" "rust";
                   Samples.node 2 "user" "alice"; Samples.node 3 "user" "bob"]
                  [Samples.edge 6 1 2 1; Samples.edge 7 1 3 1]))
  ∧ (∃ e, query_graph_response Samples.fan (mkGraphQuery 1 1 3 None outgoing)
          = Some (Unhandled e))
  ∧ (∃ description,
       query_graph_response Samples.fan (mkGraphQuery 1 1 3 None both)
       = Some (Unhandled (AttributeError description))).
Proof.
  split_and!; [vm_compute; reflexivity..| |].
  - exists ValidationError. vm_compute. reflexivity.
  - eexists. vm_compute. reflexivity.
Qed.

End QueryGraph.

(** ** The token bucket *)

Section TokenBucket.
Import RateLimiter.

Implicit Types (r : RateLimiter) (clock : nat → Q).

(** A refill never lifts the tokens above the rate. *)
Lemma refill_at_most_rate (rate level gain : Q) :
  (Qmin rate (level + gain) <= rate)%Q.
Proof. apply Q.le_min_l. Qed.

(** With a rate below one request per second the bucket never holds a
    whole token again: the loop of [acquire] does not end. *)
Lemma acquire_starved r :
  (requests_per_second r < 1)%Q → (tokens r < 1)%Q →
  ∀ fuel clock reading sleeps, acquire fuel clock reading sleeps r = None.
Proof.
  intros Hrate Htokens fuel. revert r Hrate Htokens.
  induction fuel as [|fuel IH]; intros r Hrate Htokens clock reading sleeps;
    simpl.
  - destruct (Qlt_le_dec (tokens r) 1) as [_|Hle]; [done|lra].
  - destruct (Qlt_le_dec (tokens r) 1) as [_|Hle]; [|lra].
    apply IH; simpl; [done|].
    eapply Qle_lt_trans; [apply refill_at_most_rate|done].
Qed.

(** A limiter made for a rate below one request per second grants
    nothing, however long the caller waits. *)
Theorem acquire_never_below_one_per_second (rate now : Q) :
  (rate < 1)%Q →
  ∀ fuel clock reading sleeps,
    acquire fuel clock reading sleeps (init rate now) = None.
Proof. intros Hrate. by apply acquire_starved. Qed.

Lemma acquire_never_below_one_per_second_witness :
  acquire 1000 (λ n, inject_Z (Z.of_nat n) * (1 # 10))%Q 0 0 (init (1 # 2) 0) = None.
Proof. apply acquire_never_below_one_per_second. reflexivity. Defined.

(** The refill of one iteration after a sleep. *)
Lemma refill_after_sleep (rate level elapsed : Q) :
  (1 <= rate)%Q → (1 # 10 <= elapsed)%Q →
  (Qmin 1 (level + (1 # 10)) <= Qmin rate (level + elapsed * rate))%Q.
Proof.
  intros Hrate Hsleep.
  assert (1 # 10 <= elapsed * rate)%Q by nra.
  apply Q.min_glb.
  - eapply Qle_trans; [apply Q.le_min_l|done].
  - eapply Qle_trans; [apply Q.le_min_r|lra].
Qed.

(** Once the caller has slept, [n] more iterations bring a bucket that is
    [n] tenths short of a token to a whole token. *)
Lemma acquire_after_sleeps clock (n : nat) : ∀ fuel reading sleeps r,
  (1 <= requests_per_second r)%Q →
  (∀ i, clock i + (1 # 10) <= clock (S i))%Q →
  (updated_at r + (1 # 10) <= clock reading)%Q →
  (1 - inject_Z (Z.of_nat n) * (1 # 10) <= tokens r)%Q →
  (tokens r <= requests_per_second r)%Q →
  (n ≤ fuel)%nat →
  ∃ r' sleeps',
    acquire fuel clock reading sleeps r = Some (r', sleeps')
    ∧ (0 <= tokens r')%Q
    ∧ (tokens r' <= requests_per_second r - 1)%Q
    ∧ requests_per_second r' = requests_per_second r
    ∧ (sleeps' ≤ sleeps + pred n)%nat.
Proof.
  induction n as [|n IH]; intros fuel reading sleeps r Hrate Hclock Hslept
    Hlevel Hcap Hfuel.
  - change (inject_Z (Z.of_nat 0)) with 0%Q in Hlevel.
    assert (1 <= tokens r)%Q by lra.
    destruct fuel; simpl; (destruct (Qlt_le_dec (tokens r) 1); [lra|]);
      eexists _, _; (split; [reflexivity|]); simpl;
      (split_and!; [lra|lra|done|lia]).
  - destruct fuel as [|fuel]; [lia|]. simpl.
    destruct (Qlt_le_dec (tokens r) 1) as [Hlow|Hfull].
    2:{ eexists _, _. split; [reflexivity|]. simpl.
        split_and!; [lra|lra|done|lia]. }
    set (tokens' := Qmin (requests_per_second r)
                      (tokens r
                       + (clock reading - updated_at r) * requests_per_second r)%Q).
    assert (Hgain : (Qmin 1 (tokens r + (1 # 10)) <= tokens')%Q).
    { apply refill_after_sleep; [done|lra]. }
    assert (Hlevel' : (1 - inject_Z (Z.of_nat n) * (1 # 10) <= tokens')%Q).
    { eapply Qle_trans; [|exact Hgain].
      rewrite Nat2Z.inj_succ in Hlevel. unfold Z.succ in Hlevel.
      rewrite inject_Z_plus in Hlevel.
      assert (0 <= inject_Z (Z.of_nat n))%Q
        by (rewrite <- (Zle_Qle 0); lia).
      change (inject_Z 1) with 1%Q in Hlevel.
      apply Q.min_glb; lra. }
    destruct (IH fuel (S reading)
                (if Qlt_le_dec tokens' 1 then S sleeps else sleeps)
                (mkRateLimiter (requests_per_second r) tokens' (clock reading)))
      as (r' & sleeps' & Hacq & Hpos & Hle & Hsame & Hsleeps); simpl.
    + done.
    + done.
    + apply Hclock.
    + exact Hlevel'.
    + apply refill_at_most_rate.
    + lia.
    + exists r', sleeps'. split; [exact Hacq|].
      simpl in Hle, Hsame. split_and!; [done|done|done|].
      destruct n as [|n].
      * change (inject_Z (Z.of_nat 0)) with 0%Q in Hlevel'.
        destruct (Qlt_le_dec tokens' 1); [lra|]. simpl in *. lia.
      * destruct (Qlt_le_dec tokens' 1); simpl in *; lia.
Qed.

(** With a rate of at least one request per second and a clock that
    every sleep advances by a tenth of a second or more, [acquire]
    returns after at most ten sleeps; it takes one token, and the tokens
    left are between 0 and the rate less one. *)
Theorem acquire_granted_within_ten_sleeps clock reading r (fuel : nat) :
  (1 <= requests_per_second r)%Q →
  (0 <= tokens r)%Q → (tokens r <= requests_per_second r)%Q →
  (updated_at r <= clock reading)%Q →
  (∀ i, clock i + (1 # 10) <= clock (S i))%Q →
  (11 ≤ fuel)%nat →
  ∃ r' sleeps,
    acquire fuel clock reading 0 r = Some (r', sleeps)
    ∧ (0 <= tokens r')%Q
    ∧ (tokens r' <= requests_per_second r - 1)%Q
    ∧ requests_per_second r' = requests_per_second r
    ∧ (sleeps ≤ 10)%nat.
Proof.
  intros Hrate Hpos Hcap Hnow Hclock Hfuel.
  destruct fuel as [|fuel]; [lia|]. simpl.
  destruct (Qlt_le_dec (tokens r) 1) as [Hlow|Hfull].
  2:{ eexists _, _. split; [reflexivity|]. simpl.
      split_and!; [lra|lra|done|lia]. }
  set (tokens' := Qmin (requests_per_second r)
                    (tokens r
                     + (clock reading - updated_at r) * requests_per_second r)%Q).
  assert (Hgain : (0 <= tokens')%Q).
  { apply Q.min_glb; [lra|].
    assert (0 <= (clock reading - updated_at r) * requests_per_second r)%Q
      by nra.
    lra. }
  destruct (acquire_after_sleeps clock 10 fuel (S reading)
              (if Qlt_le_dec tokens' 1 then 1 else 0)%nat
              (mkRateLimiter (requests_per_second r) tokens' (clock reading)))
    as (r' & sleeps' & Hacq & Hpos' & Hle & Hsame & Hsleeps); simpl.
  - done.
  - done.
  - apply Hclock.
  - change (inject_Z (Z.of_nat 10)) with 10%Q. lra.
  - apply refill_at_most_rate.
  - lia.
  - exists r', sleeps'. split; [exact Hacq|].
    simpl in Hle, Hsame, Hsleeps. split_and!; [done|done|done|].
    destruct (Qlt_le_dec tokens' 1); lia.
Qed.

Lemma acquire_granted_within_ten_sleeps_witness :
  ∃ r' sleeps,
    acquire 11 (λ n, inject_Z (Z.of_nat n) * (1 # 10))%Q 0 0
            (mkRateLimiter 2 (1 # 2) 0)
    = Some (r', sleeps)
    ∧ (0 <= tokens r')%Q ∧ (tokens r' <= 2 - 1)%Q
    ∧ requests_per_second r' = 2%Q ∧ (sleeps ≤ 10)%nat.
Proof.
  apply (acquire_granted_within_ten_sleeps
           (λ n, inject_Z (Z.of_nat n) * (1 # 10))%Q 0 (mkRateLimiter 2 (1 # 2) 0) 11).
  - simpl. lra.
  - simpl. lra.
  - simpl. lra.
  - simpl. vm_compute. discriminate.
  - intros i. rewrite Nat2Z.inj_succ. unfold Z.succ.
    rewrite inject_Z_plus. change (inject_Z 1) with 1%Q. lra.
  - lia.
Defined.

End TokenBucket.

(** ** The job routes and the background task *)

Section Jobs.
Import BaseCrawler RedditCrawler CrawlAPI.

Implicit Types (d session : Store) (w : Reddit).

(** A run of the Reddit crawler writes one row of the job table, the row
    of the job that it creates itself. *)
Lemma run_reddit_crawler_other_jobs w session now start_entity depth
    max_entities jid :
  jid ≠ next_uuid session →
  jobs (db (run_reddit_crawler w session now start_entity depth
              max_entities).2) !! jid
  = jobs session !! jid.
Proof.
  intros Hne. rewrite run_reddit_crawler_traversal.
  destruct (_crawl_subreddit_keeps_jobs w start_entity depth max_entities
              (entered session now)) as (Hjobs & _).
  assert (Hentered : jobs (db (entered session now)) !! jid = jobs session !! jid).
  { unfold entered. rewrite create_crawl_job_row, update_crawl_job_row. simpl.
    by rewrite lookup_alter_ne, lookup_insert_ne. }
  destruct (_crawl_subreddit _ _ _ _ _) as [[e|[]] c'];
    rewrite update_crawl_job_row; cbn [snd with_db db jobs] in *;
    by rewrite lookup_alter_ne, Hjobs.
Qed.

(** The job that [start_crawl] returns to the client is not the job of
    the run that it schedules: [crawl] creates a job of its own, and
    [run_crawler_task] is not given the id of the first.  Whatever the
    source and however the run ends, the client's job is afterwards as
    [start_crawl] made it, PENDING and without counts or timestamps. *)
Theorem start_crawl_job_stays_pending w d source start_entity depth
    max_entities now :
  get_crawl_job
    (run_crawler_task w source start_entity depth max_entities
       (start_crawl d source).2 now)
    (start_crawl d source).1
  = Ok (mkCrawlJob (next_uuid d) source PENDING 0 0 None None None).
Proof.
  unfold get_crawl_job, run_crawler_task. cbn [start_crawl fst snd].
  case_bool_decide.
  - rewrite run_reddit_crawler_other_jobs by (cbn [next_uuid]; lia).
    cbn [jobs]. by rewrite lookup_insert_eq.
  - cbn [jobs]. by rewrite lookup_insert_eq.
Qed.

(** A job that is cancelled while it runs: the time it has taken stops at
    the time of the request, whenever it is read later. *)
Theorem cancelled_job_duration d jid now j started :
  jobs d !! jid = Some j →
  is_finished j = false →
  started_at j = Some started → completed_at j = None →
  ∃ j', get_crawl_job (cancel_crawl_job d jid now).2 jid = Ok j'
        ∧ status j' = CANCELLED
        ∧ ∀ later, duration_seconds j' later = (Z.of_N now - Z.of_N started)%Z.
Proof.
  intros Hj Hactive Hstarted Hcompleted.
  unfold cancel_crawl_job, get_crawl_job. rewrite Hj, Hactive. cbn [snd jobs].
  rewrite lookup_insert_eq. eexists. split; [reflexivity|].
  split; [reflexivity|]. intros later. unfold duration_seconds. simpl.
  rewrite Hstarted, Hcompleted. by rewrite bool_decide_eq_false_2 by by intros [].
Qed.

Lemma cancelled_job_duration_witness :
  ∃ j', get_crawl_job (cancel_crawl_job Samples.job_table 1 30).2 1 = Ok j'
        ∧ status j' = CANCELLED
        ∧ ∀ later, duration_seconds j' later = (Z.of_N 30 - Z.of_N 10)%Z.
Proof.
  apply (cancelled_job_duration Samples.job_table 1 30
           (mkCrawlJob 1 "reddit" RUNNING 0 0 None (Some 10%N) None) 10).
  - vm_compute. reflexivity.
  - reflexivity.
  - reflexivity.
  - reflexivity.
Defined.

End Jobs.

(** ** The entity budget of a run *)

Section Budget.
Import BaseCrawler RedditCrawler.

Implicit Types (c : Crawler) (w : Reddit).

(** What [create_or_update_node] does to [discovered_nodes]: the key of
    the node is in it when the call returns, nothing changes when it
    raises. *)
Lemma create_or_update_node_entities c etype eid name metadata :
  source_name (create_or_update_node etype eid name metadata c).2
  = source_name c
  ∧ match (create_or_update_node etype eid name metadata c).1 with
    | inl _ =>
        discovered_nodes (create_or_update_node etype eid name metadata c).2
        = discovered_nodes c
    | inr _ =>
        discovered_nodes (create_or_update_node etype eid name metadata c).2
        = {[unique_key (source_name c) etype eid]} ∪ discovered_nodes c
    end.
Proof.
  unfold create_or_update_node, bind, get, lift, put, ret. simpl.
  case_bool_decide as Hkey.
  { split; [done|]. destruct (scalar_one _); simpl; [done|].
    symmetry. apply subseteq_union_1_L. by apply singleton_subseteq_l. }
  destruct (scalar_one_or_none _) as [e|[n|]]; simpl; done.
Qed.

Lemma create_edge_entities c source_node target_node rel weight metadata :
  source_name (create_edge source_node target_node rel weight metadata c).2
  = source_name c
  ∧ discovered_nodes
      (create_edge source_node target_node rel weight metadata c).2
    = discovered_nodes c.
Proof.
  unfold create_edge, bind, get, lift, put, ret. simpl.
  case_bool_decide; [done|].
  destruct (scalar_one_or_none _) as [e|[n|]]; simpl; done.
Qed.

Lemma entities_add c c' (key : string) :
  discovered_nodes c' = {[key]} ∪ discovered_nodes c →
  (entities c ≤ entities c' ≤ entities c + 1)%Z.
Proof.
  unfold entities. intros ->. split.
  - apply inj_le, subseteq_size, union_subseteq_r.
  - pose proof (size_union_alt ({[key]} : gset string) (discovered_nodes c)).
    pose proof (subseteq_size (discovered_nodes c ∖ {[key]}) (discovered_nodes c)
                  (subseteq_difference_l _ _ _ (reflexivity _))).
    rewrite size_singleton in *. lia.
Qed.

(** A loop whose body adds one key at most adds one key at most for each
    item. *)
Lemma for_each_entities {A} (body : A → M unit) (items : list A) :
  (∀ x c, (entities (body x c).2 ≤ entities c + 1)%Z) →
  ∀ c, (entities (for_each items body c).2
        ≤ entities c + Z.of_nat (List.length items))%Z.
Proof.
  intros Hbody. induction items as [|x items IH]; intros c.
  - simpl. lia.
  - cbn [for_each]. unfold bind at 1. specialize (Hbody x c).
    destruct (body x c) as [[e|[]] c1]; cbn [fst snd] in *.
    + simpl. lia.
    + specialize (IH c1). simpl List.length. lia.
Qed.

(** The body of the loop of [_crawl_user] over the subreddits. *)
Lemma subreddit_entities user_node (name : string) (count : Z) c :
  (entities
     (bind (create_or_update_node "subreddit" (lower name) ("r/" +:+ name)
              (Some ∅))
        (λ subreddit_node,
           bind (create_edge user_node subreddit_node "posts_in"
                   (subreddit_weight count)
                   (Some {["post_count" := JInt count]}))
                (λ _, ret tt)) c).2
   ≤ entities c + 1)%Z.
Proof.
  unfold bind at 1.
  pose proof (create_or_update_node_entities c "subreddit" (lower name)
                ("r/" +:+ name) (Some ∅)) as [_ Hdisc].
  destruct (create_or_update_node _ _ _ _ c) as [[e|subreddit_node] c1].
  { simpl in *. unfold entities. rewrite Hdisc. lia. }
  simpl in Hdisc. apply entities_add in Hdisc.
  unfold bind at 1.
  pose proof (create_edge_entities c1 user_node subreddit_node "posts_in"
                (subreddit_weight count)
                (Some {["post_count" := JInt count]})) as [_ Hdisc2].
  destruct (create_edge _ _ _ _ _ c1) as [[e|edge] c2];
    simpl in *; unfold entities in *; rewrite Hdisc2; lia.
Qed.

(** [_crawl_user] for a user whose node the run has stored already: the
    keys added are those of the subreddits, [max_subreddits] at most. *)
Lemma _crawl_user_entities w username max_subreddits c :
  unique_key (source_name c) "user" (lower username) ∈ discovered_nodes c →
  (entities (_crawl_user w username max_subreddits c).2
   ≤ entities c + Z.of_nat max_subreddits)%Z.
Proof.
  intros Hkey. unfold _crawl_user. unfold bind at 1.
  rewrite create_or_update_node_discovered by done.
  destruct (scalar_one _) as [e|user_node]; [simpl; lia|].
  pose proof (for_each_entities
                (λ '(name, count),
                   bind (create_or_update_node "subreddit" (lower name)
                           ("r/" +:+ name) (Some ∅))
                     (λ subreddit_node,
                        bind (create_edge user_node subreddit_node "posts_in"
                                (subreddit_weight count)
                                (Some {["post_count" := JInt count]}))
                             (λ _, ret tt)))
                (take max_subreddits
                   (sorted_desc
                      (subreddit_counts (_fetch_user_posts w username))))
                (λ '(name, count) c, subreddit_entities user_node name count c)
                c) as Hcount.
  rewrite length_take in Hcount. simpl in Hcount. etrans; [exact Hcount|]. lia.
Qed.

(** The loop over the posts never leaves the bound: it looks at the
    budget before each user, and a user adds one key of its own and, from
    depth 3 on, five keys of subreddits at most. *)
Lemma posts_loop_budget w depth max_entities subreddit_node posts : ∀ c,
  (entities c ≤ max_entities + overshoot depth)%Z →
  (entities (posts_loop w depth max_entities subreddit_node posts c).2
   ≤ max_entities + overshoot depth)%Z.
Proof.
  induction posts as [|post rest IH]; intros c Hc; [done|].
  simpl. unfold bind at 1. cbn [get].
  unfold budget_exhausted. case_bool_decide as Hfull; [done|].
  destruct (author post) as [name|]; [|by apply IH].
  destruct (_ || _); [by apply IH|].
  assert (Hroom : (entities c < max_entities)%Z) by (unfold entities; lia).
  assert (Hover : (0 ≤ overshoot depth)%Z)
    by (unfold overshoot; case_bool_decide; lia).
  unfold bind at 1.
  pose proof (create_or_update_node_entities c "user" (lower name)
                ("u/" +:+ name)
                (Some {["post_karma" := JInt 0; "comment_karma" := JInt 0]}))
    as [Hsrc Hdisc].
  destruct (create_or_update_node _ _ _ _ c) as [[e|user_node] c1].
  { simpl in *. unfold entities in *. rewrite Hdisc. lia. }
  simpl in Hsrc, Hdisc.
  assert (Hkey : unique_key (source_name c1) "user" (lower name)
                 ∈ discovered_nodes c1).
  { rewrite Hsrc, Hdisc. apply elem_of_union_l. by apply elem_of_singleton. }
  apply entities_add in Hdisc.
  unfold bind at 1. unfold lift at 1.
  destruct (score_weight (score post)) as [e|weight]; [simpl; lia|].
  unfold bind at 1.
  match goal with
  | |- context [create_edge ?s ?t ?r ?x ?m c1] =>
      pose proof (create_edge_entities c1 s t r x m) as [Hsrc2 Hdisc2];
      destruct (create_edge s t r x m c1) as [[e|edge] c2]
  end.
  { simpl in *. unfold entities in *. rewrite Hdisc2. lia. }
  simpl in Hsrc2, Hdisc2.
  assert (Hsame : entities c2 = entities c1)
    by (unfold entities; by rewrite Hdisc2).
  unfold bind at 1. unfold overshoot in *. case_bool_decide as Hdeep.
  - pose proof (_crawl_user_entities w name 5 c2) as Huser.
    rewrite Hsrc2, Hdisc2 in Huser. specialize (Huser Hkey).
    destruct (_crawl_user w name 5 c2) as [[e|[]] c3]; simpl in Huser.
    + simpl. lia.
    + apply IH. lia.
  - unfold ret at 1. apply IH. lia.
Qed.

Lemma _crawl_subreddit_budget w subreddit_name depth max_entities c :
  (entities c ≤ max_entities + overshoot depth)%Z →
  (entities (_crawl_subreddit w subreddit_name depth max_entities c).2
   ≤ max_entities + overshoot depth)%Z.
Proof.
  intros Hc. unfold _crawl_subreddit. unfold bind at 1. cbn [get].
  unfold budget_exhausted. case_bool_decide as Hfull; [done|].
  destruct (_fetch_subreddit_info w subreddit_name) as [data|]; [|done].
  case_bool_decide; [done|].
  assert (Hover : (0 ≤ overshoot depth)%Z)
    by (unfold overshoot; case_bool_decide; lia).
  unfold bind at 1.
  match goal with
  | |- context [create_or_update_node ?t ?i ?n ?m c] =>
      pose proof (create_or_update_node_entities c t i n m) as [Hsrc Hdisc];
      destruct (create_or_update_node t i n m c) as [[e|subreddit_node] c1]
  end.
  { simpl in *. unfold entities in *. rewrite Hdisc. lia. }
  simpl in Hdisc. apply entities_add in Hdisc.
  assert (entities c < max_entities)%Z by (unfold entities; lia).
  case_bool_decide; [simpl; lia|].
  apply posts_loop_budget. lia.
Qed.

(** However a run ends, the [entity_count] of its job is at most
    [max_entities] for a depth below 3, and at most [max_entities + 5]
    for any depth. *)
Theorem crawl_entity_count_bound w session now start_entity depth
    max_entities :
  (0 ≤ max_entities)%Z →
  ∃ job,
    jobs (db (run_reddit_crawler w session now start_entity depth
                max_entities).2) !! next_uuid session = Some job
    ∧ (0 ≤ entity_count job ≤ max_entities + overshoot depth)%Z.
Proof.
  intros Hmax. rewrite run_reddit_crawler_traversal.
  destruct (_crawl_subreddit_keeps_jobs w start_entity depth max_entities
              (entered session now)) as (Hjobs & _).
  pose proof (_crawl_subreddit_budget w start_entity depth max_entities
                (entered session now)) as Hbudget.
  assert (Hover : (0 ≤ overshoot depth)%Z)
    by (unfold overshoot; case_bool_decide; lia).
  destruct (_crawl_subreddit _ _ _ _ _) as [[e|[]] c'];
    rewrite update_crawl_job_row; cbn [fst snd with_db db jobs] in *;
    rewrite lookup_alter_eq, Hjobs, entered_job; simpl;
    (eexists; split; [reflexivity|]); simpl.
  - lia.
  - fold (entities c'). split; [unfold entities; lia|].
    apply Hbudget. unfold entities.
    replace (discovered_nodes (entered session now)) with (∅ : gset string)
      by reflexivity.
    rewrite size_empty. lia.
Qed.

Lemma crawl_entity_count_bound_witness :
  ∃ job,
    jobs (db (run_reddit_crawler Samples.small_reddit Samples.empty_store 100
                "rust" 3 2).2) !! next_uuid Samples.empty_store = Some job
    ∧ (0 ≤ entity_count job ≤ 2 + overshoot 3)%Z.
Proof.
  apply (crawl_entity_count_bound Samples.small_reddit Samples.empty_store 100
           "rust" 3 2).
  lia.
Defined.

End Budget.

(** ** What a run does to the node and edge tables *)

Section Preserved.
Import BaseCrawler RedditCrawler.

Variable R : relation Crawler.
Hypothesis R_refl : ∀ c, R c c.
Hypothesis R_trans : ∀ c1 c2 c3, R c1 c2 → R c2 c3 → R c1 c3.

Lemma preserves_ret {A} (a : A) : preserves R (ret a).
Proof using R_refl. intros c. apply R_refl. Qed.

Lemma preserves_bind {A B} (m : M A) (k : A → M B) :
  preserves R m → (∀ a, preserves R (k a)) → preserves R (bind m k).
Proof using R_trans.
  intros Hm Hk c. unfold bind. specialize (Hm c).
  destruct (m c) as [[e|a] c']; [exact Hm|].
  eapply R_trans; [exact Hm|apply Hk].
Qed.

Lemma preserves_get_then {B} (k : Crawler → M B) :
  (∀ c, preserves R (k c)) → preserves R (bind get k).
Proof using Type. intros Hk c. apply (Hk c c). Qed.

Lemma preserves_try_except {A} (body : M A) (handler : Exn → M A) :
  preserves R body → (∀ e, preserves R (handler e)) →
  preserves R (try_except body handler).
Proof using R_trans.
  intros Hbody Hhandler c. unfold try_except. specialize (Hbody c).
  destruct (body c) as [[e|a] c']; [|exact Hbody].
  eapply R_trans; [exact Hbody|apply Hhandler].
Qed.

Lemma preserves_lift {A} (r : Exn + A) : preserves R (lift r).
Proof using R_refl. intros c. apply R_refl. Qed.

Lemma for_each_preserves {A} (xs : list A) (body : A → M unit) :
  (∀ x, preserves R (body x)) → preserves R (for_each xs body).
Proof using R_refl R_trans.
  intros Hbody. induction xs as [|x xs IH]; simpl.
  - apply preserves_ret.
  - apply preserves_bind; [apply Hbody|]. intros _. exact IH.
Qed.

Hypothesis R_node : ∀ etype eid name metadata,
  preserves R (create_or_update_node etype eid name metadata).
Hypothesis R_edge : ∀ source_node target_node rel weight metadata,
  preserves R (create_edge source_node target_node rel weight metadata).

Lemma _crawl_user_preserves w username max_subreddits :
  preserves R (_crawl_user w username max_subreddits).
Proof using All.
  unfold _crawl_user. apply preserves_bind; [apply R_node|].
  intros user_node. apply for_each_preserves. intros [name count].
  apply preserves_bind; [apply R_node|]. intros subreddit_node.
  apply preserves_bind; [apply R_edge|]. intros _. apply preserves_ret.
Qed.

Lemma posts_loop_preserves w depth max_entities subreddit_node posts :
  preserves R (posts_loop w depth max_entities subreddit_node posts).
Proof using All.
  induction posts as [|post rest IH]; simpl.
  - apply preserves_ret.
  - apply preserves_get_then. intros c.
    destruct (budget_exhausted c max_entities); [apply preserves_ret|].
    destruct (author post) as [name|]; [|exact IH].
    destruct (_ || _); [exact IH|].
    apply preserves_bind; [apply R_node|]. intros user_node.
    apply preserves_bind; [apply preserves_lift|]. intros weight.
    apply preserves_bind; [apply R_edge|]. intros _.
    apply preserves_bind; [|intros _; exact IH].
    case_bool_decide; [apply _crawl_user_preserves|apply preserves_ret].
Qed.

Lemma _crawl_subreddit_preserves w subreddit_name depth max_entities :
  preserves R (_crawl_subreddit w subreddit_name depth max_entities).
Proof using All.
  unfold _crawl_subreddit. apply preserves_get_then. intros c.
  destruct (budget_exhausted c max_entities); [apply preserves_ret|].
  destruct (_fetch_subreddit_info w subreddit_name) as [data|];
    [|apply preserves_ret].
  case_bool_decide; [apply preserves_ret|].
  apply preserves_bind; [apply R_node|]. intros subreddit_node.
  case_bool_decide; [apply preserves_ret|apply posts_loop_preserves].
Qed.

Hypothesis R_job : preserves R create_crawl_job.
Hypothesis R_update : ∀ job st entities edges_n err,
  preserves R (update_crawl_job job st entities edges_n err).

Lemma crawl_preserves w start_entity depth max_entities :
  preserves R (crawl w start_entity depth max_entities).
Proof using All.
  unfold crawl. apply preserves_bind; [apply R_job|]. intros job.
  apply preserves_try_except.
  - apply preserves_bind; [apply R_update|]. intros _.
    apply preserves_bind; [apply _crawl_subreddit_preserves|]. intros _.
    apply preserves_get_then. intros c.
    apply preserves_bind; [apply R_update|]. intros _. apply preserves_ret.
  - intros e. apply preserves_bind; [apply R_update|]. intros _.
    intros c. apply R_refl.
Qed.

End Preserved.

Section Rows.
Import BaseCrawler RedditCrawler CrawlAPI.

Implicit Types (c : Crawler) (w : Reddit) (session : Store).

Lemma scalar_one_or_none_some {A} (rows : list A) (x : A) :
  scalar_one_or_none rows = inr (Some x) → rows = [x].
Proof. destruct rows as [|y [|z rows]]; simpl; congruence. Qed.

Lemma scalar_one_or_none_none {A} (rows : list A) :
  scalar_one_or_none rows = inr None → rows = [].
Proof. destruct rows as [|y [|z rows]]; simpl; congruence. Qed.

Lemma size_add_fresh `{Countable K} (key : K) (s : gset K) :
  key ∉ s → size ({[key]} ∪ s) = S (size s).
Proof.
  intros Hkey. rewrite size_union by (by apply disjoint_singleton_l).
  by rewrite size_singleton.
Qed.

(** *** Rows of other sources *)

Lemma own_source_refl c : own_source c c.
Proof. split; [done|]. intros n Hn. by left. Qed.

Lemma own_source_trans c1 c2 c3 :
  own_source c1 c2 → own_source c2 c3 → own_source c1 c3.
Proof.
  intros [Hs12 H12] [Hs23 H23]. split; [congruence|].
  intros n Hn. destruct (H23 n Hn) as [Hn2|Hsrc]; [by apply H12|].
  right. congruence.
Qed.

Lemma create_or_update_node_own_source etype eid name metadata :
  preserves own_source (create_or_update_node etype eid name metadata).
Proof.
  intros c. unfold create_or_update_node, bind, get, lift, put, ret. simpl.
  case_bool_decide; [apply own_source_refl|].
  destruct (scalar_one_or_none _) as [e|[node|]] eqn:Hrows; simpl;
    [apply own_source_refl| |]; (split; [done|]); simpl; intros n Hn.
  - apply scalar_one_or_none_some in Hrows.
    assert (Hnode : node ∈ select_node (db c) (source_name c) etype eid)
      by (rewrite Hrows; left).
    apply list_elem_of_filter in Hnode as [(Hsrc & _) _].
    apply list_elem_of_fmap in Hn as (old & -> & Hold).
    case_bool_decide; [by right|by left].
  - apply elem_of_app in Hn as [Hn|Hn%list_elem_of_singleton]; [by left|].
    subst n. by right.
Qed.

Lemma create_edge_own_source source_node target_node rel weight metadata :
  preserves own_source (create_edge source_node target_node rel weight metadata).
Proof.
  intros c. unfold create_edge, bind, get, lift, put, ret. simpl.
  case_bool_decide; [apply own_source_refl|].
  destruct (scalar_one_or_none _) as [e|[edge|]]; simpl;
    [apply own_source_refl| |]; (split; [done|]); simpl; intros n Hn;
    by left.
Qed.

Lemma create_crawl_job_own_source : preserves own_source create_crawl_job.
Proof. intros c. split; [done|]. intros n Hn. by left. Qed.

Lemma update_crawl_job_own_source job st entities edges_n err :
  preserves own_source (update_crawl_job job st entities edges_n err).
Proof. intros c. split; [done|]. intros n Hn. by left. Qed.

(** The node rows after the background task, whatever its source and
    however it ends: rows that the table held before, and rows whose
    source is reddit.  No row of another source is added or rewritten. *)
Theorem run_crawler_task_own_source w source0 start_entity depth max_entities
    session now (n : Node) :
  n ∈ nodes (run_crawler_task w source0 start_entity depth max_entities
               session now) →
  n ∈ nodes session ∨ source n = "reddit".
Proof.
  unfold run_crawler_task, run_reddit_crawler.
  case_bool_decide; [|by left]. intros Hn.
  by apply (crawl_preserves own_source own_source_refl own_source_trans
              create_or_update_node_own_source create_edge_own_source
              create_crawl_job_own_source update_crawl_job_own_source
              w start_entity depth max_entities
              (init session get_source_name now)).
Qed.

Lemma run_crawler_task_own_source_witness :
  mkNode 2 "subreddit" "rust" "reddit" "r/rust"
    {["subscribers" := JInt 5; "description" := JStr "";
      "created_utc" := JInt 0; "over18" := JBool false]}
  ∈ nodes Samples.empty_store
  ∨ source (mkNode 2 "subreddit" "rust" "reddit" "r/rust"
              {["subscribers" := JInt 5; "description" := JStr "";
                "created_utc" := JInt 0; "over18" := JBool false]})
    = "reddit".
Proof.
  apply (run_crawler_task_own_source Samples.flaky_reddit "reddit" "rust" 2 10
           Samples.empty_store 100).
  vm_compute. left.
Defined.

(** *** Rows and counts *)

Lemma accounted_refl c : accounted c c.
Proof. unfold accounted. lia. Qed.

Lemma accounted_trans c1 c2 c3 :
  accounted c1 c2 → accounted c2 c3 → accounted c1 c3.
Proof. unfold accounted. lia. Qed.

Lemma create_or_update_node_accounted etype eid name metadata :
  preserves accounted (create_or_update_node etype eid name metadata).
Proof.
  intros c. unfold create_or_update_node, bind, get, lift, put, ret. simpl.
  case_bool_decide as Hkey; [apply accounted_refl|].
  destruct (scalar_one_or_none _) as [e|[node|]]; simpl;
    [apply accounted_refl| |]; unfold accounted; simpl;
    rewrite ?length_map, ?length_app, (size_add_fresh _ _ Hkey); simpl; lia.
Qed.

Lemma create_edge_accounted source_node target_node rel weight metadata :
  preserves accounted (create_edge source_node target_node rel weight metadata).
Proof.
  intros c. unfold create_edge, bind, get, lift, put, ret. simpl.
  case_bool_decide as Hkey; [apply accounted_refl|].
  destruct (scalar_one_or_none _) as [e|[edge|]]; simpl;
    [apply accounted_refl| |]; unfold accounted; simpl;
    rewrite ?length_map, ?length_app, (size_add_fresh _ _ Hkey); simpl; lia.
Qed.

Lemma create_crawl_job_accounted : preserves accounted create_crawl_job.
Proof. intros c. unfold accounted. simpl. lia. Qed.

Lemma update_crawl_job_accounted job st entities edges_n err :
  preserves accounted (update_crawl_job job st entities edges_n err).
Proof. intros c. unfold accounted. simpl. lia. Qed.

(** A run removes no row, and the counts of a job that it completes are
    upper bounds of the rows that it has added: a node or an edge that
    the tables held before is counted, but not added. *)
Theorem completed_run_counts w session now start_entity depth max_entities
    job c :
  run_reddit_crawler w session now start_entity depth max_entities
  = (inr job, c) →
  ∃ row,
    jobs (db c) !! job = Some row
    ∧ status row = COMPLETED
    ∧ (Z.of_nat (List.length (nodes session))
       ≤ Z.of_nat (List.length (nodes (db c)))
       ≤ Z.of_nat (List.length (nodes session)) + entity_count row)%Z
    ∧ (Z.of_nat (List.length (edges session))
       ≤ Z.of_nat (List.length (edges (db c)))
       ≤ Z.of_nat (List.length (edges session)) + edge_count row)%Z.
Proof.
  intros Hrun.
  pose proof (crawl_preserves accounted accounted_refl accounted_trans
                create_or_update_node_accounted create_edge_accounted
                create_crawl_job_accounted update_crawl_job_accounted
                w start_entity depth max_entities
                (init session get_source_name now)) as Hrows.
  fold (run_reddit_crawler w session now start_entity depth max_entities)
    in Hrows.
  rewrite Hrun in Hrows. unfold accounted in Hrows.
  cbn [init fst snd db nodes edges discovered_nodes discovered_edges] in Hrows.
  rewrite !size_empty in Hrows.
  rewrite run_reddit_crawler_traversal in Hrun.
  destruct (_crawl_subreddit_keeps_jobs w start_entity depth max_entities
              (entered session now)) as (Hjobs & _).
  destruct (_crawl_subreddit _ _ _ _ _) as [[e|[]] c']; [done|].
  injection Hrun as <- <-.
  cbn [fst snd with_db db jobs nodes edges discovered_nodes discovered_edges]
    in *.
  rewrite lookup_alter_eq, Hjobs, entered_job. simpl.
  eexists. split; [reflexivity|]. simpl. split; [reflexivity|]. lia.
Qed.

Lemma completed_run_counts_witness :
  ∃ row,
    jobs (db (run_reddit_crawler Samples.flaky_reddit Samples.empty_store 100
                "rust" 2 10).2) !! 1%N = Some row
    ∧ status row = COMPLETED
    ∧ (Z.of_nat (List.length (nodes Samples.empty_store))
       ≤ Z.of_nat (List.length
                     (nodes (db (run_reddit_crawler Samples.flaky_reddit
                                   Samples.empty_store 100 "rust" 2 10).2)))
       ≤ Z.of_nat (List.length (nodes Samples.empty_store)) + entity_count row)%Z
    ∧ (Z.of_nat (List.length (edges Samples.empty_store))
       ≤ Z.of_nat (List.length
                     (edges (db (run_reddit_crawler Samples.flaky_reddit
                                   Samples.empty_store 100 "rust" 2 10).2)))
       ≤ Z.of_nat (List.length (edges Samples.empty_store)) + edge_count row)%Z.
Proof.
  apply (completed_run_counts Samples.flaky_reddit Samples.empty_store 100
           "rust" 2 10 1).
  vm_compute. reflexivity.
Defined.

End Rows.

(** ** Seeds and posts that yield nothing *)

Section Seeds.
Import BaseCrawler RedditCrawler.

Implicit Types (c : Crawler) (w : Reddit) (session : Store).

(** Posts without an author, with an empty author or with the author
    [[deleted]]: the loop over them stores nothing and raises nothing,
    whatever the depth and the budget. *)
Theorem posts_loop_skips_deleted w depth max_entities subreddit_node posts c :
  Forall (λ post, author post = None ∨ author post = Some ""
                  ∨ author post = Some "[deleted]") posts →
  posts_loop w depth max_entities subreddit_node posts c = (inr tt, c).
Proof.
  intros Hposts. induction Hposts as [|post rest Hpost _ IH]; [done|].
  simpl. unfold bind at 1. cbn [get].
  destruct (budget_exhausted c max_entities); [done|].
  destruct Hpost as [-> | [-> | ->]]; exact IH.
Qed.

Lemma posts_loop_skips_deleted_witness :
  posts_loop Samples.small_reddit 3 10 Samples.rust
    [mkPost None None None None None None;
     mkPost (Some "[deleted]") (Some (JInt 7)) None None None None;
     mkPost (Some "") None None None None None]
    (Samples.run Samples.two_nodes)
  = (inr tt, Samples.run Samples.two_nodes).
Proof.
  apply posts_loop_skips_deleted.
  repeat constructor; simpl; tauto.
Defined.

(** The job row that a traversal leaves when it returns. *)
Lemma run_reddit_crawler_completed w session now start_entity depth
    max_entities c' :
  _crawl_subreddit w start_entity depth max_entities (entered session now)
  = (inr tt, c') →
  (run_reddit_crawler w session now start_entity depth max_entities).1
  = inr (next_uuid session)
  ∧ jobs (db (run_reddit_crawler w session now start_entity depth
                max_entities).2) !! next_uuid session
    = Some (mkCrawlJob (next_uuid session) "reddit" COMPLETED
              (Z.of_nat (size (discovered_nodes c')))
              (Z.of_nat (size (discovered_edges c')))
              None (Some now) (Some now))
  ∧ nodes (db (run_reddit_crawler w session now start_entity depth
                 max_entities).2) = nodes (db c')
  ∧ edges (db (run_reddit_crawler w session now start_entity depth
                 max_entities).2) = edges (db c').
Proof.
  intros Hrun. rewrite run_reddit_crawler_traversal, Hrun.
  destruct (_crawl_subreddit_keeps_jobs w start_entity depth max_entities
              (entered session now)) as (Hjobs & Hnow & _).
  rewrite Hrun in Hjobs, Hnow. cbn [snd] in Hjobs, Hnow.
  rewrite update_crawl_job_row. cbn [fst snd with_db db jobs nodes edges].
  rewrite lookup_alter_eq, Hjobs, entered_job. simpl.
  rewrite Hnow. done.
Qed.

(** A seed whose [about.json] cannot be fetched, or is empty: the run
    does not fail.  Its job is COMPLETED with counts 0 and without an
    error message, and the node and edge tables are as before. *)
Theorem crawl_unknown_subreddit w session now start_entity depth max_entities :
  _fetch_subreddit_info w start_entity = None
  ∨ _fetch_subreddit_info w start_entity = Some ∅ →
  (run_reddit_crawler w session now start_entity depth max_entities).1
  = inr (next_uuid session)
  ∧ jobs (db (run_reddit_crawler w session now start_entity depth
                max_entities).2) !! next_uuid session
    = Some (mkCrawlJob (next_uuid session) "reddit" COMPLETED 0 0 None
              (Some now) (Some now))
  ∧ nodes (db (run_reddit_crawler w session now start_entity depth
                 max_entities).2) = nodes session
  ∧ edges (db (run_reddit_crawler w session now start_entity depth
                 max_entities).2) = edges session.
Proof.
  intros Hinfo.
  assert (Hrun : _crawl_subreddit w start_entity depth max_entities
                   (entered session now) = (inr tt, entered session now)).
  { unfold _crawl_subreddit. unfold bind at 1. cbn [get].
    destruct (budget_exhausted _ _); [done|].
    destruct Hinfo as [-> | ->]; [done|].
    by rewrite bool_decide_eq_true_2. }
  apply run_reddit_crawler_completed in Hrun. exact Hrun.
Qed.

Lemma crawl_unknown_subreddit_witness :
  (run_reddit_crawler Samples.small_reddit Samples.linked_pair 100 "nosuch" 3
     10).1 = inr (next_uuid Samples.linked_pair)
  ∧ jobs (db (run_reddit_crawler Samples.small_reddit Samples.linked_pair 100
                "nosuch" 3 10).2) !! next_uuid Samples.linked_pair
    = Some (mkCrawlJob (next_uuid Samples.linked_pair) "reddit" COMPLETED 0 0
              None (Some 100%N) (Some 100%N))
  ∧ nodes (db (run_reddit_crawler Samples.small_reddit Samples.linked_pair 100
                 "nosuch" 3 10).2) = nodes Samples.linked_pair
  ∧ edges (db (run_reddit_crawler Samples.small_reddit Samples.linked_pair 100
                 "nosuch" 3 10).2) = edges Samples.linked_pair.
Proof.
  apply (crawl_unknown_subreddit Samples.small_reddit Samples.linked_pair 100
           "nosuch" 3 10).
  left. reflexivity.
Defined.

Lemma create_or_update_node_edges c etype eid name metadata :
  edges (db (create_or_update_node etype eid name metadata c).2) = edges (db c)
  ∧ discovered_edges (create_or_update_node etype eid name metadata c).2
    = discovered_edges c.
Proof.
  unfold create_or_update_node, bind, get, lift, put, ret. simpl.
  case_bool_decide; [done|].
  destruct (scalar_one_or_none _) as [e|[n|]]; simpl; done.
Qed.

(** A run of a depth below 2 stops at the seed: it fetches no posts,
    writes no edge and counts one entity at most. *)
Theorem crawl_depth_below_two w session now start_entity depth max_entities :
  (depth < 2)%Z →
  ∃ job,
    jobs (db (run_reddit_crawler w session now start_entity depth
                max_entities).2) !! next_uuid session = Some job
    ∧ (0 ≤ entity_count job ≤ 1)%Z
    ∧ edge_count job = 0%Z
    ∧ edges (db (run_reddit_crawler w session now start_entity depth
                   max_entities).2) = edges session.
Proof.
  intros Hdepth.
  assert (Hrun : ∃ r c',
             _crawl_subreddit w start_entity depth max_entities
               (entered session now) = (r, c')
             ∧ size (discovered_nodes c') ≤ 1
             ∧ discovered_edges c' = ∅
             ∧ edges (db c') = edges session).
  { unfold _crawl_subreddit. unfold bind at 1. cbn [get].
    assert (Hnone : size (discovered_nodes (entered session now)) ≤ 1).
    { replace (discovered_nodes (entered session now)) with (∅ : gset string)
        by reflexivity.
      rewrite size_empty. lia. }
    destruct (budget_exhausted _ _); [by eexists _, _|].
    destruct (_fetch_subreddit_info w start_entity) as [data|];
      [|by eexists _, _].
    case_bool_decide; [by eexists _, _|].
    unfold bind at 1. rewrite bool_decide_eq_true_2 by done.
    match goal with
    | |- context [create_or_update_node ?t ?i ?n ?m ?c] =>
        pose proof (create_or_update_node_entities c t i n m) as [_ Hdisc];
        pose proof (create_or_update_node_edges c t i n m) as [Hsame Hkeys];
        destruct (create_or_update_node t i n m c) as [[e|node] c1]
    end; cbn [fst snd] in *; unfold ret; (eexists _, _; split; [reflexivity|]);
      rewrite Hdisc; (split; [|done]).
    - done.
    - replace (discovered_nodes (entered session now)) with (∅ : gset string)
        by reflexivity.
      rewrite (right_id_L ∅ (∪)), size_singleton. done. }
  destruct Hrun as (r & c' & Hrun & Hnodes & Hedges & Hsame).
  rewrite run_reddit_crawler_traversal.
  destruct (_crawl_subreddit_keeps_jobs w start_entity depth max_entities
              (entered session now)) as (Hjobs & _).
  rewrite Hrun in Hjobs |- *. cbn [snd] in Hjobs.
  destruct r as [e|[]]; rewrite update_crawl_job_row;
    cbn [fst snd with_db db jobs edges];
    rewrite lookup_alter_eq, Hjobs, entered_job; simpl;
    (eexists; split; [reflexivity|]); simpl.
  - split; [lia|]. done.
  - rewrite Hedges, size_empty. split; [lia|]. done.
Qed.

Lemma crawl_depth_below_two_witness :
  ∃ job,
    jobs (db (run_reddit_crawler Samples.small_reddit Samples.empty_store 100
                "rust" 1 10).2) !! next_uuid Samples.empty_store = Some job
    ∧ (0 ≤ entity_count job ≤ 1)%Z
    ∧ edge_count job = 0%Z
    ∧ edges (db (run_reddit_crawler Samples.small_reddit Samples.empty_store
                   100 "rust" 1 10).2) = edges Samples.empty_store.
Proof.
  apply (crawl_depth_below_two Samples.small_reddit Samples.empty_store 100
           "rust" 1 10).
  lia.
Defined.

End Seeds.

(** ** Paths that [find_shortest_path] returns *)

Section PathSoundness.
Import GraphAPI.

Implicit Types (d : Store) (q : PathQuery) (es : list Edge).

Lemma is_walk_snoc es : ∀ start current_id e,
  is_walk start es → last (walk_ids start es) = Some current_id →
  source_node_id e = current_id → is_walk start (es ++ [e]).
Proof.
  induction es as [|e0 es IH]; intros start current_id e Hwalk Hlast Hsrc.
  - cbn in Hlast. injection Hlast as Heq. simpl. split; [congruence|done].
  - destruct Hwalk as [Hstart Hwalk]. simpl. split; [done|].
    apply (IH _ current_id); [done| |done].
    unfold walk_ids in *. rewrite fmap_cons in Hlast.
    by rewrite last_cons_cons in Hlast.
Qed.

Lemma walk_ids_snoc start es e :
  walk_ids start (es ++ [e]) = walk_ids start es ++ [target_node_id e].
Proof. unfold walk_ids. by rewrite fmap_app. Qed.

Lemma walk_weight_snoc es e :
  walk_weight (es ++ [e]) = (walk_weight es + weight e)%float.
Proof. unfold walk_weight. by rewrite fold_left_app. Qed.

Lemma length_walk_ids start es :
  List.length (walk_ids start es) = S (List.length es).
Proof. unfold walk_ids. simpl. by rewrite length_fmap. Qed.

(** Entries stay as they are when more ids are visited. *)
Lemma path_entry_mono d q (visited visited' : gset N) entry :
  visited ⊆ visited' → path_entry d q visited entry →
  path_entry d q visited' entry.
Proof.
  intros Hsub. destruct entry as [[[[current_id ids] es] w] dep].
  intros (? & ? & ? & ? & ? & Hvis & ? & ? & ?). split_and!; try done.
  intros i Hi. apply Hsub. by apply Hvis.
Qed.

(** The body of [for edge in edges] appends entries that extend the
    entry taken from the queue by one stored edge. *)
Lemma path_step_entries d q current_id ids es w dep (rows : list Edge) :
  (∀ e, e ∈ rows → e ∈ edges d ∧ source_node_id e = current_id) →
  (dep < max_depth q)%Z →
  ∀ (visited : gset N) (queue : list Entry),
    path_entry d q visited (current_id, ids, es, w, dep) →
    Forall (path_entry d q visited) queue →
    let st := fold_left (path_step ids es w dep) rows (visited, queue) in
    visited ⊆ st.1 ∧ Forall (path_entry d q st.1) st.2.
Proof.
  intros Hrows Hdep. induction rows as [|e rows IH];
    intros visited queue Hentry Hqueue; simpl; [done|].
  destruct (Hrows e) as [He Hsrc]; [left|].
  assert (Hrest : ∀ e', e' ∈ rows → e' ∈ edges d ∧ source_node_id e' = current_id)
    by (intros e' He'; apply Hrows; by right).
  destruct (decide (target_node_id e ∈ visited)) as [Hvis|Hvis].
  - replace (path_step ids es w dep (visited, queue) e) with (visited, queue)
      by (unfold path_step; simpl; by rewrite bool_decide_eq_true_2).
    by apply IH.
  - rewrite path_step_fresh by done.
    assert (Hsub : visited ⊆ {[target_node_id e]} ∪ visited)
      by apply union_subseteq_r.
    destruct (IH Hrest ({[target_node_id e]} ∪ visited)
                (queue ++ [(target_node_id e, ids ++ [target_node_id e],
                            es ++ [e], (w + weight e)%float, (dep + 1)%Z)]))
      as [Hsub' Hall].
    + by apply (path_entry_mono d q visited).
    + apply Forall_app. split.
      * eapply Forall_impl; [exact Hqueue|].
        intros entry. by apply path_entry_mono.
      * apply Forall_singleton.
        destruct Hentry as (Hwalk & Hstored & -> & Hlast & Hnd & Hids & -> & ->
                            & _).
        split_and!.
        -- by apply (is_walk_snoc es _ current_id).
        -- intros e' [He'|He'%list_elem_of_singleton]%elem_of_app;
             [by apply Hstored|by subst e'].
        -- by rewrite walk_ids_snoc.
        -- by rewrite last_snoc.
        -- apply NoDup_app. split_and!; [done| |apply NoDup_singleton].
           intros i Hi ->%list_elem_of_singleton. apply Hvis. by apply Hids.
        -- intros i [Hi|Hi%list_elem_of_singleton]%elem_of_app.
           ++ apply elem_of_union_r. by apply Hids.
           ++ subst i. apply elem_of_union_l. by apply elem_of_singleton.
        -- by rewrite walk_weight_snoc.
        -- rewrite length_app. simpl. lia.
        -- lia.
    + split; [|exact Hall]. etrans; [exact Hsub|exact Hsub'].
Qed.

(** The rows that [ordered_nodes] returns are stored rows with the ids
    asked for, in that order. *)
Lemma path_nodes_keys (P : Node → Prop) (rows : list Node) :
  (∀ n, n ∈ rows → P n) →
  ∀ (m : gmap N Node),
    (∀ i n, m !! i = Some n → node_id n = i ∧ P n) →
    ∀ i n, fold_left (λ m n, <[node_id n := n]> m) rows m !! i = Some n →
           node_id n = i ∧ P n.
Proof.
  induction rows as [|x rows IH]; intros Hrows m Hm i n; simpl; [apply Hm|].
  apply IH.
  - intros y Hy. apply Hrows. by right.
  - intros j y. destruct (decide (node_id x = j)) as [<-|Hne].
    + rewrite lookup_insert_eq. intros [= <-]. split; [done|]. apply Hrows. left.
    + rewrite lookup_insert_ne by done. apply Hm.
Qed.

Lemma ordered_nodes_ids d (ids : list N) : ∀ ns,
  ordered_nodes d ids = inr ns →
  node_id <$> ns = ids ∧ ∀ n, n ∈ ns → n ∈ nodes d.
Proof.
  unfold ordered_nodes.
  set (m := fold_left (λ (m : gmap N Node) n, <[node_id n := n]> m)
              (filter (λ n, node_id n ∈ ids) (nodes d)) ∅).
  assert (Hm : ∀ i n, m !! i = Some n → node_id n = i ∧ n ∈ nodes d).
  { apply (path_nodes_keys (λ n, n ∈ nodes d)).
    - intros n Hn. apply list_elem_of_filter in Hn. tauto.
    - intros i n Hi. by rewrite lookup_empty in Hi. }
  clearbody m. induction ids as [|i ids IH]; intros ns; simpl.
  - intros [= <-]. split; [done|]. intros n Hn. by apply elem_of_nil in Hn.
  - destruct (foldr _ _ ids) as [e|ns'] eqn:Hfold; [done|].
    destruct (m !! i) as [n|] eqn:Hi; [|done].
    intros [= <-]. destruct (IH ns' eq_refl) as [Hids Hstored].
    destruct (Hm i n Hi) as [Hid Hn]. split.
    + rewrite fmap_cons. by f_equal.
    + intros y [->|Hy]%elem_of_cons; [done|by apply Hstored].
Qed.

(** The loop answers with a path only from an entry of its queue. *)
Lemma path_loop_sound d q r : ∀ fuel (visited : gset N) (queue : list Entry),
  Forall (path_entry d q visited) queue →
  path_loop fuel d q visited queue = Some (Ok r) →
  ∃ visited' ids es w dep,
    path_entry d q visited' (path_target_node_id q, ids, es, w, dep)
    ∧ found d ids es w = Ok r.
Proof.
  induction fuel as [|fuel IH]; intros visited queue Hqueue Hloop.
  { destruct queue as [|[[[[current_id ids] es] w] dep] rest]; done. }
  destruct queue as [|[[[[current_id ids] es] w] dep] rest]; [done|].
  apply Forall_cons in Hqueue as [Hentry Hrest].
  simpl in Hloop. case_bool_decide as Htarget.
  { subst current_id. injection Hloop as Hfound.
    by exists visited, ids, es, w, dep. }
  case_bool_decide as Hdeep.
  { by apply (IH visited rest). }
  destruct (path_step_entries d q current_id ids es w dep
              (filter (λ e, source_node_id e = current_id) (edges d)))
    with (visited := visited) (queue := rest) as [Hsub Hall]; [|lia|done..|].
  { intros e He. apply list_elem_of_filter in He. tauto. }
  destruct (fold_left _ _ _) as [visited' queue'].
  by apply (IH visited' queue').
Qed.

(** A path that [find_shortest_path] returns is a walk along stored edges
    from the source to the target that passes no node twice and has at
    most [max_depth] edges.  [path] holds stored rows with the ids on the
    walk, in that order; [length] is the number of edges of the walk and
    [total_weight] the sum of their weights, added in turn to 0.0;
    [path_edges] are the stored edges with the ids of the edges of the
    walk, in some order. *)
Theorem find_shortest_path_sound d q r :
  find_shortest_path d q = Some (Ok r) →
  (0 ≤ max_depth q)%Z →
  ∃ es,
    is_walk (path_source_node_id q) es
    ∧ (∀ e, e ∈ es → e ∈ edges d)
    ∧ last (walk_ids (path_source_node_id q) es) = Some (path_target_node_id q)
    ∧ NoDup (walk_ids (path_source_node_id q) es)
    ∧ node_id <$> path r = walk_ids (path_source_node_id q) es
    ∧ (∀ n, n ∈ path r → n ∈ nodes d)
    ∧ length r = Z.of_nat (List.length es)
    ∧ (length r ≤ max_depth q)%Z
    ∧ total_weight r = walk_weight es
    ∧ path_edges r ≡ₚ filter (λ e, edge_id e ∈ edge_id <$> es) (edges d).
Proof.
  intros Hpath Hdepth.
  unfold find_shortest_path, find_shortest_path_fuel in Hpath.
  destruct (scalar_one_or_none (select_node_by_id d (path_source_node_id q)))
    as [e|[source_node|]]; [done| |];
    (destruct (scalar_one_or_none
                 (select_node_by_id d (path_target_node_id q)))
       as [e|[target_node|]]; [done| |]); try done.
  apply path_loop_sound in Hpath as (visited & ids & es & w & dep & Hentry & Hfound).
  - destruct Hentry as (Hwalk & Hstored & -> & Hlast & Hnd & _ & -> & -> & Hle).
    unfold found in Hfound.
    destruct (ordered_nodes d _) as [e|ns] eqn:Hnodes; [done|].
    injection Hfound as <-.
    cbn [path path_edges GraphAPI.length total_weight].
    apply ordered_nodes_ids in Hnodes as [Hids Hrows].
    exists es. split_and!; try done.
    + unfold walk_ids. simpl. rewrite length_fmap. lia.
    + unfold walk_ids. simpl. rewrite length_fmap. lia.
  - apply Forall_singleton. unfold path_entry, walk_ids. simpl.
    split_and!; try done.
    + intros e He. by apply elem_of_nil in He.
    + apply NoDup_singleton.
    + intros i Hi%list_elem_of_singleton. subst i. by apply elem_of_singleton.
Qed.

Lemma find_shortest_path_sound_witness :
  ∃ es,
    is_walk 1 es
    ∧ (∀ e, e ∈ es → e ∈ edges Samples.chain)
    ∧ last (walk_ids 1 es) = Some 4%N
    ∧ NoDup (walk_ids 1 es)
    ∧ node_id <$> [Samples.node 1 "user" "a"; Samples.node 2 "user" "b";
                   Samples.node 3 "user" "c"; Samples.node 4 "user" "d"]
      = walk_ids 1 es
    ∧ (∀ n, n ∈ [Samples.node 1 "user" "a"; Samples.node 2 "user" "b";
                 Samples.node 3 "user" "c"; Samples.node 4 "user" "d"] →
            n ∈ nodes Samples.chain)
    ∧ 3%Z = Z.of_nat (List.length es)
    ∧ (3 ≤ 5)%Z
    ∧ 0.875%float = walk_weight es
    ∧ edges Samples.chain
      ≡ₚ filter (λ e, edge_id e ∈ edge_id <$> es) (edges Samples.chain).
Proof.
  apply (find_shortest_path_sound Samples.chain (mkPathQuery 1 4 5)
           (mkPathResponse
              [Samples.node 1 "user" "a"; Samples.node 2 "user" "b";
               Samples.node 3 "user" "c"; Samples.node 4 "user" "d"]
              (edges Samples.chain) 3 0.875%float)).
  - vm_compute. reflexivity.
  - simpl. lia.
Defined.

End PathSoundness.

(** ** [find_shortest_path] is a breadth-first search *)

Section BreadthFirst.
Import GraphAPI.

Implicit Types (d : Store) (es : list Edge) (lvl : gmap N Z) (visited : gset N).

Lemma is_walk_snoc_inv es : ∀ start e,
  is_walk start (es ++ [e]) →
  is_walk start es ∧ last (walk_ids start es) = Some (source_node_id e).
Proof.
  induction es as [|e0 es IH]; intros start e.
  - simpl. intros [-> _]. done.
  - rewrite <- app_comm_cons. intros [Hstart Hwalk].
    destruct (IH _ _ Hwalk) as [Hes Hlast].
    split; [by split|]. unfold walk_ids in *.
    by rewrite fmap_cons, last_cons_cons.
Qed.

Lemma walk_to_snoc_inv d src v es e :
  walk_to d src v (es ++ [e]) →
  walk_to d src (source_node_id e) es ∧ e ∈ edges d ∧ v = target_node_id e.
Proof.
  intros (Hwalk & Hstored & Hlast).
  apply is_walk_snoc_inv in Hwalk as [Hwalk Hend].
  rewrite walk_ids_snoc, last_snoc in Hlast. injection Hlast as <-.
  split; [|split; [|done]].
  - unfold walk_to. split_and!; [done| |done].
    intros e' He'. apply Hstored, elem_of_app. by left.
  - apply Hstored, elem_of_app. right. by apply list_elem_of_singleton.
Qed.

(** The depth of a queued id is the level of the queue or the next. *)
Lemma bfs_queued_depth d q D lvl visited (q1 q2 : list Entry) entry k :
  bfs_invariant d q D lvl visited q1 q2 →
  entry ∈ q1 ++ q2 → lvl !! entry_id entry = Some k → (D ≤ k)%Z.
Proof.
  intros (_ & _ & Hq1 & Hq2 & _) Hentry Hk.
  apply elem_of_app in Hentry as [Hentry|Hentry].
  - apply (proj1 (list.Forall_forall _ _) Hq1) in Hentry as (_ & Hl & Hd).
    rewrite Hk in Hl. injection Hl as ->. lia.
  - apply (proj1 (list.Forall_forall _ _) Hq2) in Hentry as (_ & Hl & Hd).
    rewrite Hk in Hl. injection Hl as ->. lia.
Qed.

(** Whatever a walk of at most [D] edges reaches has been visited; once
    the queue is empty, whatever a walk of at most [max_depth] edges
    reaches. *)
Lemma bfs_reach d q D lvl visited (q1 q2 : list Entry) :
  bfs_invariant d q D lvl visited q1 q2 →
  ∀ es v, walk_to d (path_source_node_id q) v es →
    (Z.of_nat (List.length es) ≤ max_depth q)%Z →
    (Z.of_nat (List.length es) ≤ D)%Z ∨ q1 ++ q2 = [] →
    is_Some (lvl !! v).
Proof.
  intros Hinv. pose proof Hinv as (Hdom & Hsrc & Hq1 & Hq2 & Hdone & Hmin).
  induction es as [|e es IH] using rev_ind; intros v Hwalk Hdepth Hlevel.
  - destruct Hwalk as (_ & _ & Hlast). cbn in Hlast. injection Hlast as <-.
    by eexists.
  - apply walk_to_snoc_inv in Hwalk as (Hwalk & He & ->).
    rewrite length_app in Hdepth, Hlevel. simpl in Hdepth, Hlevel.
    destruct (IH (source_node_id e) Hwalk) as [k Hk]; [lia| |].
    { destruct Hlevel; [left; lia|by right]. }
    destruct (Hmin _ _ Hk) as [_ Hshort]. specialize (Hshort es Hwalk).
    destruct (Hdone _ _ Hk) as [(entry & Hentry & Hid)|[_ [_ Hexp]]].
    + exfalso. destruct Hlevel as [Hlevel|Hempty].
      * rewrite <- Hid in Hk.
        pose proof (bfs_queued_depth d q D lvl visited q1 q2 entry k Hinv
                      Hentry Hk). lia.
      * rewrite Hempty in Hentry. by apply elem_of_nil in Hentry.
    + destruct (Hexp ltac:(lia) e He eq_refl) as (k' & Hk' & _). by eexists.
Qed.

(** The loop has ended with an empty queue: the target is out of reach. *)
Lemma bfs_no_walk d q D lvl visited es :
  bfs_invariant d q D lvl visited [] [] →
  walk_to d (path_source_node_id q) (path_target_node_id q) es →
  (max_depth q < Z.of_nat (List.length es))%Z.
Proof.
  intros Hinv Hwalk.
  destruct (Z_lt_le_dec (max_depth q) (Z.of_nat (List.length es)))
    as [|Hdepth]; [done|exfalso].
  destruct (bfs_reach d q D lvl visited [] [] Hinv es _ Hwalk Hdepth)
    as [k Hk]; [by right|].
  destruct Hinv as (_ & _ & _ & _ & Hdone & _).
  destruct (Hdone _ _ Hk) as [(entry & Hentry & _)|[_ [Hne _]]].
  - by apply elem_of_nil in Hentry.
  - done.
Qed.

(** The entries of depth [D] are used up: the level is [D + 1]. *)
Lemma bfs_advance d q D lvl visited (q2 : list Entry) :
  bfs_invariant d q D lvl visited [] q2 →
  bfs_invariant d q (D + 1) lvl visited q2 [].
Proof.
  intros (Hdom & Hsrc & Hq1 & Hq2 & Hdone & Hmin).
  split_and!; try done.
  - intros v k Hk. destruct (Hdone v k Hk) as [(entry & Hentry & Hid)|[Hle Hexp]].
    + left. exists entry. by rewrite app_nil_r.
    + right. split; [lia|done].
  - intros v k Hk. destruct (Hmin v k Hk). split; [lia|done].
Qed.

(** An entry at [max_depth] is taken from the queue and left behind. *)
Lemma bfs_drop d q D lvl visited entry (q1 q2 : list Entry) :
  bfs_invariant d q D lvl visited (entry :: q1) q2 →
  entry_id entry ≠ path_target_node_id q →
  (max_depth q ≤ entry_depth entry)%Z →
  bfs_invariant d q D lvl visited q1 q2.
Proof.
  intros (Hdom & Hsrc & Hq1 & Hq2 & Hdone & Hmin) Hne Hdeep.
  apply Forall_cons in Hq1 as [(_ & Hlvl & Hdepth) Hq1].
  split_and!; try done.
  intros v k Hk.
  destruct (Hdone v k Hk) as [(entry' & Hentry & Hid)|Hexp]; [|by right].
  apply elem_of_cons in Hentry as [->|Hentry]; [|left; by exists entry'].
  right. rewrite Hid, Hk in Hlvl. injection Hlvl as ->.
  split; [lia|]. split; [congruence|]. lia.
Qed.

(** What the body of [for edge in edges] leaves: the ids visited before
    and the targets of the edges, with a new entry, one level down, for
    each id that was not visited before. *)
Lemma path_step_fold_news ids es w dep (rows : list Edge) :
  ∀ visited (queue : list Entry),
    ∃ news,
      (fold_left (path_step ids es w dep) rows (visited, queue)).2
      = queue ++ news
      ∧ (∀ v, v ∈ (fold_left (path_step ids es w dep) rows (visited, queue)).1
              ↔ v ∈ visited ∨ (v ∈ target_node_id <$> rows))
      ∧ (∀ v, v ∈ (fold_left (path_step ids es w dep) rows (visited, queue)).1 →
              v ∈ visited ∨ ∃ entry, entry ∈ news ∧ entry_id entry = v)
      ∧ Forall (λ entry, (entry_id entry ∉ visited)
                         ∧ entry_depth entry = (dep + 1)%Z) news.
Proof.
  induction rows as [|e rows IH]; intros visited queue; simpl.
  - exists []. rewrite app_nil_r. split_and!; [done| |by left|constructor].
    intros v. rewrite elem_of_nil. tauto.
  - destruct (decide (target_node_id e ∈ visited)) as [Hvis|Hvis].
    + replace (path_step ids es w dep (visited, queue) e) with (visited, queue)
        by (unfold path_step; simpl; by rewrite bool_decide_eq_true_2).
      destruct (IH visited queue) as (news & Hq & Hin & Hnew & Hall).
      exists news. split_and!; try done.
      intros v. rewrite Hin, elem_of_cons. split; [tauto|].
      intros [?|[->|?]]; tauto.
    + rewrite path_step_fresh by done.
      destruct (IH ({[target_node_id e]} ∪ visited)
                  (queue ++ [(target_node_id e, ids ++ [target_node_id e],
                              es ++ [e], (w + weight e)%float, (dep + 1)%Z)]))
        as (news & Hq & Hin & Hnew & Hall).
      exists ((target_node_id e, ids ++ [target_node_id e], es ++ [e],
               (w + weight e)%float, (dep + 1)%Z) :: news).
      split_and!.
      * rewrite Hq, <- app_assoc. done.
      * intros v. rewrite Hin, elem_of_union, elem_of_singleton, elem_of_cons.
        tauto.
      * intros v Hv.
        destruct (Hnew v Hv) as [[->%elem_of_singleton|Hv']%elem_of_union
                                |(entry & Hentry & Hid)].
        -- right. eexists. split; [left|done].
        -- by left.
        -- right. exists entry. split; [by right|done].
      * constructor; [done|]. eapply Forall_impl; [exact Hall|].
        intros entry [Hfresh Hdep]. split; [|done].
        intros Hentry. apply Hfresh. by apply elem_of_union_r.
Qed.

(** An entry above [max_depth] is taken from the queue and its edges
    are followed. *)
Lemma bfs_expand d q D lvl visited current_id ids es w dep
    (q1 q2 : list Entry) :
  bfs_invariant d q D lvl visited ((current_id, ids, es, w, dep) :: q1) q2 →
  current_id ≠ path_target_node_id q → (dep < max_depth q)%Z →
  ∃ lvl' news,
    (fold_left (path_step ids es w dep)
       (filter (λ e, source_node_id e = current_id) (edges d))
       (visited, q1 ++ q2)).2 = q1 ++ (q2 ++ news)
    ∧ bfs_invariant d q D lvl'
        (fold_left (path_step ids es w dep)
           (filter (λ e, source_node_id e = current_id) (edges d))
           (visited, q1 ++ q2)).1
        q1 (q2 ++ news).
Proof.
  intros Hinv Hne Hdeep.
  pose proof Hinv as (Hdom & Hsrc & Hq1 & Hq2 & Hdone & Hmin).
  apply Forall_cons in Hq1 as [(Hentry & Hlvl & Hdepth) Hq1].
  unfold entry_id, entry_depth in Hlvl, Hdepth. simpl in Hlvl, Hdepth.
  subst dep.
  set (rows := filter (λ e, source_node_id e = current_id) (edges d)).
  assert (Hrows : ∀ e, e ∈ rows → e ∈ edges d ∧ source_node_id e = current_id).
  { intros e He. apply list_elem_of_filter in He. tauto. }
  destruct (path_step_fold_news ids es w D rows visited (q1 ++ q2))
    as (news & Hq & Hin & Hnew & Hall).
  destruct (path_step_entries d q current_id ids es w D rows Hrows Hdeep
              visited (q1 ++ q2) Hentry) as [Hsub Hentries].
  { apply Forall_app. split.
    - eapply Forall_impl; [exact Hq1|]. by intros entry (? & _).
    - eapply Forall_impl; [exact Hq2|]. by intros entry (? & _). }
  fold rows.
  remember (fold_left (path_step ids es w D) rows (visited, q1 ++ q2))
    as st eqn:Hst.
  clear Hst. destruct st as [visited' queue']. cbn [fst snd] in *.
  set (lvl' := lvl ∪ gset_to_gmap (D + 1)%Z
                       (list_to_set (target_node_id <$> rows) : gset N)).
  assert (Hold : ∀ v k, lvl !! v = Some k → lvl' !! v = Some k).
  { intros v k Hk. by apply lookup_union_Some_l. }
  assert (Hcases : ∀ v k, lvl' !! v = Some k →
            lvl !! v = Some k
            ∨ (lvl !! v = None ∧ k = (D + 1)%Z
               ∧ (v ∈ target_node_id <$> rows))).
  { intros v k [Hk|[Hnone Hk]]%lookup_union_Some_raw; [by left|right].
    apply lookup_gset_to_gmap_Some in Hk as [Hv <-].
    by apply elem_of_list_to_set in Hv. }
  assert (Hfresh : ∀ v, v ∉ visited → v ∈ target_node_id <$> rows →
            lvl' !! v = Some (D + 1)%Z).
  { intros v Hv Hrow. apply lookup_union_Some_raw. right. split.
    - apply eq_None_not_Some. intros Hsome. by apply Hv, Hdom.
    - apply lookup_gset_to_gmap_Some. split; [|done].
      by apply elem_of_list_to_set. }
  assert (Hdom' : ∀ v, v ∈ visited' ↔ is_Some (lvl' !! v)).
  { intros v. rewrite Hin. split.
    - intros [Hv|Hv].
      + apply Hdom in Hv as [k Hk]. exists k. by apply Hold.
      + destruct (decide (v ∈ visited)) as [Hvis|Hvis].
        * apply Hdom in Hvis as [k Hk]. exists k. by apply Hold.
        * eexists. by apply Hfresh.
    - intros [k Hk]. destruct (Hcases v k Hk) as [Hk'|(_ & _ & Hv)].
      + left. apply Hdom. by eexists.
      + by right. }
  assert (Hmin' : ∀ v k, lvl' !! v = Some k →
            (k ≤ D + 1)%Z
            ∧ ∀ es', walk_to d (path_source_node_id q) v es' →
                     (k ≤ Z.of_nat (List.length es'))%Z).
  { intros v k Hk. destruct (Hcases v k Hk) as [Hk'|(Hnone & -> & Hv)].
    - by apply Hmin.
    - split; [lia|]. intros es' Hwalk.
      destruct (Z_lt_le_dec (Z.of_nat (List.length es')) (D + 1)) as [Hshort|];
        [exfalso|done].
      destruct (bfs_reach d q D lvl visited _ _ Hinv es' v Hwalk) as [k' Hk'];
        [lia|left; lia|]. congruence. }
  exists lvl', news. split; [by rewrite Hq, app_assoc|].
  rewrite Hq in Hentries.
  apply Forall_app in Hentries as [Hentries Hnews].
  apply Forall_app in Hentries as [Hentries1 Hentries2].
  split_and!.
  - exact Hdom'.
  - by apply Hold.
  - apply Forall_forall. intros entry Hentry'.
    apply (proj1 (list.Forall_forall _ _) Hq1) in Hentry' as Hfacts.
    destruct Hfacts as (_ & Hl & Hd).
    split_and!; [|by apply Hold|done].
    by apply (proj1 (list.Forall_forall _ _) Hentries1).
  - apply Forall_app. split.
    + apply Forall_forall. intros entry Hentry'.
      apply (proj1 (list.Forall_forall _ _) Hq2) in Hentry' as Hfacts.
      destruct Hfacts as (_ & Hl & Hd).
      split_and!; [|by apply Hold|done].
      by apply (proj1 (list.Forall_forall _ _) Hentries2).
    + apply Forall_forall. intros entry Hentry'.
      apply (proj1 (list.Forall_forall _ _) Hall) in Hentry' as Hfacts.
      destruct Hfacts as [Hnew' Hd].
      split_and!; [by apply (proj1 (list.Forall_forall _ _) Hnews)| |done].
      rewrite Hd. apply Hfresh; [done|].
      assert (Hst : entry_id entry ∈ visited').
      { apply (proj1 (list.Forall_forall _ _) Hnews) in Hentry'.
        destruct entry as [[[[v ids'] es'] w'] dep'].
        destruct Hentry' as (_ & _ & Hids & Hlast & _ & Hvis & _).
        apply Hvis. unfold entry_id. simpl.
        apply last_Some_elem_of in Hlast. done. }
      apply Hin in Hst as [?|?]; done.
  - intros v k Hk. destruct (Hcases v k Hk) as [Hk'|(Hnone & -> & Hv)].
    + destruct (Hdone v k Hk') as [(entry & Hentry' & Hid)|[Hle [Hnt Hexp]]].
      * apply elem_of_cons in Hentry' as [->|Hentry'].
        -- right. unfold entry_id in Hid. simpl in Hid. subst v.
           rewrite Hlvl in Hk'. injection Hk' as <-.
           split; [lia|]. split; [done|]. intros _ e He Hfrom.
           assert (Ht : target_node_id e ∈ visited').
           { apply Hin. right. apply list_elem_of_fmap_2.
             apply list_elem_of_filter. done. }
           apply Hdom' in Ht as [k' Hk'']. exists k'. split; [done|].
           by destruct (Hmin' _ _ Hk'').
        -- left. exists entry. split; [|done].
           rewrite app_assoc. apply elem_of_app. by left.
      * right. split; [done|]. split; [done|]. intros Hlt e He Hfrom.
        destruct (Hexp Hlt e He Hfrom) as (k' & Hk'' & Hle').
        exists k'. split; [by apply Hold|done].
    + left. assert (Hst : v ∈ visited') by (apply Hin; by right).
      destruct (Hnew v Hst) as [Hvis|(entry & Hentry' & Hid)].
      * apply Hdom in Hvis as [k Hk']. congruence.
      * exists entry. split; [|done]. rewrite !elem_of_app. tauto.
  - exact Hmin'.
Qed.

Lemma bfs_initial d q :
  (0 ≤ max_depth q)%Z →
  bfs_invariant d q 0 {[path_source_node_id q := 0%Z]}
    {[path_source_node_id q]}
    [(path_source_node_id q, [path_source_node_id q], [], 0%float, 0%Z)] [].
Proof.
  intros Hdepth. split_and!.
  - intros v. rewrite elem_of_singleton. split.
    + intros ->. rewrite lookup_singleton_eq. by eexists.
    + intros [k [-> _]%lookup_singleton_Some]. done.
  - apply lookup_singleton_eq.
  - apply Forall_singleton. split_and!.
    + unfold path_entry, walk_ids. simpl. split_and!; try done.
      * intros e He. by apply elem_of_nil in He.
      * apply NoDup_singleton.
      * intros i Hi%list_elem_of_singleton. subst i. by apply elem_of_singleton.
    + apply lookup_singleton_eq.
    + done.
  - constructor.
  - intros v k [<- <-]%lookup_singleton_Some. left.
    eexists. split; [left|done].
  - intros v k [<- <-]%lookup_singleton_Some. split; [lia|]. intros. lia.
Qed.

(** The loop, from a state that satisfies the invariant. *)
Lemma path_loop_bfs d q : ∀ fuel D lvl visited (q1 q2 : list Entry) r,
  bfs_invariant d q D lvl visited q1 q2 →
  path_loop fuel d q visited (q1 ++ q2) = Some r →
  bfs_answer d q r.
Proof.
  assert (Hfront : ∀ fuel,
    (∀ D lvl visited (q1 q2 : list Entry) r,
       bfs_invariant d q D lvl visited q1 q2 →
       path_loop fuel d q visited (q1 ++ q2) = Some r → bfs_answer d q r) →
    ∀ D lvl visited entry (q1 q2 : list Entry) r,
      bfs_invariant d q D lvl visited (entry :: q1) q2 →
      path_loop (S fuel) d q visited (entry :: q1 ++ q2) = Some r →
      bfs_answer d q r).
  { intros fuel IH D lvl visited [[[[current_id ids] es] w] dep] q1 q2 r
      Hinv Hloop.
    simpl in Hloop. case_bool_decide as Htarget.
    - subst current_id. injection Hloop as <-. right.
      destruct Hinv as (_ & _ & Hq1 & _ & _ & Hmin).
      apply Forall_cons in Hq1 as [(Hentry & Hlvl & Hdepth) _].
      unfold entry_id, entry_depth in Hlvl, Hdepth. simpl in Hlvl, Hdepth.
      destruct Hentry as (Hwalk & Hstored & -> & Hlast & _ & _ & _ & Hdep & _).
      exists es, w. split; [done|]. split; [done|].
      intros es' Hwalk'. destruct (Hmin _ _ Hlvl) as [_ Hshort].
      specialize (Hshort es' Hwalk'). lia.
    - case_bool_decide as Hdeep.
      + apply (IH D lvl visited q1 q2); [|done].
        by apply (bfs_drop d q D lvl visited (current_id, ids, es, w, dep)).
      + destruct (bfs_expand d q D lvl visited current_id ids es w dep q1 q2
                    Hinv Htarget) as (lvl' & news & Hq & Hinv'); [lia|].
        destruct (fold_left _ _ _) as [visited' queue'].
        cbn [fst snd] in Hq, Hinv'. subst queue'.
        by apply (IH D lvl' visited' q1 (q2 ++ news)). }
  induction fuel as [|fuel IH]; intros D lvl visited q1 q2 r Hinv Hloop.
  - destruct q1 as [|entry q1], q2 as [|entry' q2];
      try (destruct entry as [[[[? ?] ?] ?] ?]; done);
      try (destruct entry' as [[[[? ?] ?] ?] ?]; done).
    injection Hloop as <-. left. split; [done|].
    intros es. by apply (bfs_no_walk d q D lvl visited).
  - destruct q1 as [|entry q1].
    + destruct q2 as [|entry q2].
      * injection Hloop as <-. left. split; [done|].
        intros es. by apply (bfs_no_walk d q D lvl visited).
      * apply bfs_advance in Hinv.
        apply (Hfront fuel IH (D + 1)%Z lvl visited entry q2 []); [done|].
        by rewrite app_nil_r.
    + by apply (Hfront fuel IH D lvl visited entry q1 q2).
Qed.

(** The loop as [find_shortest_path] enters it. *)
Lemma path_loop_from_source d q fuel r :
  path_loop fuel d q {[path_source_node_id q]}
    [(path_source_node_id q, [path_source_node_id q], [], 0%float, 0%Z)] = Some r →
  bfs_answer d q r.
Proof.
  intros Hloop. destruct (Z_lt_le_dec (max_depth q) 0) as [Hneg|Hdepth].
  - destruct fuel as [|fuel]; [done|]. simpl in Hloop.
    case_bool_decide as Htarget.
    + injection Hloop as <-. right. exists [], 0%float.
      split; [done|]. split; [|intros; simpl; lia].
      unfold walk_to, walk_ids. simpl. split_and!; [done| |by rewrite Htarget].
      intros e He. by apply elem_of_nil in He.
    + rewrite bool_decide_eq_true_2 in Hloop by lia.
      destruct fuel; injection Hloop as <-; left; (split; [done|]);
        intros es _; lia.
  - apply (path_loop_bfs d q fuel 0 {[path_source_node_id q := 0%Z]}
             {[path_source_node_id q]}
             [(path_source_node_id q, [path_source_node_id q], [], 0%float, 0%Z)]
             []); [by apply bfs_initial|done].
Qed.

Lemma found_length d ids es w r :
  found d ids es w = Ok r →
  GraphAPI.length r = (Z.of_nat (List.length ids) - 1)%Z.
Proof.
  unfold found. destruct (ordered_nodes d ids); [done|]. by intros [= <-].
Qed.

(** The name is earned: no walk along stored edges from the source to
    the target has fewer edges than the path that [find_shortest_path]
    returns. *)
Theorem find_shortest_path_minimal d q r es :
  find_shortest_path d q = Some (Ok r) →
  walk_to d (path_source_node_id q) (path_target_node_id q) es →
  (GraphAPI.length r ≤ Z.of_nat (List.length es))%Z.
Proof.
  unfold find_shortest_path, find_shortest_path_fuel. intros Hpath Hwalk.
  destruct (scalar_one_or_none (select_node_by_id d (path_source_node_id q)))
    as [e|[source_node|]]; [done| |];
    (destruct (scalar_one_or_none
                 (select_node_by_id d (path_target_node_id q)))
       as [e|[target_node|]]; [done| |]); try done.
  apply path_loop_from_source in Hpath
    as [[? _]|(es0 & w & Hfound & _ & Hmin)]; [done|].
  symmetry in Hfound. apply found_length in Hfound. rewrite Hfound.
  rewrite length_walk_ids. specialize (Hmin es Hwalk). lia.
Qed.

Lemma find_shortest_path_minimal_witness :
  (3 ≤ Z.of_nat (List.length (edges Samples.chain)))%Z.
Proof.
  apply (find_shortest_path_minimal Samples.chain (mkPathQuery 1 4 5)
           (mkPathResponse
              [Samples.node 1 "user" "a"; Samples.node 2 "user" "b";
               Samples.node 3 "user" "c"; Samples.node 4 "user" "d"]
              (edges Samples.chain) 3 0.875%float)
           (edges Samples.chain)).
  - vm_compute. reflexivity.
  - unfold walk_to. simpl. split_and!; try done.
Defined.

(** The ids on a walk from a stored node along the edges of a consistent
    store are stored. *)
Lemma walk_ids_stored d src es :
  consistent d → src ∈ node_id <$> nodes d →
  (∀ e, e ∈ es → e ∈ edges d) →
  ∀ i, i ∈ walk_ids src es → i ∈ node_id <$> nodes d.
Proof.
  intros Hd Hsrc Hstored i [->|Hi]%elem_of_cons; [done|].
  apply list_elem_of_fmap in Hi as (e & -> & He).
  by apply (consistent_endpoints d e Hd), Hstored.
Qed.

Lemma ordered_nodes_stored d (ids : list N) :
  NoDup (node_id <$> nodes d) →
  (∀ i, i ∈ ids → i ∈ node_id <$> nodes d) →
  ∃ ns, ordered_nodes d ids = inr ns.
Proof.
  intros Hnd Hids.
  assert (Hrows : ∃ ns, ids = node_id <$> ns ∧ ∀ n, n ∈ ns → n ∈ nodes d).
  { induction ids as [|i ids IH].
    - exists []. split; [done|]. intros n Hn. by apply elem_of_nil in Hn.
    - destruct IH as (ns & -> & Hns); [intros j Hj; apply Hids; by right|].
      assert (Hi : i ∈ node_id <$> nodes d) by (apply Hids; left).
      apply list_elem_of_fmap in Hi as (n & -> & Hn).
      exists (n :: ns). split; [done|].
      intros y [->|Hy]%elem_of_cons; [done|by apply Hns]. }
  destruct Hrows as (ns & -> & Hns). exists ns.
  by apply ordered_nodes_unique.
Qed.

(** On a consistent store the search is complete: when a walk of at
    most [max_depth] edges leads from a stored source to the target, the
    search does not end with 404 but comes to its [return] statement,
    with a path of no more edges than that walk.  The path is not
    returned, though: the constructor of the response raises when it
    reads the degrees of the nodes, and the request ends with an
    unhandled exception. *)
Theorem find_shortest_path_complete d q es :
  consistent d →
  path_source_node_id q ∈ node_id <$> nodes d →
  walk_to d (path_source_node_id q) (path_target_node_id q) es →
  (Z.of_nat (List.length es) ≤ max_depth q)%Z →
  (∃ r, find_shortest_path d q = Some (Ok r)
        ∧ (GraphAPI.length r ≤ Z.of_nat (List.length es))%Z)
  ∧ ∃ e, find_shortest_path_response d q = Some (Unhandled e).
Proof.
  intros Hd Hsrc Hwalk Hdepth. pose proof Hd as [Hnd _].
  assert (Htgt : path_target_node_id q ∈ node_id <$> nodes d).
  { destruct Hwalk as (_ & Hstored & Hlast).
    apply (walk_ids_stored d (path_source_node_id q) es Hd Hsrc Hstored).
    by apply last_Some_elem_of. }
  unfold find_shortest_path, find_shortest_path_fuel.
  apply list_elem_of_fmap in Hsrc as (source_node & Hsid & Hsn).
  apply list_elem_of_fmap in Htgt as (target_node & Htid & Htn).
  assert (Hs : select_node_by_id d (path_source_node_id q) = [source_node])
    by (rewrite Hsid; by apply select_node_by_id_unique).
  assert (Ht : select_node_by_id d (path_target_node_id q) = [target_node])
    by (rewrite Htid; by apply select_node_by_id_unique).
  unfold find_shortest_path_response, find_shortest_path,
    find_shortest_path_fuel.
  rewrite Hs, Ht. cbn [scalar_one_or_none].
  destruct (path_loop_returns d q (reachable_ids d (path_source_node_id q)))
    with (fuel := S (List.length (edges d)))
         (visited := ({[path_source_node_id q]} : gset N))
         (queue := [(path_source_node_id q, [path_source_node_id q],
                     ([] : list Edge), 0%float, 0%Z)]) as [r Hloop].
  - intros e He. unfold reachable_ids.
    apply elem_of_union_r, elem_of_list_to_set. by apply list_elem_of_fmap_2.
  - unfold reachable_ids. apply union_subseteq_l.
  - rewrite size_singleton. simpl.
    pose proof (size_reachable_ids d (path_source_node_id q)). lia.
  - rewrite Hloop.
    apply path_loop_from_source in Hloop
      as [[_ Hnone]|(es0 & w & -> & Hwalk0 & Hmin)].
    + specialize (Hnone es Hwalk). lia.
    + destruct (ordered_nodes_stored d (walk_ids (path_source_node_id q) es0)
                  Hnd) as [ns Hns].
      { destruct Hwalk0 as (_ & Hstored & _).
        apply (walk_ids_stored d _ es0 Hd); [|done].
        rewrite Hsid. by apply list_elem_of_fmap_2. }
      unfold found. rewrite Hns. split.
      * eexists. split; [reflexivity|].
        cbn [GraphAPI.length]. rewrite length_walk_ids.
        specialize (Hmin es Hwalk). lia.
      * exists ValidationError. cbn [fmap option_fmap option_map returned].
        rewrite path_response_raises; [done|].
        apply ordered_nodes_ids in Hns as [Hids _].
        cbn [path]. intros ->. done.
Qed.

Lemma find_shortest_path_complete_witness :
  (∃ r, find_shortest_path Samples.chain (mkPathQuery 1 4 5) = Some (Ok r)
        ∧ (GraphAPI.length r ≤ Z.of_nat (List.length (edges Samples.chain)))%Z)
  ∧ ∃ e, find_shortest_path_response Samples.chain (mkPathQuery 1 4 5)
         = Some (Unhandled e).
Proof.
  apply (find_shortest_path_complete Samples.chain (mkPathQuery 1 4 5)
           (edges Samples.chain)).
  - apply (bool_decide_unpack _). vm_compute. reflexivity.
  - apply (bool_decide_unpack _). vm_compute. reflexivity.
  - unfold walk_to. simpl. split_and!; try done.
  - simpl. lia.
Defined.

End BreadthFirst.

(** ** Subgraph queries on any store *)

Section QueryGraphAnyStore.
Import GraphAPI.

Implicit Types (d : Store) (q : GraphQuery) (w : Walk).

(** Each id added to [visited_nodes] is appended to the queue. *)
Lemma visit_edge_count q current_id current_depth w edge :
  List.length (nodes_result w) + List.length (queue w) = size (visited_nodes w) →
  List.length (nodes_result (visit_edge q current_id current_depth w edge))
  + List.length (queue (visit_edge q current_id current_depth w edge))
  = size (visited_nodes (visit_edge q current_id current_depth w edge))
  ∧ nodes_result (visit_edge q current_id current_depth w edge)
    = nodes_result w.
Proof.
  intros Hcount. unfold visit_edge. case_bool_decide; [done|].
  case_bool_decide as Hvis; simpl; [done|]. split; [|done].
  rewrite length_app. simpl.
  rewrite size_union by (by apply disjoint_singleton_l).
  rewrite size_singleton. lia.
Qed.

Lemma visit_edges_count q current_id current_depth (rows : list Edge) : ∀ w,
  List.length (nodes_result w) + List.length (queue w) = size (visited_nodes w) →
  let w' := fold_left (visit_edge q current_id current_depth) rows w in
  List.length (nodes_result w') + List.length (queue w') = size (visited_nodes w')
  ∧ nodes_result w' = nodes_result w.
Proof.
  induction rows as [|e rows IH]; intros w Hcount; simpl; [done|].
  destruct (visit_edge_count q current_id current_depth w e Hcount)
    as [Hcount' Hsame].
  destruct (IH _ Hcount') as [Hcount'' Hsame'].
  split; [done|]. by rewrite Hsame', Hsame.
Qed.

(** The loop ends within the iterations allowed for: each iteration adds
    a node to the result, and the loop goes on only while the visited
    ids, among them the nodes of the result, are fewer than
    [max_nodes]. *)
Lemma bfs_loop_ends d q : ∀ fuel w,
  List.length (nodes_result w) + List.length (queue w) = size (visited_nodes w) →
  Z.to_nat (max_nodes q) ≤ fuel + List.length (nodes_result w) →
  ∃ r, bfs_loop fuel d q w = Some r.
Proof.
  induction fuel as [|fuel IH]; intros w Hcount Hfuel.
  - destruct (queue w) as [|[current_id current_depth] rest] eqn:Hqueue;
      simpl; rewrite Hqueue; [by eexists|].
    case_bool_decide; [|by eexists]. simpl in Hcount. lia.
  - destruct (queue w) as [|[current_id current_depth] rest] eqn:Hqueue;
      simpl; rewrite Hqueue; [by eexists|].
    case_bool_decide; [|by eexists].
    destruct (scalar_one _) as [e|current_node]; [by eexists|].
    simpl in Hcount.
    set (w1 := mkWalk (visited_nodes w) (visited_edges w) rest
                      (nodes_result w ++ [current_node]) (edges_result w)).
    assert (Hcount1 : List.length (nodes_result w1) + List.length (queue w1)
                      = size (visited_nodes w1)).
    { simpl. rewrite length_app. simpl. lia. }
    assert (Hfuel1 : Z.to_nat (max_nodes q)
                     ≤ fuel + List.length (nodes_result w1)).
    { simpl. rewrite length_app. simpl. lia. }
    case_bool_decide; [by apply IH|].
    destruct (visit_edges _ _ _ _ _) as [e|w2] eqn:Hvisit; [by eexists|].
    apply visit_edges_rows in Hvisit as (rows & -> & _).
    destruct (visit_edges_count q current_id current_depth rows w1 Hcount1)
      as [Hcount2 Hsame].
    apply IH; [done|]. by rewrite Hsame.
Qed.

(** [query_graph] returns, on every store and for every query. *)
Theorem query_graph_total d q : ∃ r, query_graph d q = Some r.
Proof.
  unfold query_graph, query_graph_fuel.
  destruct (scalar_one_or_none _) as [e|[start_node|]]; [by eexists| |by eexists].
  destruct (bfs_loop_ends d q (Z.to_nat (max_nodes q)) (initial_walk q))
    as [r ->].
  - change (0 + 1 = size ({[start_node_id q]} : gset N)).
    by rewrite size_singleton.
  - simpl. lia.
  - destruct r; by eexists.
Qed.

(** With [max_nodes] at 1 or below the loop is not entered: the start
    node is looked up and counted as visited, and the answer holds no
    node at all, not even the start node. *)
Theorem query_graph_max_nodes_one d q start_node :
  select_node_by_id d (start_node_id q) = [start_node] →
  (max_nodes q ≤ 1)%Z →
  query_graph d q = Some (Ok (mkGraphResponse [] [])).
Proof.
  intros Hstart Hmax. unfold query_graph, query_graph_fuel.
  rewrite Hstart. cbn [scalar_one_or_none].
  assert (Hsize : size (visited_nodes (initial_walk q)) = 1)
    by (change (size ({[start_node_id q]} : gset N) = 1); apply size_singleton).
  destruct (Z.to_nat (max_nodes q)); cbn [bfs_loop initial_walk queue];
    rewrite bool_decide_eq_false_2; try done; lia.
Qed.

Lemma query_graph_max_nodes_one_witness :
  query_graph Samples.fan (mkGraphQuery 1 2 1 None both)
  = Some (Ok (mkGraphResponse [] [])).
Proof.
  apply (query_graph_max_nodes_one Samples.fan (mkGraphQuery 1 2 1 None both)
           (Samples.node 1 "subreddit" "rust")).
  - reflexivity.
  - simpl. lia.
Defined.

Lemma visit_edge_distinct d q current_id current_depth w edge :
  edge ∈ edges d → walk_distinct d q w →
  walk_distinct d q (visit_edge q current_id current_depth w edge).
Proof.
  intros Hedge (Hnd & Hids & Hnde & Hedges & Hnodes).
  unfold visit_edge. case_bool_decide as Hseen; [done|].
  set (next_node_id :=
         if bool_decide (direction q = outgoing ∨ source_node_id edge = current_id)
         then target_node_id edge else source_node_id edge).
  assert (Hend : source_node_id edge = next_node_id
                 ∨ target_node_id edge = next_node_id)
    by (unfold next_node_id; case_bool_decide; tauto).
  assert (Hnde' : NoDup (edge_id <$> edges_result w ++ [edge])).
  { rewrite fmap_app. apply NoDup_app. split_and!; [done| |apply NoDup_singleton].
    intros i Hi Hi'%list_elem_of_singleton. subst i.
    apply list_elem_of_fmap in Hi as (e & Heq & He).
    apply Hseen. rewrite Heq. by apply Hedges. }
  assert (Hedges' : ∀ e, e ∈ edges_result w ++ [edge] →
            edge_id e ∈ ({[edge_id edge]} ∪ visited_edges w : gset N)
            ∧ e ∈ edges d).
  { intros e [He|He%list_elem_of_singleton]%elem_of_app.
    - destruct (Hedges e He). split; [by apply elem_of_union_r|done].
    - subst e. split; [|done]. apply elem_of_union_l. by apply elem_of_singleton. }
  case_bool_decide as Hvis; unfold walk_distinct; cbn [nodes_result queue
    visited_nodes visited_edges edges_result]; split_and!; try done.
  - intros i Hi. destruct (Hids i Hi) as [Hv [Hs|(e & He & Hie)]];
      (split; [done|]); [by left|].
    right. exists e. split; [|done]. apply elem_of_app. by left.
  - rewrite fmap_app, app_assoc. apply NoDup_app.
    split_and!; [done| |apply NoDup_singleton].
    intros i Hi Hi'%list_elem_of_singleton. simpl in Hi'. subst i.
    apply Hvis. by apply Hids.
  - intros i. rewrite fmap_app, app_assoc.
    intros [Hi|Hi%list_elem_of_singleton]%elem_of_app.
    + destruct (Hids i Hi) as [Hv [Hs|(e & He & Hie)]];
        (split; [by apply elem_of_union_r|]); [by left|].
      right. exists e. split; [|done]. apply elem_of_app. by left.
    + simpl in Hi. subst i. split.
      * apply elem_of_union_l. by apply elem_of_singleton.
      * right. exists edge. split; [|done].
        apply elem_of_app. right. by apply list_elem_of_singleton.
Qed.

Lemma visit_edges_distinct d q current_id current_depth (rows : list Edge) :
  (∀ e, e ∈ rows → e ∈ edges d) →
  ∀ w, walk_distinct d q w →
       walk_distinct d q (fold_left (visit_edge q current_id current_depth) rows w).
Proof.
  induction rows as [|e rows IH]; intros Hrows w Hw; [done|].
  simpl. apply IH.
  - intros e' He'. apply Hrows. by right.
  - apply visit_edge_distinct; [|done]. apply Hrows. left.
Qed.

Lemma bfs_loop_distinct d q : ∀ fuel w w',
  walk_distinct d q w → bfs_loop fuel d q w = Some (inr w') →
  walk_distinct d q w'.
Proof.
  induction fuel as [|fuel IH]; intros w w' Hw; simpl;
    destruct (queue w) as [|[current_id current_depth] rest] eqn:Hqueue;
    try (intros [= <-]; exact Hw);
    (case_bool_decide; [|intros [= <-]; exact Hw]); [done|].
  destruct (scalar_one _) as [e|current_node] eqn:Hrow; [done|].
  assert (Hcur : current_node ∈ nodes d ∧ node_id current_node = current_id).
  { apply select_node_by_id_elem.
    destruct (select_node_by_id d current_id) as [|x [|y rows]]; simpl in Hrow;
      congruence. }
  destruct Hcur as [Hstored Hid].
  set (w1 := mkWalk (visited_nodes w) (visited_edges w) rest
                    (nodes_result w ++ [current_node]) (edges_result w)).
  assert (Hw1 : walk_distinct d q w1).
  { destruct Hw as (Hnd & Hids & Hnde & Hedges & Hnodes).
    rewrite Hqueue in Hnd, Hids.
    assert (Hsame : (node_id <$> nodes_result w ++ [current_node]) ++ (fst <$> rest)
                    = (node_id <$> nodes_result w)
                      ++ (fst <$> (current_id, current_depth) :: rest)).
    { rewrite fmap_app, <- app_assoc. simpl. by rewrite Hid. }
    unfold walk_distinct, w1. cbn [nodes_result queue visited_nodes
      visited_edges edges_result]. rewrite Hsame. split_and!; try done.
    intros n [Hn|Hn%list_elem_of_singleton]%elem_of_app;
      [by apply Hnodes|by subst n]. }
  case_bool_decide; [by apply IH|].
  destruct (visit_edges _ _ _ _ _) as [e|w2] eqn:Hvisit; [done|].
  apply visit_edges_rows in Hvisit as (rows & -> & Hrows).
  apply IH. apply visit_edges_distinct; [|done].
  intros e He. by apply Hrows.
Qed.

(** An answer of [query_graph] holds stored rows, no node and no edge
    twice, and each of its nodes other than the start node is an endpoint
    of one of its edges. *)
Theorem query_graph_distinct d q r :
  query_graph d q = Some (Ok r) →
  NoDup (node_id <$> resp_nodes r)
  ∧ NoDup (edge_id <$> resp_edges r)
  ∧ (∀ n, n ∈ resp_nodes r → n ∈ nodes d)
  ∧ (∀ e, e ∈ resp_edges r → e ∈ edges d)
  ∧ (∀ n, n ∈ resp_nodes r →
          node_id n = start_node_id q
          ∨ ∃ e, e ∈ resp_edges r
                 ∧ (source_node_id e = node_id n ∨ target_node_id e = node_id n)).
Proof.
  unfold query_graph, query_graph_fuel.
  destruct (scalar_one_or_none _) as [e|[start_node|]]; [done| |done].
  destruct (bfs_loop _ d q (initial_walk q)) as [[e|w]|] eqn:Hloop; try done.
  intros [= <-]. simpl.
  apply bfs_loop_distinct in Hloop as (Hnd & Hids & Hnde & Hedges & Hnodes).
  - apply NoDup_app in Hnd as (Hnd & _ & _). split_and!; try done.
    + intros e He. by apply Hedges.
    + intros n Hn. apply Hids. apply elem_of_app. left.
      by apply list_elem_of_fmap_2.
  - unfold walk_distinct. simpl. split_and!.
    + apply NoDup_singleton.
    + intros i Hi%list_elem_of_singleton. subst i.
      split; [by apply elem_of_singleton|by left].
    + apply NoDup_nil_2.
    + intros e He. by apply elem_of_nil in He.
    + intros n Hn. by apply elem_of_nil in Hn.
Qed.

Lemma query_graph_distinct_witness :
  NoDup (node_id <$> [Samples.node 1 "subreddit" "rust"])
  ∧ NoDup (edge_id <$> [Samples.edge 6 1 2 1; Samples.edge 7 1 3 1])
  ∧ (∀ n, n ∈ [Samples.node 1 "subreddit" "rust"] → n ∈ nodes Samples.fan)
  ∧ (∀ e, e ∈ [Samples.edge 6 1 2 1; Samples.edge 7 1 3 1] →
          e ∈ edges Samples.fan)
  ∧ (∀ n, n ∈ [Samples.node 1 "subreddit" "rust"] →
          node_id n = 1%N
          ∨ ∃ e, e ∈ [Samples.edge 6 1 2 1; Samples.edge 7 1 3 1]
                 ∧ (source_node_id e = node_id n ∨ target_node_id e = node_id n)).
Proof.
  apply (query_graph_distinct Samples.fan (mkGraphQuery 1 1 2 None outgoing)
           (mkGraphResponse [Samples.node 1 "subreddit" "rust"]
              [Samples.edge 6 1 2 1; Samples.edge 7 1 3 1])).
  vm_compute. reflexivity.
Defined.

End QueryGraphAnyStore.

(** ** A run keeps the tables consistent *)

Section Integrity.
Import BaseCrawler RedditCrawler CrawlAPI.

Implicit Types (c : Crawler) (w : Reddit) (known : gset N).

(** *** Rules for triples *)

Lemma triple_ret {A} (a : A) (Q : A → Crawler → Prop) E :
  triple (Q a) (ret a) Q E.
Proof. by intros c Hc. Qed.

Lemma triple_skip (P : Crawler → Prop) (Q : unit → Crawler → Prop) E :
  (∀ c, P c → Q tt c) → triple P (ret tt) Q E.
Proof. intros HPQ c Hc. by apply HPQ. Qed.

Lemma triple_bind {A B} (P : Crawler → Prop) (Q1 : A → Crawler → Prop)
    (Q : B → Crawler → Prop) E (m : M A) (k : A → M B) :
  triple P m Q1 E → (∀ a, triple (Q1 a) (k a) Q E) →
  triple P (bind m k) Q E.
Proof.
  intros Hm Hk c Hc. unfold bind. specialize (Hm c Hc).
  destruct (m c) as [[e|a] c']; [done|]. by apply Hk.
Qed.

Lemma triple_lift {A} (P E : Crawler → Prop) (r : Exn + A) :
  (∀ c, P c → E c) → triple P (lift r) (λ _, P) E.
Proof. intros HE c Hc. unfold lift. destruct r; simpl; auto. Qed.

Lemma triple_get_then {B} (P : Crawler → Prop) (Q : B → Crawler → Prop) E
    (k : Crawler → M B) :
  (∀ c0, triple P (k c0) Q E) → triple P (bind get k) Q E.
Proof. intros Hk c Hc. by apply (Hk c c). Qed.

Lemma triple_weaken {A} (P P' : Crawler → Prop) (Q Q' : A → Crawler → Prop)
    E (m : M A) :
  (∀ c, P' c → P c) → (∀ a c, Q a c → Q' a c) →
  triple P m Q E → triple P' m Q' E.
Proof.
  intros HP HQ Hm c Hc. specialize (Hm c (HP c Hc)).
  destruct (m c) as [[e|a] c']; [done|]. by apply HQ.
Qed.

Lemma triple_for_each {A} (I E : Crawler → Prop) (xs : list A)
    (body : A → M unit) :
  (∀ x, triple I (body x) (λ _, I) E) →
  triple I (for_each xs body) (λ _, I) E.
Proof.
  intros Hbody. induction xs as [|x xs IH]; simpl.
  - by apply triple_skip.
  - eapply triple_bind; [apply Hbody|]. intros ?. exact IH.
Qed.

(** *** The two writers *)

Lemma flush_node_ids (rows : list Node) (i : N) (n' : Node) :
  node_id n' = i →
  node_id <$> map (λ n, if bool_decide (node_id n = i) then n' else n) rows
  = node_id <$> rows.
Proof.
  intros Hid. induction rows as [|n rows IH]; [done|].
  cbn [map]. rewrite !fmap_cons, IH. f_equal. case_bool_decide; congruence.
Qed.

Lemma sound_with_mono known known' c :
  known' ⊆ known → sound_with known c → sound_with known' c.
Proof. intros Hsub [Hc Hknown]. split; [done|]. intros i Hi. by apply Hknown, Hsub. Qed.

Lemma sound_with_sound known c : sound_with known c → sound c.
Proof. by intros [? _]. Qed.

(** [create_or_update_node] keeps the tables consistent, and the row that
    it returns is in the node table. *)
Lemma create_or_update_node_sound known etype eid name metadata :
  triple (sound_with known)
    (create_or_update_node etype eid name metadata)
    (λ n, sound_with ({[node_id n]} ∪ known))
    sound.
Proof.
  intros c [Hc Hknown]. pose proof Hc as ((Hnd & Hends) & Hfresh).
  unfold create_or_update_node, bind, get, lift, put, ret. simpl.
  case_bool_decide as Hkey.
  { destruct (scalar_one _) as [e|n] eqn:Hrows; [done|].
    split; [done|]. intros i [->%elem_of_singleton|Hi]%elem_of_union;
      [|by apply Hknown].
    assert (Hn : n ∈ select_node (db c) (source_name c) etype eid).
    { destruct (select_node _ _ _ _) as [|x [|y rows]]; simpl in Hrows;
        [done| |done]. injection Hrows as <-. left. }
    apply list_elem_of_filter in Hn as [_ Hn]. by apply list_elem_of_fmap_2. }
  destruct (scalar_one_or_none _) as [e|[node|]] eqn:Hrows; simpl; [done| |].
  - apply scalar_one_or_none_some in Hrows.
    assert (Hnode : node ∈ nodes (db c)).
    { assert (Hn : node ∈ select_node (db c) (source_name c) etype eid)
        by (rewrite Hrows; left).
      apply list_elem_of_filter in Hn. tauto. }
    unfold sound_with, sound, consistent. simpl. rewrite !flush_node_ids by done.
    split_and!; try done.
    + apply Forall_forall. intros n Hn.
      apply list_elem_of_fmap in Hn as (old & -> & Hold).
      apply (proj1 (list.Forall_forall _ _) Hfresh) in Hold as Hlt.
      apply (proj1 (list.Forall_forall _ _) Hfresh) in Hnode as Hlt'.
      by case_bool_decide.
    + intros i [->%elem_of_singleton|Hi]%elem_of_union; [|by apply Hknown].
      simpl. by apply list_elem_of_fmap_2.
  - unfold sound_with, sound, consistent. simpl. rewrite fmap_app. simpl.
    split_and!.
    + apply NoDup_app. split_and!; [done| |apply NoDup_singleton].
      intros i Hi ->%list_elem_of_singleton.
      apply list_elem_of_fmap in Hi as (n & Hid & Hn).
      apply (proj1 (list.Forall_forall _ _) Hfresh) in Hn. lia.
    + eapply Forall_impl; [exact Hends|]. intros e [Hs Ht].
      rewrite !elem_of_app. tauto.
    + apply Forall_app. split.
      * eapply Forall_impl; [exact Hfresh|]. intros n Hn. simpl in Hn. lia.
      * apply Forall_singleton. simpl. lia.
    + intros i [->%elem_of_singleton|Hi]%elem_of_union.
      * simpl. apply elem_of_app. right. by apply list_elem_of_singleton.
      * apply elem_of_app. left. by apply Hknown.
Qed.

(** [create_edge] between rows of the node table keeps the tables
    consistent. *)
Lemma create_edge_sound known source_node target_node rel weight metadata :
  node_id source_node ∈ known → node_id target_node ∈ known →
  triple (sound_with known)
    (create_edge source_node target_node rel weight metadata)
    (λ _, sound_with known)
    sound.
Proof.
  intros Hs Ht c [Hc Hknown]. pose proof Hc as ((Hnd & Hends) & Hfresh).
  unfold create_edge, bind, get, lift, put, ret. simpl.
  case_bool_decide as Hkey; [done|].
  destruct (scalar_one_or_none _) as [e|[edge|]] eqn:Hrows; simpl; [done| |].
  - apply scalar_one_or_none_some in Hrows.
    assert (Hedge : edge ∈ edges (db c)).
    { assert (He : edge ∈ select_edge (db c) (node_id source_node)
                           (node_id target_node) rel) by (rewrite Hrows; left).
      apply list_elem_of_filter in He. tauto. }
    unfold sound_with, sound, consistent. simpl. split_and!; try done.
    apply Forall_forall. intros e He.
    apply list_elem_of_fmap in He as (old & -> & Hold).
    case_bool_decide; simpl.
    + by apply (proj1 (list.Forall_forall _ _) Hends) in Hedge.
    + by apply (proj1 (list.Forall_forall _ _) Hends) in Hold.
  - unfold sound_with, sound, consistent. simpl. split_and!; try done.
    + apply Forall_app. split; [done|]. apply Forall_singleton. simpl.
      split; by apply Hknown.
    + eapply Forall_impl; [exact Hfresh|]. intros n Hn. simpl in Hn. lia.
Qed.

(** *** The traversal *)

Lemma _crawl_user_sound known w username max_subreddits :
  triple (sound_with known) (_crawl_user w username max_subreddits)
    (λ _, sound_with known) sound.
Proof.
  unfold _crawl_user.
  eapply triple_bind; [apply create_or_update_node_sound|].
  intros user_node.
  apply (triple_weaken (sound_with ({[node_id user_node]} ∪ known)) _
           (λ _, sound_with ({[node_id user_node]} ∪ known)) _ sound);
    [done| |apply triple_for_each].
  - intros ? c. apply sound_with_mono, union_subseteq_r.
  - intros [name count].
    eapply triple_bind; [apply create_or_update_node_sound|].
    intros subreddit_node.
    eapply triple_bind.
    + apply create_edge_sound.
      * apply elem_of_union_r, elem_of_union_l. by apply elem_of_singleton.
      * apply elem_of_union_l. by apply elem_of_singleton.
    + intros ?. apply triple_skip. intros c.
      apply sound_with_mono, union_subseteq_r.
Qed.

Lemma posts_loop_sound known w depth max_entities subreddit_node posts :
  node_id subreddit_node ∈ known →
  triple (sound_with known)
    (posts_loop w depth max_entities subreddit_node posts)
    (λ _, sound_with known) sound.
Proof.
  intros Hsub. induction posts as [|post rest IH]; simpl.
  - by apply triple_skip.
  - apply triple_get_then. intros c0.
    destruct (budget_exhausted c0 max_entities); [by apply triple_skip|].
    destruct (author post) as [name|]; [|exact IH].
    destruct (_ || _); [exact IH|].
    eapply triple_bind; [apply create_or_update_node_sound|].
    intros user_node.
    eapply triple_bind.
    { apply triple_lift. intros c. apply sound_with_sound. }
    intros weight. cbn beta.
    eapply triple_bind.
    { apply create_edge_sound.
      - apply elem_of_union_l. by apply elem_of_singleton.
      - by apply elem_of_union_r. }
    intros ?.
    eapply triple_bind.
    { case_bool_decide; [apply _crawl_user_sound|by apply triple_skip]. }
    intros ?.
    apply (triple_weaken (sound_with known) _ (λ _, sound_with known) _ sound);
      [|done|exact IH].
    intros c. apply sound_with_mono, union_subseteq_r.
Qed.

Lemma _crawl_subreddit_sound w subreddit_name depth max_entities :
  triple (sound_with ∅)
    (_crawl_subreddit w subreddit_name depth max_entities)
    (λ _, sound) sound.
Proof.
  unfold _crawl_subreddit. apply triple_get_then. intros c0.
  destruct (budget_exhausted c0 max_entities).
  { apply triple_skip. intros c. apply sound_with_sound. }
  destruct (_fetch_subreddit_info w subreddit_name) as [data|].
  2:{ apply triple_skip. intros c. apply sound_with_sound. }
  case_bool_decide.
  { apply triple_skip. intros c. apply sound_with_sound. }
  eapply triple_bind; [apply create_or_update_node_sound|].
  intros subreddit_node.
  case_bool_decide.
  { apply triple_skip. intros c. apply sound_with_sound. }
  apply (triple_weaken (sound_with ({[node_id subreddit_node]} ∪ ∅)) _
           (λ _, sound_with ({[node_id subreddit_node]} ∪ ∅)) _ sound);
    [done| |apply posts_loop_sound].
  - intros ? c. apply sound_with_sound.
  - apply elem_of_union_l. by apply elem_of_singleton.
Qed.

(** Writing the job table touches neither nodes nor edges. *)
Lemma create_crawl_job_sound c : sound c → sound (create_crawl_job c).2.
Proof.
  intros [Hc Hfresh]. split; [done|]. simpl.
  eapply Forall_impl; [exact Hfresh|]. intros n Hn. simpl in Hn. lia.
Qed.

Lemma update_crawl_job_sound c job st entities edges_n err :
  sound c → sound (update_crawl_job job st entities edges_n err c).2.
Proof. by intros [Hc Hfresh]. Qed.

Lemma crawl_sound w start_entity depth max_entities c :
  sound c → sound (crawl w start_entity depth max_entities c).2.
Proof.
  intros Hc. rewrite crawl_traversal.
  pose proof (_crawl_subreddit_sound w start_entity depth max_entities
                (update_crawl_job (next_uuid (db c)) RUNNING None None None
                   (create_crawl_job c).2).2) as Hrun.
  destruct (_crawl_subreddit _ _ _ _ _) as [[e|[]] c'];
    apply update_crawl_job_sound, Hrun;
    (split; [|intros i Hi; by apply not_elem_of_empty in Hi]);
    by apply update_crawl_job_sound, create_crawl_job_sound.
Qed.

(** A run over consistent tables, the ids of whose node rows are below
    the supply of ids, leaves consistent tables: node ids stay unique,
    and every edge, also each one that the run has added or rewritten,
    joins two rows of the node table.  This holds however the run ends,
    and for every source. *)
Theorem run_crawler_task_consistent w source0 start_entity depth max_entities
    session now :
  consistent session →
  Forall (λ n, (node_id n < next_uuid session)%N) (nodes session) →
  consistent (run_crawler_task w source0 start_entity depth max_entities
                session now).
Proof.
  intros Hd Hfresh. unfold run_crawler_task, run_reddit_crawler.
  case_bool_decide; [|done].
  by apply (crawl_sound w start_entity depth max_entities
              (init session get_source_name now)).
Qed.

Lemma run_crawler_task_consistent_witness :
  consistent (run_crawler_task Samples.small_reddit "reddit" "rust" 3 10
                Samples.linked_pair 100).
Proof.
  apply run_crawler_task_consistent.
  - apply (bool_decide_unpack _). vm_compute. reflexivity.
  - apply (bool_decide_unpack _). vm_compute. reflexivity.
Defined.

End Integrity.

(** ** Neighbours of a node *)

Section Neighbors.
Import GraphAPI.

Implicit Types (d : Store) (q : NeighborsQuery).

Lemma length_take_le {A} (n : nat) (l : list A) : List.length (take n l) ≤ n.
Proof. rewrite length_take. lia. Qed.

Lemma elem_of_take_filter {A} (P : A → Prop) `{!∀ x, Decision (P x)}
    (n : nat) (l : list A) (x : A) :
  x ∈ take n (filter P l) → x ∈ l ∧ P x.
Proof.
  intros Hx. apply (subseteq_take n) in Hx.
  apply list_elem_of_filter in Hx. tauto.
Qed.

(** The two lists of edges of [get_neighbors] together. *)
Lemma neighbors_edges_bound (direction : Direction) (limit : Z)
    (out inc : list Edge) :
  (1 ≤ limit)%Z →
  (Z.of_nat
     (List.length
        ((if bool_decide (direction ∈ [outgoing; both])
          then take (Z.to_nat limit) out else [])
         ++ (if bool_decide (direction ∈ [incoming; both])
             then take (Z.to_nat limit) inc else [])))
   ≤ if bool_decide (direction = both) then 2 * limit else limit)%Z.
Proof.
  intros Hlimit. rewrite length_app.
  pose proof (length_take_le (Z.to_nat limit) out).
  pose proof (length_take_le (Z.to_nat limit) inc).
  destruct direction; repeat case_bool_decide; try done; simpl; try lia;
    match goal with
    | H : ¬ _ ∈ _ |- _ => exfalso; apply H; rewrite !elem_of_cons; tauto
    | H : _ ∈ _ |- _ =>
        exfalso; rewrite !elem_of_cons, elem_of_nil in H; intuition congruence
    end.
Qed.

(** Rows with different ids whose ids are the source of one of [inc] or
    the target of one of [out]: no more than edges. *)
Lemma neighbors_at_most_edges (rows : list Node) (out inc : list Edge) :
  NoDup (node_id <$> rows) →
  List.length
    (filter (λ n, node_id n ∈ (list_to_set (source_node_id <$> inc)
                               ∪ list_to_set (target_node_id <$> out) : gset N))
            rows)
  ≤ List.length (out ++ inc).
Proof.
  intros Hnd.
  set (ids := (list_to_set (source_node_id <$> inc)
               ∪ list_to_set (target_node_id <$> out) : gset N)).
  assert (Hlen : List.length (filter (λ n, node_id n ∈ ids) rows) ≤ size ids).
  { rewrite <- (length_fmap node_id).
    rewrite <- (size_list_to_set (C := gset N)).
    - apply subseteq_size. intros i Hi%elem_of_list_to_set.
      apply list_elem_of_fmap in Hi as (n & -> & Hn).
      apply list_elem_of_filter in Hn. tauto.
    - clear -Hnd. induction rows as [|x l IH]; [constructor|].
      rewrite fmap_cons in Hnd. apply NoDup_cons in Hnd as [Hx Hnd].
      rewrite filter_cons. destruct (decide _); [|by apply IH].
      rewrite fmap_cons. apply NoDup_cons. split; [|by apply IH].
      intros Hin. apply Hx. apply list_elem_of_fmap in Hin as (y & -> & Hy).
      apply list_elem_of_filter in Hy as [_ Hy]. by apply list_elem_of_fmap_2. }
  assert (Hsize : size ids ≤ List.length inc + List.length out).
  { unfold ids. rewrite size_union_alt.
    pose proof (size_list_to_set_le (source_node_id <$> inc)) as Ha.
    pose proof (size_list_to_set_le (target_node_id <$> out)) as Hb.
    pose proof (subseteq_size
                  (list_to_set (target_node_id <$> out)
                   ∖ list_to_set (source_node_id <$> inc) : gset N)
                  (list_to_set (target_node_id <$> out))
                  (subseteq_difference_l _ _ _ (reflexivity _))).
    rewrite length_fmap in Ha, Hb. lia. }
  rewrite length_app. lia.
Qed.

(** At most [max_neighbors] edges are returned for each direction asked
    for, so twice as many for [both]; each is a stored edge of an allowed
    type that starts or ends at the node; each neighbour is a stored node
    at the other end of one of the edges returned; and [count] is the
    number of neighbours. *)
Theorem get_neighbors_edges d q r :
  get_neighbors d q = Ok r →
  (1 ≤ max_neighbors q)%Z →
  (neighbors_node r ∈ nodes d
   ∧ node_id (neighbors_node r) = neighbors_node_id q)
  ∧ (Z.of_nat (List.length (neighbors_edges r))
     ≤ if bool_decide (neighbors_direction q = both)
       then 2 * max_neighbors q else max_neighbors q)%Z
  ∧ (∀ e, e ∈ neighbors_edges r →
          e ∈ edges d
          ∧ type_allowed (neighbors_relationship_types q) e
          ∧ (source_node_id e = neighbors_node_id q
             ∧ neighbors_direction q ≠ incoming
             ∨ target_node_id e = neighbors_node_id q
               ∧ neighbors_direction q ≠ outgoing))
  ∧ (∀ n, n ∈ neighbors r →
          n ∈ nodes d
          ∧ ∃ e, e ∈ neighbors_edges r
                 ∧ (source_node_id e = neighbors_node_id q
                    ∧ target_node_id e = node_id n
                    ∨ target_node_id e = neighbors_node_id q
                      ∧ source_node_id e = node_id n))
  ∧ count r = Z.of_nat (List.length (neighbors r)).
Proof.
  unfold get_neighbors. intros Hr Hmax.
  destruct (scalar_one_or_none _) as [e|[node|]] eqn:Hnode; [done| |done].
  injection Hr as <-. cbn [neighbors_node neighbors neighbors_edges count].
  apply scalar_one_or_none_some, select_node_by_id_elem in Hnode.
  split; [exact Hnode|].
  set (out := filter (λ e, source_node_id e = neighbors_node_id q
                           ∧ type_allowed (neighbors_relationship_types q) e)
                     (edges d)).
  set (inc := filter (λ e, target_node_id e = neighbors_node_id q
                           ∧ type_allowed (neighbors_relationship_types q) e)
                     (edges d)).
  pose proof (length_take_le (Z.to_nat (max_neighbors q)) out) as Hout.
  pose proof (length_take_le (Z.to_nat (max_neighbors q)) inc) as Hinc.
  assert (Houts : ∀ e, e ∈ take (Z.to_nat (max_neighbors q)) out →
            e ∈ edges d ∧ source_node_id e = neighbors_node_id q
            ∧ type_allowed (neighbors_relationship_types q) e)
    by (intros e He; by apply elem_of_take_filter in He).
  assert (Hincs : ∀ e, e ∈ take (Z.to_nat (max_neighbors q)) inc →
            e ∈ edges d ∧ target_node_id e = neighbors_node_id q
            ∧ type_allowed (neighbors_relationship_types q) e)
    by (intros e He; by apply elem_of_take_filter in He).
  clearbody out inc.
  split_and!.
  - by apply neighbors_edges_bound.
  - intros e [He|He]%elem_of_app.
    + case_bool_decide as Hdir; [|by apply elem_of_nil in He].
      destruct (Houts e He) as (? & ? & ?). split_and!; [done..|]. left.
      split; [done|]. intros Heq. rewrite Heq in Hdir.
      rewrite !elem_of_cons, elem_of_nil in Hdir. intuition congruence.
    + case_bool_decide as Hdir; [|by apply elem_of_nil in He].
      destruct (Hincs e He) as (? & ? & ?). split_and!; [done..|]. right.
      split; [done|]. intros Heq. rewrite Heq in Hdir.
      rewrite !elem_of_cons, elem_of_nil in Hdir. intuition congruence.
  - intros n Hn. apply list_elem_of_filter in Hn as [Hid Hn].
    split; [done|].
    apply elem_of_union in Hid as [Hid|Hid]; apply elem_of_list_to_set,
      list_elem_of_fmap in Hid as (e & Heq & He); exists e.
    + split; [apply elem_of_app; by right|]. right.
      case_bool_decide; [|by apply elem_of_nil in He].
      destruct (Hincs e He) as (? & ? & ?). done.
    + split; [apply elem_of_app; by left|]. left.
      case_bool_decide; [|by apply elem_of_nil in He].
      destruct (Houts e He) as (? & ? & ?). done.
  - done.
Qed.

Lemma get_neighbors_edges_witness :
  (Samples.node 1 "subreddit" "rust" ∈ nodes Samples.fan
   ∧ node_id (Samples.node 1 "subreddit" "rust") = 1%N)
  ∧ (Z.of_nat (List.length [Samples.edge 6 1 2 1; Samples.edge 4 2 1 1])
     ≤ if bool_decide (both = both) then 2 * 1 else 1)%Z
  ∧ (∀ e, e ∈ [Samples.edge 6 1 2 1; Samples.edge 4 2 1 1] →
          e ∈ edges Samples.fan
          ∧ type_allowed None e
          ∧ (source_node_id e = 1%N ∧ both ≠ incoming
             ∨ target_node_id e = 1%N ∧ both ≠ outgoing))
  ∧ (∀ n, n ∈ [Samples.node 2 "user" "alice"] →
          n ∈ nodes Samples.fan
          ∧ ∃ e, e ∈ [Samples.edge 6 1 2 1; Samples.edge 4 2 1 1]
                 ∧ (source_node_id e = 1%N ∧ target_node_id e = node_id n
                    ∨ target_node_id e = 1%N ∧ source_node_id e = node_id n))
  ∧ 1%Z = Z.of_nat (List.length [Samples.node 2 "user" "alice"]).
Proof.
  apply (get_neighbors_edges Samples.fan (mkNeighborsQuery 1 None both 1)
           (mkNeighborsResponse (Samples.node 1 "subreddit" "rust")
              [Samples.node 2 "user" "alice"]
              [Samples.edge 6 1 2 1; Samples.edge 4 2 1 1] 1)).
  - vm_compute. reflexivity.
  - simpl. lia.
Defined.

(** With unique node ids there are no more neighbours than edges
    returned: [max_neighbors] bounds [count] for one direction, twice
    [max_neighbors] for [both]. *)
Theorem get_neighbors_count d q r :
  NoDup (node_id <$> nodes d) →
  get_neighbors d q = Ok r →
  (1 ≤ max_neighbors q)%Z →
  (count r ≤ Z.of_nat (List.length (neighbors_edges r)))%Z
  ∧ (count r ≤ if bool_decide (neighbors_direction q = both)
               then 2 * max_neighbors q else max_neighbors q)%Z.
Proof.
  intros Hnd Hr Hmax. unfold get_neighbors in Hr.
  destruct (scalar_one_or_none _) as [e|[node|]]; [done| |done].
  injection Hr as <-. cbn [neighbors neighbors_edges count].
  match goal with
  | |- context [filter _ (nodes d)] =>
      match goal with
      | |- context [List.length (?out ++ ?inc)] =>
          pose proof (neighbors_at_most_edges (nodes d) out inc Hnd) as Hcount
      end
  end.
  pose proof (neighbors_edges_bound (neighbors_direction q) (max_neighbors q)
                (filter (λ e, source_node_id e = neighbors_node_id q
                              ∧ type_allowed (neighbors_relationship_types q) e)
                        (edges d))
                (filter (λ e, target_node_id e = neighbors_node_id q
                              ∧ type_allowed (neighbors_relationship_types q) e)
                        (edges d)) Hmax) as Hbound.
  split; lia.
Qed.

Lemma get_neighbors_count_witness :
  (1 ≤ Z.of_nat (List.length [Samples.edge 6 1 2 1; Samples.edge 4 2 1 1]))%Z
  ∧ (1 ≤ if bool_decide (both = both) then 2 * 1 else 1)%Z.
Proof.
  apply (get_neighbors_count Samples.fan (mkNeighborsQuery 1 None both 1)
           (mkNeighborsResponse (Samples.node 1 "subreddit" "rust")
              [Samples.node 2 "user" "alice"]
              [Samples.edge 6 1 2 1; Samples.edge 4 2 1 1] 1)).
  - apply (bool_decide_unpack _). vm_compute. reflexivity.
  - vm_compute. reflexivity.
  - simpl. lia.
Defined.

End Neighbors.

(** ** The depth of a subgraph query *)

Section QueryGraphDepth.
Import GraphAPI.

Implicit Types (d : Store) (q : GraphQuery) (w : Walk) (es : list Edge).

Lemma within_more_hops es start (k k' : nat) v :
  k ≤ k' → within es start k v → within es start k' v.
Proof.
  intros Hle. induction Hle as [|k' _ IH]; [done|]. intros Hv. left. by apply IH.
Qed.

Lemma within_more_edges es es' start (k : nat) : ∀ v,
  (∀ e, e ∈ es → e ∈ es') → within es start k v → within es' start k v.
Proof.
  intros v Hsub. revert v. induction k as [|k IH]; intros v; simpl; [done|].
  intros [Hv|(u & Hu & e & He & Hends)]; [left; by apply IH|].
  right. exists u. split; [by apply IH|]. exists e. split; [by apply Hsub|done].
Qed.

(** An edge over which the loop runs joins the current node and the
    node that the loop takes as next. *)
Lemma rows_next q (current_id : UUID) (e : Edge) :
  match direction q with
  | outgoing => source_node_id e = current_id
  | incoming => target_node_id e = current_id
  | both => False
  end →
  let next_node_id :=
    if bool_decide (direction q = outgoing ∨ source_node_id e = current_id)
    then target_node_id e else source_node_id e in
  source_node_id e = current_id ∧ target_node_id e = next_node_id
  ∨ source_node_id e = next_node_id ∧ target_node_id e = current_id.
Proof.
  intros He. simpl. case_bool_decide as Hnext.
  - destruct (direction q) eqn:Hdir; [by left| |done].
    destruct Hnext as [Hout|Hs]; [done|by left].
  - destruct (direction q) eqn:Hdir; [tauto| |done]. by right.
Qed.

Lemma visit_edge_near q current_id current_depth w edge :
  (source_node_id edge = current_id
   ∧ target_node_id edge
     = (if bool_decide (direction q = outgoing
                        ∨ source_node_id edge = current_id)
        then target_node_id edge else source_node_id edge)
   ∨ source_node_id edge
     = (if bool_decide (direction q = outgoing
                        ∨ source_node_id edge = current_id)
        then target_node_id edge else source_node_id edge)
     ∧ target_node_id edge = current_id) →
  (0 ≤ current_depth < depth q)%Z →
  within (edges_result w) (start_node_id q) (Z.to_nat current_depth) current_id →
  walk_near q w →
  walk_near q (visit_edge q current_id current_depth w edge)
  ∧ ∀ e, e ∈ edges_result w →
         e ∈ edges_result (visit_edge q current_id current_depth w edge).
Proof.
  intros Hjoin Hdepth Hcur Hw. pose proof Hw as [Hqueue Hnodes].
  unfold visit_edge.
  destruct (decide (edge_id edge ∈ visited_edges w)) as [Hseen|Hseen].
  { rewrite bool_decide_eq_true_2 by done. split; [exact Hw|done]. }
  rewrite bool_decide_eq_false_2 by done.
  set (next_node_id :=
         if bool_decide (direction q = outgoing ∨ source_node_id edge = current_id)
         then target_node_id edge else source_node_id edge) in *.
  assert (Hsub : ∀ e, e ∈ edges_result w → e ∈ edges_result w ++ [edge])
    by (intros e He; apply elem_of_app; by left).
  assert (Hnodes' : ∀ n, n ∈ nodes_result w →
            within (edges_result w ++ [edge]) (start_node_id q)
                   (Z.to_nat (depth q)) (node_id n)).
  { intros n Hn. eapply within_more_edges; [exact Hsub|by apply Hnodes]. }
  assert (Hqueue' : ∀ i dep, (i, dep) ∈ queue w →
            (0 ≤ dep ≤ depth q)%Z
            ∧ within (edges_result w ++ [edge]) (start_node_id q)
                     (Z.to_nat dep) i).
  { intros i dep Hi. destruct (Hqueue i dep Hi) as [Hdep Hin].
    split; [done|]. by eapply within_more_edges. }
  destruct (decide (next_node_id ∈ visited_nodes w)) as [Hvis|Hvis];
    [rewrite bool_decide_eq_true_2 by done
    |rewrite bool_decide_eq_false_2 by done];
    (split; [|exact Hsub]); (split; [|exact Hnodes']);
    cbn [queue edges_result]; [exact Hqueue'|].
  intros i dep [Hi|Hi%list_elem_of_singleton]%elem_of_app; [by apply Hqueue'|].
  injection Hi as -> ->. split; [lia|].
  replace (Z.to_nat (current_depth + 1)) with (S (Z.to_nat current_depth))
    by lia.
  right. exists current_id. split; [by eapply within_more_edges|].
  exists edge. split; [|exact Hjoin].
  apply elem_of_app. right. by apply list_elem_of_singleton.
Qed.

Lemma visit_edges_near q current_id current_depth (rows : list Edge) :
  (∀ edge, edge ∈ rows →
     source_node_id edge = current_id
     ∧ target_node_id edge
       = (if bool_decide (direction q = outgoing
                          ∨ source_node_id edge = current_id)
          then target_node_id edge else source_node_id edge)
     ∨ source_node_id edge
       = (if bool_decide (direction q = outgoing
                          ∨ source_node_id edge = current_id)
          then target_node_id edge else source_node_id edge)
       ∧ target_node_id edge = current_id) →
  (0 ≤ current_depth < depth q)%Z →
  ∀ w, within (edges_result w) (start_node_id q) (Z.to_nat current_depth)
              current_id →
       walk_near q w →
       walk_near q (fold_left (visit_edge q current_id current_depth) rows w).
Proof.
  intros Hrows Hdepth. induction rows as [|edge rows IH]; intros w Hcur Hw;
    [done|].
  simpl.
  destruct (visit_edge_near q current_id current_depth w edge) as [Hw' Hsub];
    [apply Hrows; left|done..|].
  apply IH; [|by eapply within_more_edges|done].
  intros e He. apply Hrows. by right.
Qed.

Lemma bfs_loop_near d q : ∀ fuel w w',
  walk_near q w → bfs_loop fuel d q w = Some (inr w') → walk_near q w'.
Proof.
  induction fuel as [|fuel IH]; intros w w' Hw; simpl;
    destruct (queue w) as [|[current_id current_depth] rest] eqn:Hqueue;
    try (intros [= <-]; exact Hw);
    (case_bool_decide; [|intros [= <-]; exact Hw]); [done|].
  destruct (scalar_one _) as [e|current_node] eqn:Hrow; [done|].
  assert (Hid : node_id current_node = current_id).
  { apply (select_node_by_id_elem d).
    destruct (select_node_by_id d current_id) as [|x [|y rows]]; simpl in Hrow;
      congruence. }
  destruct Hw as [Hq Hnodes].
  destruct (Hq current_id current_depth) as [Hdepth Hcur];
    [rewrite Hqueue; left|].
  set (w1 := mkWalk (visited_nodes w) (visited_edges w) rest
                    (nodes_result w ++ [current_node]) (edges_result w)).
  assert (Hw1 : walk_near q w1).
  { split; cbn [queue nodes_result edges_result w1].
    - intros i dep Hi. apply Hq. rewrite Hqueue. by right.
    - intros n [Hn|Hn%list_elem_of_singleton]%elem_of_app; [by apply Hnodes|].
      subst n. rewrite Hid.
      apply (within_more_hops _ _ (Z.to_nat current_depth)); [lia|done]. }
  case_bool_decide; [by apply IH|].
  destruct (visit_edges _ _ _ _ _) as [e|w2] eqn:Hvisit; [done|].
  apply visit_edges_rows in Hvisit as (rows & -> & Hrows).
  apply IH. apply visit_edges_near; [|lia|done..].
  intros edge Hedge. apply rows_next. by apply Hrows.
Qed.

(** Every node of an answer of [query_graph] is within [depth] hops of
    the start node, over edges of the answer taken in either direction. *)
Theorem query_graph_within_depth d q r :
  query_graph d q = Some (Ok r) →
  (0 ≤ depth q)%Z →
  ∀ n, n ∈ resp_nodes r →
       within (resp_edges r) (start_node_id q) (Z.to_nat (depth q)) (node_id n).
Proof.
  unfold query_graph, query_graph_fuel. intros Hr Hdepth.
  destruct (scalar_one_or_none _) as [e|[start_node|]]; [done| |done].
  destruct (bfs_loop _ d q (initial_walk q)) as [[e|w]|] eqn:Hloop; try done.
  injection Hr as <-. cbn [resp_nodes resp_edges].
  apply bfs_loop_near in Hloop as [_ Hnodes]; [done|].
  split; simpl.
  - intros i dep Hi%list_elem_of_singleton. injection Hi as -> ->.
    split; [lia|done].
  - intros n Hn. by apply elem_of_nil in Hn.
Qed.

Lemma query_graph_within_depth_witness :
  within [Samples.edge 6 1 2 1; Samples.edge 7 1 3 1] 1 (Z.to_nat 1)
         (node_id (Samples.node 3 "user" "bob")).
Proof.
  apply (query_graph_within_depth Samples.fan
           (mkGraphQuery 1 1 100 None outgoing)
           (mkGraphResponse
              [Samples.node 1 "subreddit" "rust"; Samples.node 2 "user" "alice";
               Samples.node 3 "user" "bob"]
              [Samples.edge 6 1 2 1; Samples.edge 7 1 3 1])).
  - vm_compute. reflexivity.
  - simpl. lia.
  - right. right. left.
Defined.

End QueryGraphDepth.

(** ** Graph statistics *)

Section StatsTotals.
Import GraphAPI.

Lemma total_count_insert (counts : gmap string Z) (k : string) (n : Z) :
  counts !! k = None →
  total_count (<[k := n]> counts) = (n + total_count counts)%Z.
Proof.
  intros Hk. unfold total_count.
  rewrite map_fold_insert_L; [done| |done]. intros; lia.
Qed.

(** A row more in a group is one more in the sum of the groups. *)
Lemma total_count_bump (counts : gmap string Z) (k : string) :
  total_count (<[k := (default 0 (counts !! k) + 1)%Z]> counts)
  = (total_count counts + 1)%Z.
Proof.
  destruct (counts !! k) as [n|] eqn:Hk; simpl.
  - rewrite <- insert_delete_eq.
    rewrite total_count_insert by apply lookup_delete_eq.
    rewrite <- (insert_delete_id counts k n Hk) at 2.
    rewrite total_count_insert by apply lookup_delete_eq. lia.
  - rewrite total_count_insert by done. lia.
Qed.

Lemma total_count_count_by {A} (key : A → string) (rows : list A) :
  total_count (count_by key rows) = Z.of_nat (List.length rows).
Proof.
  induction rows as [|r rows IH].
  - reflexivity.
  - cbn [count_by foldr]. fold (count_by key rows).
    rewrite total_count_bump, IH. simpl List.length. lia.
Qed.

(** The groups of the statistics leave no row out and count none twice:
    the counts by type and by source add up to [total_nodes], the counts
    by relationship type to [total_edges]. *)
Theorem get_graph_stats_counts_add_up (d : Store) :
  total_count (nodes_by_type (get_graph_stats d))
  = total_nodes (get_graph_stats d)
  ∧ total_count (nodes_by_source (get_graph_stats d))
    = total_nodes (get_graph_stats d)
  ∧ total_count (edges_by_type (get_graph_stats d))
    = total_edges (get_graph_stats d).
Proof.
  unfold get_graph_stats. cbn [nodes_by_type nodes_by_source edges_by_type
    total_nodes total_edges].
  by rewrite !total_count_count_by.
Qed.

(** With fewer than two nodes no pair of nodes can be joined: the
    divisor is 0.0, the division is left out, and [density] is 0.0. *)
Lemma get_graph_stats_density_small (d : Store) :
  List.length (nodes d) < 2 → density (get_graph_stats d) = 0%float.
Proof.
  intros Hn. unfold get_graph_stats. cbn [density].
  destruct (nodes d) as [|n [|n' rows]]; [done..|simpl in Hn; lia].
Qed.

End StatsTotals.
